(** * bert-ipu-quickstart: checkpoint remapping and training-loop bookkeeping

    A shallow embedding of the host-side logic of [bert_tf_loader.py]
    ([generate_initializers]) and of [bert.py] ([bert_output_stats],
    [Iteration], [bert_process_data], [compute_latency], [bert_train_loop]).

    Conventions.
    - A Python exception is a value of [exn]; a function that may raise
      returns [res A].
    - A dict keyed by tensor names is a [gmap string _]; a dict whose
      iteration order is observed is an association list.
    - numpy arrays are lists (rank 1) or lists of rows with an explicit
      column count (rank 2); a cell of a buffer obtained from [np.empty]
      that was never written is [None]. *)

From Stdlib Require Import Ascii QArith.
From stdpp Require Import gmap strings list fin_maps pretty.

Close Scope Q_scope.
Open Scope string_scope.
Open Scope nat_scope.
Open Scope list_scope.

(** ** Python exceptions and the error monad *)

Inductive exn :=
  | KeyError | IndexError | ValueError | TypeError | AttributeError
  | ZeroDivisionError | RuntimeError | SystemExit.

Inductive res (A : Type) :=
  | Ok (a : A)
  | Raise (e : exn).
Arguments Ok {A} a.
Arguments Raise {A} e.

Definition rbind {A B} (m : res A) (f : A → res B) : res B :=
  match m with Ok a => f a | Raise e => Raise e end.

Notation "x <~ m ;; k" := (rbind m (λ x, k))
  (at level 100, m at next level, right associativity, only parsing).

Definition is_Ok {A} (r : res A) : Prop := ∃ a, r = Ok a.
Definition raises {A} (r : res A) : Prop := ∃ e, r = Raise e.

(** [d[k]] on a dict: [KeyError] when the key is absent. *)
Definition getitem {V} (d : gmap string V) (k : string) : res V :=
  match d !! k with Some v => Ok v | None => Raise KeyError end.

(** A [for] loop whose body may raise. *)
Fixpoint for_each {S X} (body : S → X → res S) (s : S) (xs : list X) : res S :=
  match xs with
  | [] => Ok s
  | x :: xs' => s' <~ body s x;; for_each body s' xs'
  end.

(** ** Strings *)

(** [s.split(sep)] for a one-character separator. *)
Fixpoint py_split (sep : Ascii.ascii) (s : string) : list string :=
  match s with
  | EmptyString => [EmptyString]
  | String c s' =>
      if decide (c = sep) then EmptyString :: py_split sep s'
      else match py_split sep s' with
           | [] => [String c EmptyString]
           | w :: ws => String c w :: ws
           end
  end.

(** [l[-2]]. *)
Definition py_index_neg2 {A} (l : list A) : res A :=
  match l !! (length l - 2) with
  | Some x => if decide (2 ≤ length l) then Ok x else Raise IndexError
  | None => Raise IndexError
  end.

(** [s[-3:]]. *)
Definition py_last3 (s : string) : string :=
  String.substring (String.length s - 3) 3 s.

(** * bert_tf_loader.py *)

Module TfLoader.

Inductive DType := Float16 | Float32 | OtherDType.

Global Instance DType_eq_dec : EqDecision DType.
Proof. solve_decision. Defined.

(** numpy arrays of rank 1 and 2, the ranks of the mapped checkpoint
    tensors.  A matrix keeps its column count, as a numpy shape does when
    there are no rows. *)
Inductive ndarray (A : Type) :=
  | Vec (dt : DType) (xs : list A)
  | Mat (dt : DType) (ncols : nat) (rows : list (list A)).
Arguments Vec {A} dt xs.
Arguments Mat {A} dt ncols rows.

Definition dtype {A} (a : ndarray A) : DType :=
  match a with Vec dt _ => dt | Mat dt _ _ => dt end.

(** [a.shape[0]] and [a.shape[1]]. *)
Definition shape0 {A} (a : ndarray A) : nat :=
  match a with Vec _ xs => length xs | Mat _ _ rows => length rows end.

Definition shape1 {A} (a : ndarray A) : res nat :=
  match a with Vec _ _ => Raise IndexError | Mat _ c _ => Ok c end.

(** The shape invariant of a rank-2 array. *)
Definition well_shaped {A} (a : ndarray A) : Prop :=
  match a with
  | Vec _ _ => True
  | Mat _ c rows => Forall (λ r, length r = c) rows
  end.

Definition amap {A B} (f : A → B) (a : ndarray A) : ndarray B :=
  match a with
  | Vec dt xs => Vec dt (fmap (M:=list) f xs)
  | Mat dt c rows => Mat dt c (fmap (M:=list) (fmap (M:=list) f) rows)
  end.

(** The fields of [BertConfig] that the loader reads. *)
Record BertConfig := {
  num_layers : nat;
  hidden_size : nat;
  vocab_length : nat;
  config_dtype : DType;
  custom_ops : list string;
}.

(** ** get_tf_mapping *)

Definition layer_mapping (i : nat) : list (string * string) :=
  let src := "bert/encoder/layer_" +:+ pretty i in
  let dst := "Layer" +:+ pretty i in
  [ (src +:+ "/attention/self/query/kernel", dst +:+ "/Attention/QKV");
    (src +:+ "/attention/self/key/kernel", dst +:+ "/Attention/QKV");
    (src +:+ "/attention/self/value/kernel", dst +:+ "/Attention/QKV");
    (src +:+ "/attention/output/dense/kernel", dst +:+ "/Attention/Out");
    (src +:+ "/attention/output/LayerNorm/gamma", dst +:+ "/Attention/Gamma");
    (src +:+ "/attention/output/LayerNorm/beta", dst +:+ "/Attention/Beta");
    (src +:+ "/intermediate/dense/kernel", dst +:+ "/FF/1/W");
    (src +:+ "/intermediate/dense/bias", dst +:+ "/FF/1/B");
    (src +:+ "/output/dense/kernel", dst +:+ "/FF/2/W");
    (src +:+ "/output/dense/bias", dst +:+ "/FF/2/B");
    (src +:+ "/output/LayerNorm/gamma", dst +:+ "/FF/Gamma");
    (src +:+ "/output/LayerNorm/beta", dst +:+ "/FF/Beta") ].

(** The dict [update] method: later entries win. *)
Definition dict_update {V} (d : gmap string V) (kvs : list (string * V)) : gmap string V :=
  foldl (λ m kv, <[kv.1 := kv.2]> m) d kvs.

Definition get_tf_mapping (config : BertConfig) : gmap string string :=
  let tf_to_onnx := dict_update ∅
    [ ("bert/embeddings/word_embeddings", "Embedding/Embedding_Dict");
      ("bert/embeddings/position_embeddings", "Embedding/Positional_Dict");
      ("bert/embeddings/token_type_embeddings", "Embedding/Segment_Dict");
      ("bert/embeddings/LayerNorm/gamma", "Embedding/Gamma");
      ("bert/embeddings/LayerNorm/beta", "Embedding/Beta");
      ("cls/predictions/transform/dense/kernel", "CLS/LMPredictionW");
      ("cls/predictions/transform/dense/bias", "CLS/LMPredictionB");
      ("cls/predictions/transform/LayerNorm/gamma", "CLS/Gamma");
      ("cls/predictions/transform/LayerNorm/beta", "CLS/Beta") ] in
  foldl (λ m i, dict_update m (layer_mapping i)) tf_to_onnx (seq 0 (num_layers config)).

(** ** generate_initializers *)

Section GenerateInitializers.

(** The loader only moves values around: the element type is left
    abstract, with the value [0.0] and the conversion performed by
    [astype] and by an assignment into a buffer of another dtype. *)
Context {elt : Type}.
Variable zero : elt.
Variable cast : DType → DType → elt → elt.

(** [a.astype(dt)]. *)
Definition astype (dt : DType) (a : ndarray elt) : ndarray elt :=
  match a with
  | Vec d xs => Vec dt (if decide (d = dt) then xs else fmap (M:=list) (cast d dt) xs)
  | Mat d c rows =>
      Mat dt c (if decide (d = dt) then rows
                else fmap (M:=list) (fmap (M:=list) (cast d dt)) rows)
  end.

(** [np.empty((r, c), dtype=dt)]: no cell is determined. *)
Definition np_empty (r c : nat) (dt : DType) : ndarray (option elt) :=
  Mat dt c (replicate r (replicate c None)).

(** [np.zeros((r, c)).astype(dt)]. *)
Definition np_zeros (r c : nat) (dt : DType) : ndarray elt :=
  Mat dt c (replicate r (replicate c zero)).

(** Broadcasting of one axis to length [n]: equal length, or length 1
    repeated. *)
Definition broadcast {A} (n : nat) (l : list A) : res (list A) :=
  if decide (length l = n) then Ok l
  else match l with
       | [x] => Ok (replicate n x)
       | _ => Raise ValueError
       end.

(** The rows that [value] contributes to a target of shape (r, w). *)
Definition broadcast_to (r w : nat) (value : ndarray elt) : res (list (list elt)) :=
  match value with
  | Vec _ xs => row <~ broadcast w xs;; Ok (replicate r row)
  | Mat _ c rows =>
      cols <~ broadcast w (seq 0 c);;
      rows' <~ broadcast r rows;;
      Ok ((λ row, if decide (c = w) then row
                  else match row with x :: _ => replicate w x | [] => [] end) <$> rows')
  end.

(** [buf[:, start:stop] = value].  The slice is clipped to the buffer's
    columns, the value is broadcast to the slice and converted to the
    buffer's dtype. *)
Definition assign_columns (buf : ndarray (option elt)) (start stop : nat)
    (value : ndarray elt) : res (ndarray (option elt)) :=
  match buf with
  | Vec _ _ => Raise IndexError
  | Mat dt c rows =>
      let s := start `min` c in
      let w := (stop `min` c) - s in
      vrows <~ broadcast_to (length rows) w value;;
      let conv := if decide (dtype value = dt) then id else cast (dtype value) dt in
      Ok (Mat dt c (zip_with (λ brow vrow,
                      take s brow ++ (Some ∘ conv <$> vrow) ++ drop (s + w) brow)
                    rows vrows))
  end.

(** [np.concatenate((a, b), axis=0)]. *)
Definition concatenate0 (a b : ndarray elt) : res (ndarray elt) :=
  match a, b with
  | Mat dt c rows, Mat _ c' rows' =>
      if decide (c = c') then Ok (Mat dt c (rows ++ rows')) else Raise ValueError
  | Vec dt xs, Vec _ ys => Ok (Vec dt (xs ++ ys))
  | _, _ => Raise ValueError
  end.

(** [np.array(a[:n, :])]. *)
Definition crop_rows (n : nat) (a : ndarray elt) : res (ndarray elt) :=
  match a with
  | Vec _ _ => Raise IndexError
  | Mat dt c rows => Ok (Mat dt c (take n rows))
  end.

(** [np.transpose(a)]. *)
Definition column {A} (j : nat) (rows : list (list A)) : list A :=
  omap (λ row, row !! j) rows.

Definition transpose {A} (a : ndarray A) : ndarray A :=
  match a with
  | Vec dt xs => Vec dt xs
  | Mat dt c rows => Mat dt (length rows) ((λ j, column j rows) <$> seq 0 c)
  end.

Definition qkv_tensor_range (config : BertConfig) : gmap string (nat * nat) :=
  let h := hidden_size config in
  dict_update ∅ [ ("query", (0, h)); ("key", (h, h * 2)); ("value", (h * 2, h * 3)) ].

Definition EMBEDDING_DICT : string := "Embedding/Embedding_Dict".
Definition POSITIONAL_DICT : string := "Embedding/Positional_Dict".

(** The pad-or-crop of the word-embedding table. *)
Definition pad_or_crop (config : BertConfig) (array : ndarray elt) : res (ndarray elt) :=
  let tf_vocab_length := shape0 array in
  let diff := (Z.of_nat (vocab_length config) - Z.of_nat tf_vocab_length)%Z in
  if decide (0 < diff)%Z then
    let pad := np_zeros (Z.to_nat diff) (hidden_size config) (dtype array) in
    concatenate0 array pad
  else crop_rows (vocab_length config) array.

(** The dtype narrowing applied to every entry: float32 data is converted
    when the model is configured for float16. *)
Definition narrow (config : BertConfig) (array : ndarray elt) : ndarray elt :=
  if decide (dtype array = Float32 ∧ config_dtype config = Float16)
  then astype (config_dtype config) array else array.

(** One iteration of the loop over [zip(map_names, load_data)]. *)
Definition gi_step (mapping : gmap string string) (config : BertConfig)
    (initializers : gmap string (ndarray (option elt)))
    (entry : string * ndarray elt) : res (gmap string (ndarray (option elt))) :=
  let '(name, array) := entry in
  target <~ getitem mapping name;;
  let array := narrow config array in
  if decide (py_last3 target = "QKV") then
    qkv_part <~ py_index_neg2 (py_split "/"%char name);;
    initializers <~
      (match initializers !! target with
       | Some _ => Ok initializers
       | None =>
           c <~ shape1 array;;
           Ok (<[target := np_empty (shape0 array) (c * 3) (dtype array)]> initializers)
       end);;
    range <~ getitem (qkv_tensor_range config) qkv_part;;
    buf <~ getitem initializers target;;
    buf' <~ assign_columns buf range.1 range.2 array;;
    Ok (<[target := buf']> initializers)
  else
    array <~ (if decide (target = EMBEDDING_DICT) then pad_or_crop config array
              else Ok array);;
    let array :=
      if decide ("gather" ∈ custom_ops config ∧ target ∈ [EMBEDDING_DICT; POSITIONAL_DICT])
      then transpose array else array in
    Ok (<[target := amap Some array]> initializers).

Definition generate_initializers (mapping : gmap string string) (config : BertConfig)
    (map_names : list string) (load_data : list (ndarray elt))
    : res (gmap string (ndarray (option elt))) :=
  for_each (gi_step mapping config) ∅ (zip map_names load_data).

End GenerateInitializers.

(** ** Vocabulary used to state the loader's properties *)

(** The rows of a rank-2 array. *)
Definition rows_of {A} (a : ndarray A) : list (list A) :=
  match a with Vec _ _ => [] | Mat _ _ rows => rows end.

(** Three row lists side by side: row [i] of the result is row [i] of
    [a], then of [b], then of [c]. *)
Definition hstack3 {A} (a b c : list (list A)) : list (list A) :=
  zip_with (λ x yz, x ++ yz) a (zip_with (λ y z, y ++ z) b c).

(** [r] rows of [w] undetermined cells. *)
Definition blank {A} (r w : nat) : list (list (option A)) :=
  replicate r (replicate w None).

(** A fully determined block. *)
Definition known {A} (rows : list (list A)) : list (list (option A)) :=
  fmap (M:=list) (fmap (M:=list) Some) rows.

(** The three parts of a layer's attention projection and the column
    blocks they own in the layer's buffer. *)
Inductive part := Query | Key | Value.

Global Instance part_eq_dec : EqDecision part.
Proof. solve_decision. Defined.

Definition part_name (p : part) : string :=
  match p with Query => "query" | Key => "key" | Value => "value" end.

(** The column range reserved for a part: [qkv_tensor_range]. *)
Definition part_range (h : nat) (p : part) : nat * nat :=
  match p with
  | Query => (0, h)
  | Key => (h, h * 2)
  | Value => (h * 2, h * 3)
  end.

Record blocks (A : Type) := Blocks {
  q_block : list (list (option A));
  k_block : list (list (option A));
  v_block : list (list (option A));
}.
Arguments Blocks {A} _ _ _.
Arguments q_block {A} _.
Arguments k_block {A} _.
Arguments v_block {A} _.

Definition put_block {A} (p : part) (X : list (list (option A))) (b : blocks A) : blocks A :=
  match p with
  | Query => Blocks X (k_block b) (v_block b)
  | Key => Blocks (q_block b) X (v_block b)
  | Value => Blocks (q_block b) (k_block b) X
  end.

Definition blank_blocks {A} (r h : nat) : blocks A :=
  Blocks (blank r h) (blank r h) (blank r h).

(** The buffer made of three blocks of width [h]. *)
Definition qkv_buffer {A} (dt : DType) (h : nat) (b : blocks A) : ndarray (option A) :=
  Mat dt (h * 3) (hstack3 (q_block b) (k_block b) (v_block b)).

(** A rank-2 array with [r] rows and [c] columns. *)
Definition has_shape {A} (r c : nat) (a : ndarray A) : Prop :=
  match a with
  | Vec _ _ => False
  | Mat _ c' rows => c' = c ∧ length rows = r ∧ Forall (λ row, length row = c) rows
  end.

(** The cells of the buffer are determined exactly in the columns [j]
    with [D j]. *)
Definition determined_columns {A} (D : nat → Prop) (buf : ndarray (option A)) : Prop :=
  ∀ i j row cell, rows_of buf !! i = Some row → row !! j = Some cell →
    (is_Some cell ↔ D j).

(** Column [j] lies in the slice reserved for one of the parts [ps]. *)
Definition in_slice (h : nat) (ps : list part) (j : nat) : Prop :=
  ∃ p, p ∈ ps ∧ (part_range h p).1 ≤ j < (part_range h p).2.

(** A checkpoint entry [(name, array)] tagged with the part it holds: the
    name maps to [target] and its last-but-one component names the part.
    Nothing is asked of the array. *)
Definition qkv_part_entry {A} (mapping : gmap string string) (target : string)
    (e : part * (string * ndarray A)) : Prop :=
  mapping !! e.2.1 = Some target ∧
  py_index_neg2 (py_split "/"%char e.2.1) = Ok (part_name e.1).

Section Vocabulary.

Context {elt : Type}.
Variable zero : elt.
Variable cast : DType → DType → elt → elt.

(** A block of [r] rows of width [h]. *)
Definition wf_block {A} (r h : nat) (B : list (list A)) : Prop :=
  length B = r ∧ Forall (λ row, length row = h) B.

Definition wf_blocks (r h : nat) (b : blocks elt) : Prop :=
  wf_block r h (q_block b) ∧ wf_block r h (k_block b) ∧ wf_block r h (v_block b).

(** The state of the buffer of [target] while the loop runs: not yet
    created, or holding the blocks [b]. *)
Definition qkv_state (cfg : BertConfig) (inits : gmap string (ndarray (option elt)))
    (target : string) (dt : DType) (r : nat) (b : blocks elt) : Prop :=
  wf_blocks r (hidden_size cfg) b ∧
  (inits !! target = Some (qkv_buffer dt (hidden_size cfg) b) ∨
   (inits !! target = None ∧ b = blank_blocks r (hidden_size cfg))).

(** A checkpoint entry [(name, array)] tagged with the part it holds: the
    name maps to [target], its last-but-one component names the part, and
    the array has [r] rows, the configured width and, once narrowed, the
    dtype [dt]. *)
Definition qkv_entry_ok (mapping : gmap string string) (cfg : BertConfig)
    (target : string) (dt : DType) (r : nat) (e : part * (string * ndarray elt)) : Prop :=
  mapping !! e.2.1 = Some target ∧
  py_index_neg2 (py_split "/"%char e.2.1) = Ok (part_name e.1) ∧
  has_shape r (hidden_size cfg) e.2.2 ∧
  dtype (narrow cast cfg e.2.2) = dt.

(** The effect of one tagged entry on the blocks. *)
Definition store_part (cfg : BertConfig) (b : blocks elt)
    (e : part * (string * ndarray elt)) : blocks elt :=
  put_block e.1 (known (rows_of (narrow cast cfg e.2.2))) b.

(** The buffer holding the three parts side by side. *)
Definition qkv_concat (cfg : BertConfig) (q k v : ndarray elt) : ndarray (option elt) :=
  qkv_buffer (dtype (narrow cast cfg q)) (hidden_size cfg)
    (Blocks (known (rows_of (narrow cast cfg q)))
            (known (rows_of (narrow cast cfg k)))
            (known (rows_of (narrow cast cfg v)))).

(** The table cut, or padded with zero rows, to [T] rows. *)
Definition resize_vocab (T c : nat) (rows : list (list elt)) : list (list elt) :=
  take T rows ++ replicate (T - length rows) (replicate c zero).

(** What the loop stores for a tensor that is not a QKV part. *)
Definition stored (cfg : BertConfig) (target : string) (a : ndarray elt)
    : ndarray (option elt) :=
  amap Some (if decide ("gather" ∈ custom_ops cfg ∧ target ∈ [EMBEDDING_DICT; POSITIONAL_DICT])
             then transpose a else a).

End Vocabulary.

End TfLoader.

(** * bert.py *)

Module Bert.

(** ** Numbers

    A Python or numpy float is idealised as a rational; [None] stands for
    a non-finite result ([nan] or an infinity), which is what numpy yields
    for a division by zero and for the mean of an empty array.  Arrays are
    flattened: every array operation of the modelled code is elementwise. *)

Definition float := option Q.

Definition fzero : float := Some 0%Q.
Definition of_Z (z : Z) : float := Some (inject_Z z).
Definition of_nat (n : nat) : float := of_Z (Z.of_nat n).

Definition fadd (a b : float) : float :=
  match a, b with
  | Some x, Some y => Some (x + y)%Q
  | _, _ => None
  end.

(** numpy true division: no exception, a non-finite value when the
    divisor is zero. *)
Definition fdiv (a b : float) : float :=
  match a, b with
  | Some x, Some y => if Qeq_bool y 0 then None else Some (x / y)%Q
  | _, _ => None
  end.

(** [x == label] for a float [x] and an integer label. *)
Definition feq_Z (x : float) (l : Z) : bool :=
  match x with
  | Some q => Qeq_bool q (inject_Z l)
  | None => false
  end.

Definition np_sum (a : list float) : float := foldl fadd fzero a.

(** [np.mean] and [np.average]: [nan] on an empty array. *)
Definition np_mean (a : list float) : float :=
  fdiv (np_sum a) (of_nat (length a)).

Definition sum_Z (a : list Z) : Z := foldl Z.add 0%Z a.

(** Python's [%] on integers. *)
Definition py_mod (a b : Z) : res Z :=
  if decide (b = 0%Z) then Raise ZeroDivisionError else Ok (a `mod` b)%Z.

(** Python's [/] on integers. *)
Definition py_truediv (a b : Z) : res float :=
  if decide (b = 0%Z) then Raise ZeroDivisionError else Ok (fdiv (of_Z a) (of_Z b)).

(** A binary numpy operation on two rank-1 arrays: equal lengths, or one
    operand of length 1 broadcast over the other. *)
Definition broadcast2 {A B C} (f : A → B → C) (a : list A) (b : list B) : res (list C) :=
  if decide (length a = length b) then Ok (zip_with f a b)
  else match a, b with
       | [x], _ => Ok (f x <$> b)
       | _, [y] => Ok ((λ x, f x y) <$> a)
       | _, _ => Raise ValueError
       end.

(** [a[mask]] for a boolean mask of the shape of [a]. *)
Fixpoint select {A} (mask : list bool) (a : list A) : list A :=
  match mask, a with
  | m :: mask', x :: a' => if m then x :: select mask' a' else select mask' a'
  | _, _ => []
  end.

Definition bool_index {A} (a : list A) (mask : list bool) : res (list A) :=
  if decide (length mask = length a) then Ok (select mask a) else Raise IndexError.

(** [a[np.logical_not(mask)] = 0]. *)
Definition zero_unmasked (a : list float) (mask : list bool) : res (list float) :=
  if decide (length mask = length a)
  then Ok (zip_with (λ (m : bool) x, if m then x else fzero) mask a)
  else Raise IndexError.

(** [functools.reduce(f, xs)] where producing an element may raise. *)
Definition reduce {A} (f : A → A → res A) (xs : list (res A)) : res A :=
  match xs with
  | [] => Raise TypeError
  | x :: xs' => x0 <~ x;; for_each (λ acc y, y' <~ y;; f acc y') x0 xs'
  end.

(** ** bert_output_stats *)

Abbreviation Anchors := (gmap string (list float)).

Definition padding_mask (ignore_index : option Z) (label : list Z) : list bool :=
  match ignore_index with
  | Some i => (λ l, negb (l =? i)%Z) <$> label
  | None => (λ _, true) <$> label
  end.

Definition int8 (mask : list bool) : list Z := (λ b : bool, if b then 1%Z else 0%Z) <$> mask.

(** [np.sum(np.array(padding_masks, dtype=np.int8), axis=0)] for the
    masks [m :: ms], which must have one shape; the sum is computed in the
    platform integer. *)
Definition sum_axis0 (m : list bool) (ms : list (list bool)) : res (list Z) :=
  for_each (λ acc m',
              if decide (length m' = length acc)
              then Ok (zip_with Z.add acc (int8 m')) else Raise ValueError)
           (int8 m) ms.

(** The loop [for loss, mask in zip(losses, padding_masks)] that zeroes the
    ignored positions of the loss anchors, in place. *)
Definition mask_losses (anchors : Anchors) (losses : list string)
    (padding_masks : list (list bool)) : res Anchors :=
  for_each (λ (anchors : Anchors) (lm : string * list bool),
              a <~ getitem anchors lm.1;;
              a' <~ zero_unmasked a lm.2;;
              Ok (<[lm.1 := a']> anchors))
           anchors (zip losses padding_masks).

(** The accuracy loop.  [zip] asks its first iterator first: the anchor
    of one prediction beyond the last label is still looked up. *)
Fixpoint count_correct (anchors : Anchors) (predictions : list string)
    (labels : list (list Z)) (padding_masks : list (list bool)) (total : Z) : res Z :=
  match predictions with
  | [] => Ok total
  | p :: predictions' =>
      pred <~ getitem anchors p;;
      match labels, padding_masks with
      | label :: labels', mask :: masks' =>
          equal <~ broadcast2 feq_Z pred label;;
          hits <~ bool_index equal mask;;
          count_correct anchors predictions' labels' masks'
            (total + sum_Z (int8 hits))%Z
      | _, _ => Ok total
      end
  end.

(** Returns the anchors as the in-place masking leaves them, the step
    loss and the step accuracy. *)
Definition bert_output_stats (labels : list (list Z)) (anchors : Anchors)
    (losses predictions : list string) (ignore_index : option Z)
    : res (Anchors * (float * float)) :=
  let padding_masks := padding_mask ignore_index <$> labels in
  match padding_masks with
  | [] =>
      (* Without a label array [num_losses] is the scalar 0 and
         [master_mask] the scalar [False]: no loss is masked, and indexing
         with the mask gives arrays with an empty leading axis, which do
         not divide one another unless the losses are empty. *)
      combined_loss <~ reduce (broadcast2 fadd) ((λ loss, getitem anchors loss) <$> losses);;
      if decide (combined_loss = []) then
        let step_loss := np_mean [] in
        total_correct <~ count_correct anchors predictions labels padding_masks 0;;
        let step_accuracy := fdiv (of_Z total_correct) (of_Z 0) in
        Ok (anchors, (step_loss, step_accuracy))
      else Raise ValueError
  | mask :: masks =>
      num_losses <~ sum_axis0 mask masks;;
      let master_mask := (λ n, negb (n =? 0)%Z) <$> num_losses in
      anchors <~ mask_losses anchors losses padding_masks;;
      combined_loss <~ reduce (broadcast2 fadd) ((λ loss, getitem anchors loss) <$> losses);;
      let num_losses := select master_mask num_losses in
      combined_loss <~ bool_index combined_loss master_mask;;
      combined_loss <~ broadcast2 fdiv combined_loss (of_Z <$> num_losses);;
      let step_loss := np_mean combined_loss in
      total_correct <~ count_correct anchors predictions labels padding_masks 0;;
      let total_attempted := sum_Z num_losses in
      let step_accuracy := fdiv (of_Z total_correct) (of_Z total_attempted) in
      Ok (anchors, (step_loss, step_accuracy))
  end.

(** A [for] loop that raises leaves the state that its last completed
    iteration produced. *)
Fixpoint for_each_reached {S X} (body : S → X → res S) (s : S) (xs : list X) : S :=
  match xs with
  | [] => s
  | x :: xs' =>
      match body s x with
      | Ok s' => for_each_reached body s' xs'
      | Raise _ => s
      end
  end.

(** The anchors as a call of [bert_output_stats] leaves them when it
    raises: the loss arrays zeroed before the failure stay zeroed. *)
Definition masked_anchors (labels : list (list Z)) (anchors : Anchors)
    (losses : list string) (ignore_index : option Z) : Anchors :=
  let padding_masks := padding_mask ignore_index <$> labels in
  match padding_masks with
  | [] => anchors
  | mask :: masks =>
      match sum_axis0 mask masks with
      | Raise _ => anchors
      | Ok _ =>
          for_each_reached
            (λ (anchors : Anchors) (lm : string * list bool),
               a <~ getitem anchors lm.1;;
               a' <~ zero_unmasked a lm.2;;
               Ok (<[lm.1 := a']> anchors))
            anchors (zip losses padding_masks)
      end
  end.

(** [l[i]] for a list. *)
Definition list_getitem {A} (l : list A) (i : nat) : res A :=
  match l !! i with Some x => Ok x | None => Raise IndexError end.

Definition bert_pretraining_stats (labels : list (list Z)) (anchors : Anchors)
    (losses predictions : list string)
    : res (Anchors * (list float * list float)) :=
  l0 <~ list_getitem labels 0;;
  s0 <~ list_getitem losses 0;;
  p0 <~ list_getitem predictions 0;;
  mlm <~ bert_output_stats [l0] anchors [s0] [p0] (Some 0%Z);;
  l1 <~ list_getitem labels 1;;
  s1 <~ list_getitem losses 1;;
  p1 <~ list_getitem predictions 1;;
  nsp <~ bert_output_stats [l1] mlm.1 [s1] [p1] (Some 2%Z);;
  Ok (nsp.1, ([mlm.2.1; nsp.2.1], [mlm.2.2; nsp.2.2])).

(** The anchors as a call of [bert_pretraining_stats] leaves them when
    it raises. *)
Definition pretraining_masked_anchors (labels : list (list Z)) (anchors : Anchors)
    (losses predictions : list string) : Anchors :=
  match list_getitem labels 0, list_getitem losses 0, list_getitem predictions 0 with
  | Ok l0, Ok s0, Ok p0 =>
      match bert_output_stats [l0] anchors [s0] [p0] (Some 0%Z) with
      | Raise _ => masked_anchors [l0] anchors [s0] (Some 0%Z)
      | Ok mlm =>
          match list_getitem labels 1, list_getitem losses 1, list_getitem predictions 1 with
          | Ok l1, Ok s1, Ok p1 => masked_anchors [l1] mlm.1 [s1] (Some 2%Z)
          | _, _, _ => mlm.1
          end
      end
  | _, _, _ => anchors
  end.

(** ** Bounded windows: [collections.deque(maxlen=n)] *)

Record deque (A : Type) := Deque { maxlen : nat; items : list A }.
Arguments Deque {A} _ _.
Arguments maxlen {A} _.
Arguments items {A} _.

(** [deque(maxlen=n)]: [ValueError] for a negative bound. *)
Definition deque_new {A} (n : Z) : res (deque A) :=
  if decide (n < 0)%Z then Raise ValueError else Ok (Deque (Z.to_nat n) []).

(** [d.append(x)]: the item is added on the right, then the window is
    trimmed from the left if it exceeds its bound. *)
Definition deque_append {A} (x : A) (d : deque A) : deque A :=
  let l := items d ++ [x] in
  Deque (maxlen d) (if decide (maxlen d < length l) then drop 1 l else l).

(** [np.average(d)] for a window of floats. *)
Definition average (d : deque float) : float := np_mean (items d).

(** ** Iteration *)

(** The fields of the parsed command line that the modelled code reads. *)
Record Args := {
  task : string;
  epochs : Z;
  continue_training_from_epoch : Z;
  epochs_per_save : Z;
  steps_per_save : Z;
  steps_per_log : Z;
  batch_size : Z;
  gradient_accumulation_factor : Z;
  replication_factor : Z;
  batches_per_step : Z;
  aggregate_metrics_over_steps : option Z;
  report_hw_cycle_count : bool;
  gc_profile : bool;
  no_model_save : bool;
  checkpoint_dir : string;
  low_latency_inference : bool;
}.

Inductive StatsFn := PretrainingStats | OutputStats.

(** The loss and accuracy windows: the attributes created by [__init__]
    depend on the task. *)
Inductive Windows :=
  | PretrainingWindows (mlm_losses nsp_losses mlm_accuracies nsp_accuracies : deque float)
  | SingleWindows (losses accuracies : deque float).

Record Iteration := {
  it_start_epoch : Z;
  count : Z;
  epoch : Z;
  it_epochs : Z;
  it_epochs_per_save : Z;
  it_steps_per_log : Z;
  samples_per_step : Z;
  steps_per_epoch : Z;
  total_steps : Z;
  it_task : string;
  learning_rate : float;
  durations : deque float;
  cycles : deque Z;
  windows : Windows;
  stats_fn : StatsFn;
}.

Definition PRETRAINING : string := "PRETRAINING".
Definition SQUAD : string := "SQUAD".

(** [Iteration.__init__]. *)
Definition Iteration_init (args : Args) (batches_per_step steps_per_epoch : Z)
    (recording_steps : option Z) : res Iteration :=
  let start_epoch := continue_training_from_epoch args in
  let recording_steps :=
    match recording_steps with Some n => n | None => steps_per_epoch end in
  durations <~ deque_new recording_steps;;
  cycles <~ deque_new recording_steps;;
  ws <~ (if decide (task args = PRETRAINING) then
           a <~ deque_new recording_steps;;
           b <~ deque_new recording_steps;;
           c <~ deque_new recording_steps;;
           d <~ deque_new recording_steps;;
           Ok (PretrainingWindows a b c d, PretrainingStats)
         else
           a <~ deque_new recording_steps;;
           b <~ deque_new recording_steps;;
           Ok (SingleWindows a b, OutputStats));;
  Ok {| it_start_epoch := start_epoch;
        count := start_epoch * steps_per_epoch;
        epoch := 0;
        it_epochs := epochs args;
        it_epochs_per_save := epochs_per_save args;
        it_steps_per_log := steps_per_log args;
        samples_per_step :=
          batches_per_step * gradient_accumulation_factor args
          * replication_factor args * batch_size args;
        steps_per_epoch := steps_per_epoch;
        total_steps := steps_per_epoch * epochs args;
        it_task := task args;
        learning_rate := fzero;
        durations := durations;
        cycles := cycles;
        windows := ws.1;
        stats_fn := ws.2 |}%Z.

(** Attribute assignments. *)
Definition set_count (c : Z) (i : Iteration) : Iteration :=
  {| it_start_epoch := it_start_epoch i; count := c; epoch := epoch i;
     it_epochs := it_epochs i; it_epochs_per_save := it_epochs_per_save i;
     it_steps_per_log := it_steps_per_log i; samples_per_step := samples_per_step i;
     steps_per_epoch := steps_per_epoch i; total_steps := total_steps i;
     it_task := it_task i; learning_rate := learning_rate i;
     durations := durations i; cycles := cycles i; windows := windows i;
     stats_fn := stats_fn i |}.

Definition set_epoch (e : Z) (i : Iteration) : Iteration :=
  {| it_start_epoch := it_start_epoch i; count := count i; epoch := e;
     it_epochs := it_epochs i; it_epochs_per_save := it_epochs_per_save i;
     it_steps_per_log := it_steps_per_log i; samples_per_step := samples_per_step i;
     steps_per_epoch := steps_per_epoch i; total_steps := total_steps i;
     it_task := it_task i; learning_rate := learning_rate i;
     durations := durations i; cycles := cycles i; windows := windows i;
     stats_fn := stats_fn i |}.

Definition set_durations (d : deque float) (i : Iteration) : Iteration :=
  {| it_start_epoch := it_start_epoch i; count := count i; epoch := epoch i;
     it_epochs := it_epochs i; it_epochs_per_save := it_epochs_per_save i;
     it_steps_per_log := it_steps_per_log i; samples_per_step := samples_per_step i;
     steps_per_epoch := steps_per_epoch i; total_steps := total_steps i;
     it_task := it_task i; learning_rate := learning_rate i;
     durations := d; cycles := cycles i; windows := windows i;
     stats_fn := stats_fn i |}.

Definition set_cycles (d : deque Z) (i : Iteration) : Iteration :=
  {| it_start_epoch := it_start_epoch i; count := count i; epoch := epoch i;
     it_epochs := it_epochs i; it_epochs_per_save := it_epochs_per_save i;
     it_steps_per_log := it_steps_per_log i; samples_per_step := samples_per_step i;
     steps_per_epoch := steps_per_epoch i; total_steps := total_steps i;
     it_task := it_task i; learning_rate := learning_rate i;
     durations := durations i; cycles := d; windows := windows i;
     stats_fn := stats_fn i |}.

Definition set_windows (w : Windows) (i : Iteration) : Iteration :=
  {| it_start_epoch := it_start_epoch i; count := count i; epoch := epoch i;
     it_epochs := it_epochs i; it_epochs_per_save := it_epochs_per_save i;
     it_steps_per_log := it_steps_per_log i; samples_per_step := samples_per_step i;
     steps_per_epoch := steps_per_epoch i; total_steps := total_steps i;
     it_task := it_task i; learning_rate := learning_rate i;
     durations := durations i; cycles := cycles i; windows := w;
     stats_fn := stats_fn i |}.

(** The [throughput] property: [np.divide(samples_per_step, durations)]. *)
Definition throughput (i : Iteration) : list float :=
  fdiv (of_Z (samples_per_step i)) <$> items (durations i).

(** ** The loop and its environment *)

(** The line logged by [report_stats], before formatting. *)
Record ReportLine := {
  r_iteration : Z;
  r_epoch : float;
  r_epochs : Z;
  r_losses : list float;
  r_accuracies : list float;
  r_learning_rate : float;
  r_duration : float;
  r_throughput : float;
  r_cycles : option float;
}.

(** One batch of the data pipeline, with what the environment answers
    while it is processed: the anchors as [session.run] fills them, the
    measured duration and the cycle count. *)
Record Batch := {
  data : gmap string (list Z);
  engine_output : Anchors;
  duration : float;
  cycle_count : Z;
}.

(** What the statistics function hands back to [add_stats]. *)
Inductive Stats :=
  | PairStats (loss accuracy : list float)
  | ScalarStats (loss accuracy : float).

(** [os.path.join(a, b)]. *)
Definition path_join (a b : string) : string :=
  if decide (String.get 0 b = Some "/"%char) then b
  else if decide (a = "") then b
  else if decide (String.get (String.length a - 1) a = Some "/"%char) then a +:+ b
  else a +:+ "/" +:+ b.

(** [range(a, b)]. *)
Definition py_range (a b : Z) : list Z := seqZ a (b - a).

(** [np.any([np.any(label) for label in labels_data])]. *)
Definition np_any (labels_data : list (list Z)) : bool :=
  existsb (existsb (λ l, negb (l =? 0)%Z)) labels_data.

(** A list comprehension whose element expression may raise. *)
Fixpoint comprehension {X Y} (f : X → res Y) (xs : list X) : res (list Y) :=
  match xs with
  | [] => Ok []
  | x :: xs' => y <~ f x;; ys <~ comprehension f xs';; Ok (y :: ys)
  end.

Section Loop.

(** [bert_optimizer.ScheduledOptimizerFactory] is an external collaborator:
    its state, the query [should_update] and [update_and_create], which
    returns the optimizer to push to the session, are parameters. *)
Variable OptimizerFactory Optimizer : Type.
Variable should_update : OptimizerFactory → Iteration → bool.
Variable update_and_create : OptimizerFactory → Iteration → OptimizerFactory * Optimizer.

(** The mutable objects shared by the loop, and the calls received by the
    writer ([scalars]), the logger ([reports]) and the session ([runs],
    [optimizers], [saved]). *)
Record State := {
  iteration : Iteration;
  anchors : Anchors;
  factory : OptimizerFactory;
  scalars : list (string * float * Z);
  reports : list ReportLine;
  runs : list (gmap string (list Z));
  optimizers : list Optimizer;
  saved : list (string * Z);
}.

Definition set_iteration (i : Iteration) (s : State) : State :=
  {| iteration := i; anchors := anchors s; factory := factory s; scalars := scalars s;
     reports := reports s; runs := runs s; optimizers := optimizers s; saved := saved s |}.

Definition set_anchors (a : Anchors) (s : State) : State :=
  {| iteration := iteration s; anchors := a; factory := factory s; scalars := scalars s;
     reports := reports s; runs := runs s; optimizers := optimizers s; saved := saved s |}.

Definition add_scalar (name : string) (value : float) (step : Z) (s : State) : State :=
  {| iteration := iteration s; anchors := anchors s; factory := factory s;
     scalars := scalars s ++ [(name, value, step)];
     reports := reports s; runs := runs s; optimizers := optimizers s; saved := saved s |}.

Definition logger_info (line : ReportLine) (s : State) : State :=
  {| iteration := iteration s; anchors := anchors s; factory := factory s;
     scalars := scalars s; reports := reports s ++ [line];
     runs := runs s; optimizers := optimizers s; saved := saved s |}.

(** [session.run(stepio)]: the engine consumes the batch and fills the
    anchor buffers. *)
Definition session_run (b : Batch) (s : State) : State :=
  {| iteration := iteration s; anchors := engine_output b; factory := factory s;
     scalars := scalars s; reports := reports s; runs := runs s ++ [data b];
     optimizers := optimizers s; saved := saved s |}.

(** [session.updateOptimizer(optimizer); session.optimizerFromHost()]. *)
Definition push_optimizer (f : OptimizerFactory) (o : Optimizer) (s : State) : State :=
  {| iteration := iteration s; anchors := anchors s; factory := f;
     scalars := scalars s; reports := reports s; runs := runs s;
     optimizers := optimizers s ++ [o]; saved := saved s |}.

(** [session.modelToHost(save_path)] and [utils.save_model_statistics]. *)
Definition model_to_host (path : string) (step : Z) (s : State) : State :=
  {| iteration := iteration s; anchors := anchors s; factory := factory s;
     scalars := scalars s; reports := reports s; runs := runs s;
     optimizers := optimizers s; saved := saved s ++ [(path, step)] |}.

(** State and exceptions: a statement returns its outcome and the state it
    leaves; an exception keeps the state reached when it was raised. *)
Definition M (A : Type) : Type := State → res A * State.

Definition ret {A} (a : A) : M A := λ s, (Ok a, s).
Definition raise {A} (e : exn) : M A := λ s, (Raise e, s).
Definition bind {A B} (m : M A) (f : A → M B) : M B :=
  λ s, match m s with
       | (Ok a, s') => f a s'
       | (Raise e, s') => (Raise e, s')
       end.
Definition lift {A} (r : res A) : M A := λ s, (r, s).
Definition get : M State := λ s, (Ok s, s).
Definition modify (f : State → State) : M unit := λ s, (Ok tt, f s).

Notation "x <- m ;; k" := (bind m (λ x, k))
  (at level 100, m at next level, right associativity, only parsing).

Fixpoint for_M {X} (body : X → M unit) (xs : list X) : M unit :=
  match xs with
  | [] => ret tt
  | x :: xs' => _ <- body x;; for_M body xs'
  end.

Definition modify_iteration (f : Iteration → Iteration) : M unit :=
  modify (λ s, set_iteration (f (iteration s)) s).

(** The call of [self.stats_fn]; the anchors are masked in place, also
    when the call raises. *)
Definition call_stats_fn (labels : list (list Z)) (losses predictions : list string)
    : M Stats :=
  s <- get;;
  match stats_fn (iteration s) with
  | PretrainingStats =>
      match bert_pretraining_stats labels (anchors s) losses predictions with
      | Ok r =>
          _ <- modify (set_anchors r.1);;
          ret (PairStats r.2.1 r.2.2)
      | Raise e =>
          _ <- modify (set_anchors
                         (pretraining_masked_anchors labels (anchors s) losses predictions));;
          raise e
      end
  | OutputStats =>
      match bert_output_stats labels (anchors s) losses predictions None with
      | Ok r =>
          _ <- modify (set_anchors r.1);;
          ret (ScalarStats r.2.1 r.2.2)
      | Raise e =>
          _ <- modify (set_anchors (masked_anchors labels (anchors s) losses None));;
          raise e
      end
  end.

(** [Iteration.add_stats]. *)
Definition add_stats (duration : float) (hw_cycles : option Z)
    (labels : list (list Z)) (losses predictions : list string) : M unit :=
  _ <- modify_iteration (λ i, set_durations (deque_append duration (durations i)) i);;
  _ <- (match hw_cycles with
        | Some c =>
            if decide (c = 0%Z) then ret tt
            else modify_iteration (λ i, set_cycles (deque_append c (cycles i)) i)
        | None => ret tt
        end);;
  stats <- call_stats_fn labels losses predictions;;
  s <- get;;
  let i := iteration s in
  _ <- modify (add_scalar "defaultLearningRate" (learning_rate i) (count i));;
  if decide (it_task i = PRETRAINING) then
    match windows i with
    | PretrainingWindows ml nl ma na =>
        match stats with
        | PairStats loss accuracy =>
            l0 <- lift (list_getitem loss 0);;
            let ml := deque_append l0 ml in
            _ <- modify_iteration (set_windows (PretrainingWindows ml nl ma na));;
            l1 <- lift (list_getitem loss 1);;
            let nl := deque_append l1 nl in
            _ <- modify_iteration (set_windows (PretrainingWindows ml nl ma na));;
            a0 <- lift (list_getitem accuracy 0);;
            let ma := deque_append a0 ma in
            _ <- modify_iteration (set_windows (PretrainingWindows ml nl ma na));;
            a1 <- lift (list_getitem accuracy 1);;
            let na := deque_append a1 na in
            _ <- modify_iteration (set_windows (PretrainingWindows ml nl ma na));;
            _ <- modify (add_scalar "loss/MLM" (average ml) (count i));;
            _ <- modify (add_scalar "loss/NSP" (average nl) (count i));;
            _ <- modify (add_scalar "accuracy/MLM" (average ma) (count i));;
            modify (add_scalar "accuracy/NSP" (average na) (count i))
        | ScalarStats _ _ => raise IndexError
        end
    | SingleWindows _ _ => raise AttributeError
    end
  else
    match windows i with
    | SingleWindows ls acs =>
        match stats with
        | ScalarStats loss accuracy =>
            let ls := deque_append loss ls in
            _ <- modify_iteration (set_windows (SingleWindows ls acs));;
            let acs := deque_append accuracy acs in
            _ <- modify_iteration (set_windows (SingleWindows ls acs));;
            _ <- modify (add_scalar "loss" (average ls) (count i));;
            modify (add_scalar "accuracy" (average acs) (count i))
        | PairStats _ _ => raise TypeError
        end
    | PretrainingWindows _ _ _ _ => raise AttributeError
    end.

(** [Iteration.report_stats]. *)
Definition report_stats : M unit :=
  s <- get;;
  let i := iteration s in
  progress <- lift (py_truediv (count i) (steps_per_epoch i));;
  averages <-
    (if decide (it_task i = PRETRAINING) then
       match windows i with
       | PretrainingWindows ml nl ma na =>
           ret ([average ml; average nl], [average ma; average na])
       | SingleWindows _ _ => raise AttributeError
       end
     else
       match windows i with
       | SingleWindows ls acs => ret ([average ls], [average acs])
       | PretrainingWindows _ _ _ _ => raise AttributeError
       end);;
  modify (logger_info
    {| r_iteration := count i;
       r_epoch := progress;
       r_epochs := it_epochs i;
       r_losses := averages.1;
       r_accuracies := averages.2;
       r_learning_rate := learning_rate i;
       r_duration := average (durations i);
       r_throughput := np_mean (throughput i);
       r_cycles := match items (cycles i) with
                   | [] => None
                   | _ => Some (np_mean (of_Z <$> items (cycles i)))
                   end |}).

(** [bert_process_data]. *)
Definition bert_process_data (args : Args) (labels : list string) (b : Batch)
    (losses predictions : list string) : M unit :=
  labels_data <- lift (comprehension (getitem (data b)) labels);;
  if negb (np_any labels_data) then ret tt
  else
    _ <- modify (session_run b);;
    let hw_cycles := if report_hw_cycle_count args then Some (cycle_count b) else None in
    if gc_profile args then raise SystemExit
    else
      _ <- add_stats (duration b) hw_cycles labels_data losses predictions;;
      s <- get;;
      r <- lift (py_mod (count (iteration s)) (it_steps_per_log (iteration s)));;
      _ <- (if decide (r = 0%Z) then report_stats else ret tt);;
      s <- get;;
      _ <- (if should_update (factory s) (iteration s) then
              let fo := update_and_create (factory s) (iteration s) in
              modify (push_optimizer fo.1 fo.2)
            else ret tt);;
      modify_iteration (λ i, set_count (count i + 1)%Z i).

(** The file written by [save_model_and_stats]. *)
Definition save_path (args : Args) (step : Z) (epoch : option Z)
    (step_in_filename : bool) : string :=
  let save_file := "model" in
  let save_file :=
    match epoch with Some e => save_file +:+ "_" +:+ pretty e | None => save_file end in
  let save_file :=
    if step_in_filename then save_file +:+ ":" +:+ pretty step else save_file in
  let save_file := save_file +:+ ".onnx" in
  path_join (checkpoint_dir args) save_file.

(** [save_model_and_stats]. *)
Definition save_model_and_stats (args : Args) (step : Z) (epoch : option Z)
    (step_in_filename : bool) : M unit :=
  if no_model_save args then ret tt
  else modify (model_to_host (save_path args step epoch step_in_filename) step).

(** The body of [for data in dataset]: one batch, then the save that the
    step count may trigger. *)
Definition batch_turn (args : Args) (labels predictions losses : list string) (b : Batch)
    : M unit :=
  _ <- bert_process_data args labels b losses predictions;;
  s <- get;;
  let i := iteration s in
  if decide (0 < steps_per_save args)%Z then
    r <- lift (py_mod (count i) (steps_per_save args));;
    if decide (r = 0%Z)
    then save_model_and_stats args (count i) (Some (epoch i)) true
    else ret tt
  else ret tt.

(** The body of [for iteration.epoch in range(...)]: the batches of the
    epoch, then the save that the epoch index may trigger. *)
Definition epoch_turn (args : Args) (dataset : Z → list Batch)
    (labels predictions losses : list string) (e : Z) : M unit :=
  _ <- modify_iteration (set_epoch e);;
  _ <- for_M (batch_turn args labels predictions losses) (dataset e);;
  s <- get;;
  let i := iteration s in
  if decide (0 < epochs_per_save args)%Z then
    r <- lift (py_mod (epoch i) (it_epochs_per_save i));;
    if decide (r = 0%Z)
    then save_model_and_stats args (count i) (Some (epoch i + 1)%Z) false
    else ret tt
  else ret tt.

(** [bert_train_loop]; [dataset e] is what iterating the dataset yields
    during epoch [e]. *)
Definition bert_train_loop (args : Args) (dataset : Z → list Batch)
    (labels predictions losses : list string) : M unit :=
  s <- get;;
  _ <- save_model_and_stats args (count (iteration s)) (Some (epoch (iteration s))) false;;
  _ <- for_M (epoch_turn args dataset labels predictions losses)
         (py_range (it_start_epoch (iteration s)) (epochs args));;
  s <- get;;
  save_model_and_stats args (count (iteration s)) None false.

End Loop.

Arguments iteration {_ _} _.
Arguments anchors {_ _} _.
Arguments factory {_ _} _.
Arguments scalars {_ _} _.
Arguments reports {_ _} _.
Arguments runs {_ _} _.
Arguments optimizers {_ _} _.
Arguments saved {_ _} _.
Arguments set_iteration {_ _} _ _.
Arguments add_stats {_ _} _ _ _ _ _ _.
Arguments report_stats {_ _} _.
Arguments bert_process_data {_ _} _ _ _ _ _ _ _ _.
Arguments save_model_and_stats {_ _} _ _ _ _ _.
Arguments batch_turn {_ _} _ _ _ _ _ _ _ _.
Arguments epoch_turn {_ _} _ _ _ _ _ _ _ _ _.
Arguments bert_train_loop {_ _} _ _ _ _ _ _ _ _.

(** ** compute_latency *)

(** The timestamp dictionaries, in insertion order. *)
Abbreviation Timings := (list (string * list Q)).

(** [d[k]] on an insertion-ordered dict. *)
Fixpoint timings_getitem (d : Timings) (k : string) : res (list Q) :=
  match d with
  | [] => Raise KeyError
  | (k', v) :: d' => if decide (k' = k) then Ok v else timings_getitem d' k
  end.

(** [v[-1]]. *)
Definition last_item (v : list Q) : res Q :=
  match last v with Some x => Ok x | None => Raise IndexError end.

(** [min(d, key=lambda k: d[k][-1])] and the same with [max]: the first
    key, in iteration order, whose last timestamp is the least (greatest). *)
Fixpoint arg_best (better : Q → Q → bool) (best : string * Q) (d : Timings)
    : res string :=
  match d with
  | [] => Ok best.1
  | (k, v) :: d' =>
      t <~ last_item v;;
      arg_best better (if better t best.2 then (k, t) else best) d'
  end.

Definition Qlt_bool (x y : Q) : bool := negb (Qle_bool y x).

Definition get_timing_start_anchor (start_times : Timings) : res string :=
  match start_times with
  | [] => Raise ValueError
  | (k, v) :: d => t <~ last_item v;; arg_best Qlt_bool (k, t) d
  end.

Definition get_timing_end_anchor (end_times : Timings) : res string :=
  match end_times with
  | [] => Raise ValueError
  | (k, v) :: d => t <~ last_item v;; arg_best (λ x y, Qlt_bool y x) (k, t) d
  end.

(** [min(rtts)] and [max(rtts)]. *)
Definition py_best (better : Q → Q → bool) (l : list Q) : res Q :=
  match l with
  | [] => Raise ValueError
  | x :: l' => Ok (foldl (λ best y, if better y best then y else best) x l')
  end.

Definition Qsum (l : list Q) : Q := foldl Qplus 0%Q l.

(** The round-trip deltas between the two anchors most separated in time. *)
Definition round_trips (start_times end_times : Timings) : res (list Q) :=
  start_id <~ get_timing_start_anchor start_times;;
  end_id <~ get_timing_end_anchor end_times;;
  starts <~ timings_getitem start_times start_id;;
  ends <~ timings_getitem end_times end_id;;
  Ok (zip_with (λ s e, (e - s)%Q) starts ends).

(** Python's [x / n] for a float and an integer. *)
Definition float_div_int (x : Q) (n : Z) : res Q :=
  if decide (n = 0%Z) then Raise ZeroDivisionError else Ok (x / inject_Z n)%Q.

Definition compute_latency (args : Args) (start_times end_times : Timings)
    : res (option Q * option Q * option Q) :=
  if decide (low_latency_inference args = true ∧ task args = SQUAD) then
    rtts <~ round_trips start_times end_times;;
    if decide (Z.of_nat (length rtts) ≠ batches_per_step args) then Raise RuntimeError
    else
      mean_latency <~ float_div_int (Qsum rtts) (batches_per_step args);;
      min_latency <~ py_best Qlt_bool rtts;;
      max_latency <~ py_best (λ x y, Qlt_bool y x) rtts;;
      Ok (Some mean_latency, Some min_latency, Some max_latency)
  else Ok (None, None, None).

(** ** Vocabulary used to state the properties of the loop *)

(** The last [n] items of a list. *)
Definition lastn {A} (n : nat) (l : list A) : list A := drop (length l - n) l.

(** The invariant that [collections.deque] maintains. *)
Definition deque_wf {A} (d : deque A) : Prop := length (items d) ≤ maxlen d.

Definition window_ok {A} (cap : nat) (d : deque A) : Prop :=
  maxlen d = cap ∧ length (items d) ≤ cap.

Definition windows_ok (cap : nat) (w : Windows) : Prop :=
  match w with
  | PretrainingWindows a b c d =>
      window_ok cap a ∧ window_ok cap b ∧ window_ok cap c ∧ window_ok cap d
  | SingleWindows a b => window_ok cap a ∧ window_ok cap b
  end.

(** Every rolling window of the object has capacity [cap] and holds at
    most [cap] entries. *)
Definition windows_bounded (cap : nat) (i : Iteration) : Prop :=
  window_ok cap (durations i) ∧ window_ok cap (cycles i) ∧ windows_ok cap (windows i).

(** The window [d'] holds the last [cap] items of what [d] held followed
    by some later items [xs]: nothing but the oldest entries was dropped. *)
Definition evolves {A} (cap : nat) (d d' : deque A) : Prop :=
  ∃ xs, items d' = lastn cap (items d ++ xs).

Definition windows_evolve (cap : nat) (w w' : Windows) : Prop :=
  match w, w' with
  | PretrainingWindows a b c d, PretrainingWindows a' b' c' d' =>
      evolves cap a a' ∧ evolves cap b b' ∧ evolves cap c c' ∧ evolves cap d d'
  | SingleWindows a b, SingleWindows a' b' => evolves cap a a' ∧ evolves cap b b'
  | _, _ => False
  end.

Definition iteration_evolves (cap : nat) (i i' : Iteration) : Prop :=
  evolves cap (durations i) (durations i') ∧ evolves cap (cycles i) (cycles i') ∧
  windows_evolve cap (windows i) (windows i').

(** The fields of the object that no statistic touches. *)
Definition same_settings (i i' : Iteration) : Prop :=
  it_start_epoch i' = it_start_epoch i ∧ epoch i' = epoch i ∧
  it_epochs i' = it_epochs i ∧ it_epochs_per_save i' = it_epochs_per_save i ∧
  it_steps_per_log i' = it_steps_per_log i ∧ samples_per_step i' = samples_per_step i ∧
  steps_per_epoch i' = steps_per_epoch i ∧ total_steps i' = total_steps i ∧
  it_task i' = it_task i ∧ learning_rate i' = learning_rate i ∧
  stats_fn i' = stats_fn i.

(** The label arrays of a batch, as [bert_process_data] reads them. *)
Definition batch_labels (labels : list string) (b : Batch) : res (list (list Z)) :=
  comprehension (getitem (data b)) labels.

(** The batch is not skipped: some label entry is not zero. *)
Definition processed (labels : list string) (b : Batch) : bool :=
  match batch_labels labels b with
  | Ok labels_data => np_any labels_data
  | Raise _ => false
  end.

(** The arguments of one [add_stats] call. *)
Record StatsCall := {
  c_duration : float;
  c_hw_cycles : option Z;
  c_labels : list (list Z);
  c_losses : list string;
  c_predictions : list string;
}.

(** The cycle count that a call adds to the cycle window: [if hw_cycles:]
    lets neither [None] nor 0 through. *)
Definition counted_cycles (c : StatsCall) : option Z :=
  match c_hw_cycles c with
  | Some n => if decide (n = 0%Z) then None else Some n
  | None => None
  end.

(** What [self.stats_fn] hands back to one call, with the anchors as its
    in-place masking leaves them. *)
Definition run_stats_fn (fn : StatsFn) (labels : list (list Z)) (anchors : Anchors)
    (losses predictions : list string) : res (Anchors * Stats) :=
  match fn with
  | PretrainingStats =>
      r <~ bert_pretraining_stats labels anchors losses predictions;;
      Ok (r.1, PairStats r.2.1 r.2.2)
  | OutputStats =>
      r <~ bert_output_stats labels anchors losses predictions None;;
      Ok (r.1, ScalarStats r.2.1 r.2.2)
  end.

(** What it hands back to the successive calls of a sequence, each call
    reading the anchors as the call before left them. *)
Fixpoint stats_returned (fn : StatsFn) (anchors : Anchors) (calls : list StatsCall)
    : res (list Stats) :=
  match calls with
  | [] => Ok []
  | c :: calls' =>
      r <~ run_stats_fn fn (c_labels c) anchors (c_losses c) (c_predictions c);;
      rest <~ stats_returned fn r.1 calls';;
      Ok (r.2 :: rest)
  end.

(** The statistics of a SQuAD step, and of a pretraining step (MLM and
    NSP losses, then MLM and NSP accuracies). *)
Definition scalar_stats (v : float * float) : Stats := ScalarStats v.1 v.2.

Definition pair_stats (v : (float * float) * (float * float)) : Stats :=
  PairStats [v.1.1; v.1.2] [v.2.1; v.2.2].

(** The step counts after each batch of a pass, from the count [c]. *)
Fixpoint counts_after (c : Z) (bs : list bool) : list Z :=
  match bs with
  | [] => []
  | b :: bs' =>
      let c' := if b then (c + 1)%Z else c in
      c' :: counts_after c' bs'
  end.

Definition count_after (c : Z) (bs : list bool) : Z :=
  default c (last (counts_after c bs)).

Definition save_due (period c : Z) : bool :=
  bool_decide (0 < period)%Z && bool_decide (c `mod` period = 0)%Z.

(** The saves expected during epoch [e]: after each batch that leaves the
    step count at a multiple of [steps_per_save]. *)
Definition step_saves (args : Args) (e c : Z) (bs : list bool) : list (string * Z) :=
  (λ c', (save_path args c' (Some e) true, c'))
    <$> filter (λ c', save_due (steps_per_save args) c' = true) (counts_after c bs).

(** The save expected after a batch of epoch [e] that leaves the count at [c]. *)
Definition save_now (args : Args) (e c : Z) : list (string * Z) :=
  if save_due (steps_per_save args) c then [(save_path args c (Some e) true, c)] else [].

(** The save expected at the end of epoch [e], entered with count [c]. *)
Definition epoch_save (args : Args) (e c : Z) : list (string * Z) :=
  if save_due (epochs_per_save args) e
  then [(save_path args c (Some (e + 1)%Z) false, c)] else [].

(** The periodic saves of the epochs [es], starting at count [c], and the
    final count. *)
Fixpoint periodic_saves (args : Args) (labels : list string) (dataset : Z → list Batch)
    (c : Z) (es : list Z) : list (string * Z) * Z :=
  match es with
  | [] => ([], c)
  | e :: es' =>
      let bs := processed labels <$> dataset e in
      let c' := count_after c bs in
      let rest := periodic_saves args labels dataset c' es' in
      (step_saves args e c bs ++ epoch_save args e c' ++ rest.1, rest.2)
  end.

(** *** Per-position view of the statistics

    A cell is the (label, prediction, loss) triple of one objective at one
    position; a row lists the cells of one objective, a column the cells
    of all objectives at one position. *)

Record Cell := { label : Z; prediction : float; loss : float }.

(** The columns of [n] positions, from the rows of cells of each
    objective: column [p] lists the cells at position [p], objective by
    objective. *)
Definition snoc_column {A} (cols : list (list A)) (row : list A) : list (list A) :=
  zip_with (λ col x, col ++ [x]) cols row.

Definition columns {A} (n : nat) (rows : list (list A)) : list (list A) :=
  foldl snoc_column (replicate n []) rows.

(** The objective's mask is true at the cell. *)
Definition unmasked (ignore_index : option Z) (c : Cell) : bool :=
  match ignore_index with
  | Some i => negb (label c =? i)%Z
  | None => true
  end.

(** The number of objectives whose mask is true at the position. *)
Definition divisor (ignore_index : option Z) (col : list Cell) : Z :=
  Z.of_nat (length (filter (λ c, unmasked ignore_index c = true) col)).

Definition masked_loss (ignore_index : option Z) (c : Cell) : float :=
  if unmasked ignore_index c then loss c else fzero.

(** The sum of a non-empty list, in order. *)
Definition fsum1 (l : list float) : float :=
  match l with [] => fzero | x :: xs => foldl fadd x xs end.

(** The summed masked loss of a position. *)
Definition loss_sum (ignore_index : option Z) (col : list Cell) : float :=
  fsum1 (masked_loss ignore_index <$> col).

(** The mean loss of a position over its unmasked objectives. *)
Definition position_loss (ignore_index : option Z) (col : list Cell) : float :=
  fdiv (fsum1 (masked_loss ignore_index <$> col)) (of_Z (divisor ignore_index col)).

(** The positions where some objective's mask is true. *)
Definition retained (ignore_index : option Z) (cols : list (list Cell)) : list (list Cell) :=
  filter (λ col, existsb (unmasked ignore_index) col = true) cols.

Definition mean_position_loss (ignore_index : option Z) (cols : list (list Cell)) : float :=
  np_mean (position_loss ignore_index <$> retained ignore_index cols).

(** The prediction equals the label. *)
Definition hit (c : Cell) : bool := feq_Z (prediction c) (label c).

Definition correct (ignore_index : option Z) (c : Cell) : bool :=
  unmasked ignore_index c && feq_Z (prediction c) (label c).

(** Correct unmasked cells over unmasked cells. *)
Definition masked_accuracy (ignore_index : option Z) (cols : list (list Cell)) : float :=
  fdiv (of_nat (length (filter (λ c, correct ignore_index c = true) (concat cols))))
       (of_nat (length (filter (λ c, unmasked ignore_index c = true) (concat cols)))).

(** The anchors hold, under the given names, the loss and prediction
    arrays of the objectives. *)
Definition anchors_hold (anchors : Anchors) (losses predictions : list string)
    (rows : list (list Cell)) : Prop :=
  Forall2 (λ key row, anchors !! key = Some (loss <$> row)) losses rows ∧
  Forall2 (λ key row, anchors !! key = Some (prediction <$> row)) predictions rows.

(** The timestamp dictionaries as the callbacks leave them: some anchor
    was seen, and every anchor seen has at least one timestamp. *)
Definition timings_recorded (d : Timings) : Prop :=
  d ≠ [] ∧ Forall (λ kv, kv.2 ≠ []) d.

Section Calculus.

Context {OptimizerFactory Optimizer : Type}.

(** [post m s Q]: running [m] from [s] ends in an outcome and a state
    related by [Q]. *)
Definition post {A} (m : M OptimizerFactory Optimizer A)
    (s : State OptimizerFactory Optimizer)
    (Q : res A → State OptimizerFactory Optimizer → Prop) : Prop :=
  Q (m s).1 (m s).2.

Definition add_stats_calls (calls : list StatsCall) : M OptimizerFactory Optimizer unit :=
  for_M _ _ (λ c, add_stats (c_duration c) (c_hw_cycles c) (c_labels c)
                      (c_losses c) (c_predictions c)) calls.

End Calculus.

End Bert.

(** * bert_tf_loader.py: reading a TensorFlow file *)

Module TfCheckpoint.
Import TfLoader.

Section LoadInitializers.

Context {elt : Type}.
Variable zero : elt.
Variable cast : DType → DType → elt → elt.

(** A TensorFlow file is seen through its reader: the variables of a
    checkpoint in the order of [tf.train.list_variables], or the nodes of
    a frozen graph in the order of [graph_def.node], each with the array
    the reader yields for it. *)

(** [tf.train.load_variable(tf_path, name)].  A name that the checkpoint
    lacks is an error of the reader, rendered as [KeyError];
    [load_tf_ckpt_data] only asks for names that were listed. *)
Fixpoint load_variable (ckpt : list (string * ndarray elt)) (name : string)
    : res (ndarray elt) :=
  match ckpt with
  | [] => Raise KeyError
  | (n, a) :: ckpt' => if decide (n = name) then Ok a else load_variable ckpt' name
  end.

(** [load_tf_ckpt_data], with TensorFlow importable. *)
Definition load_tf_ckpt_data (ckpt : list (string * ndarray elt))
    (mapping : gmap string string) : res (list string * list (ndarray elt)) :=
  let map_names := filter (λ name, is_Some (mapping !! name)) ckpt.*1 in
  load_data <~ Bert.comprehension (load_variable ckpt) map_names;;
  Ok (map_names, load_data).

(** [load_tf_frozen_data], with TensorFlow importable. *)
Definition load_tf_frozen_data (nodes : list (string * ndarray elt))
    (mapping : gmap string string) : list string * list (ndarray elt) :=
  let map_names := filter (λ name, is_Some (mapping !! name)) nodes.*1 in
  let load_data := (filter (λ n, is_Some (mapping !! n.1)) nodes).*2 in
  (map_names, load_data).

(** [load_initializers_from_tf]. *)
Definition load_initializers_from_tf (file : list (string * ndarray elt))
    (is_checkpoint : bool) (config : BertConfig)
    : res (gmap string (ndarray (option elt))) :=
  let mapping := get_tf_mapping config in
  nd <~ (if is_checkpoint then load_tf_ckpt_data file mapping
         else Ok (load_tf_frozen_data file mapping));;
  generate_initializers zero cast mapping config nd.1 nd.2.

End LoadInitializers.

(** ** Vocabulary *)

(** The character occurs in the string. *)
Fixpoint occurs (c : Ascii.ascii) (s : string) : bool :=
  match s with
  | EmptyString => false
  | String c' s' => bool_decide (c' = c) || occurs c s'
  end.

(** The checkpoint names of the three attention kernels of layer [i], and
    the buffer they are gathered in. *)
Definition kernel_name (i : nat) (p : part) : string :=
  ("bert/encoder/layer_" +:+ pretty i) +:+ ("/attention/self/" +:+ part_name p +:+ "/kernel").

Definition qkv_target (i : nat) : string := ("Layer" +:+ pretty i) +:+ "/Attention/QKV".

(** The entries of the mapping that do not depend on the layer. *)
Definition embedding_mapping : list (string * string) :=
  [ ("bert/embeddings/word_embeddings", "Embedding/Embedding_Dict");
    ("bert/embeddings/position_embeddings", "Embedding/Positional_Dict");
    ("bert/embeddings/token_type_embeddings", "Embedding/Segment_Dict");
    ("bert/embeddings/LayerNorm/gamma", "Embedding/Gamma");
    ("bert/embeddings/LayerNorm/beta", "Embedding/Beta");
    ("cls/predictions/transform/dense/kernel", "CLS/LMPredictionW");
    ("cls/predictions/transform/dense/bias", "CLS/LMPredictionB");
    ("cls/predictions/transform/LayerNorm/gamma", "CLS/Gamma");
    ("cls/predictions/transform/LayerNorm/beta", "CLS/Beta") ].

(** The twelve entries of a layer: what follows the layer's prefix in the
    checkpoint name and in the target. *)
Definition layer_suffixes : list (string * string) :=
  [ ("/attention/self/query/kernel", "/Attention/QKV");
    ("/attention/self/key/kernel", "/Attention/QKV");
    ("/attention/self/value/kernel", "/Attention/QKV");
    ("/attention/output/dense/kernel", "/Attention/Out");
    ("/attention/output/LayerNorm/gamma", "/Attention/Gamma");
    ("/attention/output/LayerNorm/beta", "/Attention/Beta");
    ("/intermediate/dense/kernel", "/FF/1/W");
    ("/intermediate/dense/bias", "/FF/1/B");
    ("/output/dense/kernel", "/FF/2/W");
    ("/output/dense/bias", "/FF/2/B");
    ("/output/LayerNorm/gamma", "/FF/Gamma");
    ("/output/LayerNorm/beta", "/FF/Beta") ].

Definition layer_src (i : nat) : string := "bert/encoder/layer_" +:+ pretty i.
Definition layer_dst (i : nat) : string := "Layer" +:+ pretty i.

(** All the entries, in the order they are written into the dict. *)
Definition mapping_entries (n : nat) : list (string * string) :=
  embedding_mapping ++ concat (layer_mapping <$> seq 0 n).

End TfCheckpoint.

(** * bert.py: device sizing and the inference loop *)

Module BertInfer.
Import Bert.

(** ** calc_required_ipus

    [math.ceil(a / b)] and [math.ceil(math.log2(n))] are taken on the exact
    quotient and logarithm.  The code computes both in binary64, and the
    two agree only for integers of moderate size: the quotient of integers
    below 2^53 is not rounded onto an integer, and the logarithm of an
    integer up to 2^32 is either exact (a power of two) or further from
    the integer below than its rounding error.  Beyond, the float
    logarithm can lose the excess over a power of two ([math.log2(2**49 + 1)]
    is 49.0), which these definitions do not reproduce: the properties
    below are stated within the bound [ipu_bound]. *)

Definition ipu_bound : Z := (2 ^ 32)%Z.

(** The attributes of the model object that [calc_required_ipus] reads. *)
Record ModelLayout := {
  m_num_layers : Z;
  layers_per_ipu : Z;
  layer_offset : Z;
}.

(** [math.ceil(a / b)] for integers within [ipu_bound]. *)
Definition ceil_div (a b : Z) : res Z :=
  if decide (b = 0%Z) then Raise ZeroDivisionError else Ok (- ((- a) `div` b))%Z.

(** [math.ceil(math.log2(n))] for an integer up to [ipu_bound]: a domain
    error unless [n] is positive. *)
Definition ceil_log2 (n : Z) : res Z :=
  if decide (n ≤ 0)%Z then Raise ValueError else Ok (Z.log2_up n).

Definition calc_required_ipus (args : Args) (model : ModelLayout) : res (Z * Z) :=
  q <~ ceil_div (m_num_layers model) (layers_per_ipu model);;
  let num_ipus := (q + layer_offset model)%Z in
  let num_ipus := (num_ipus * replication_factor args)%Z in
  k <~ ceil_log2 num_ipus;;
  let request_ipus := (2 ^ k)%Z in
  Ok (request_ipus, num_ipus).

(** ** create_callback_stepio *)

(** [d[k].append(t)] on a [defaultdict(list)]: a missing key is created,
    at the end of the iteration order. *)
Fixpoint defaultdict_append (d : Timings) (k : string) (t : Q) : Timings :=
  match d with
  | [] => [(k, [t])]
  | (k', v) :: d' =>
      if decide (k' = k) then (k', v ++ [t]) :: d'
      else (k', v) :: defaultdict_append d' k t
  end.

(** A call of one of the four callbacks by the engine, with the reading
    of [time.perf_counter()] when the callback takes one. *)
Inductive Callback :=
  | InputCallback (id : string) (is_prefetch : bool) (now : Q)
  | InputCompleteCallback (id : string)
  | OutputCallback (id : string)
  | OutputCompleteCallback (id : string) (now : Q).

(** ** bert_process_infer_data and bert_infer_loop *)

(** Further fields of the parsed command line, read by the inference loop. *)
Record InferFlags := {
  synthetic_data : bool;
  realtime_scheduler : bool;
}.

(** One batch of the inference data, with what the environment answers
    while it is processed: the callbacks the engine makes during
    [session.run] when the stepio is the callback one, the anchors as the
    run fills them, the measured duration and the cycle count. *)
Record InferBatch := {
  ib_data : gmap string (list Z);
  ib_calls : list Callback;
  ib_output : Anchors;
  ib_duration : float;
  ib_cycles : Z;
}.

(** The status line logged by [bert_process_infer_data], before
    formatting. *)
Record InferLine := {
  l_iteration : Z;
  l_duration : float;
  l_throughput : float;
  l_latency : option (option Q * option Q * option Q);
  l_cycles : option Z;
}.

(** The mutable objects shared by the inference loop, and the calls
    received by the session ([i_runs]: the dict the stepio reads from),
    the logger ([i_log]), the dataset ([i_results], [i_written]) and the
    operating system ([i_commands]). *)
Record InferState := {
  i_iteration : Iteration;
  i_static_data : gmap string (list Z);
  i_anchors : Anchors;
  i_start_times : Timings;
  i_end_times : Timings;
  i_runs : list (gmap string (list Z));
  i_log : list InferLine;
  i_results : list (gmap string (list Z) * list (list float));
  i_written : nat;
  i_commands : list string;
}.

Definition with_iteration (i : Iteration) (s : InferState) : InferState :=
  {| i_iteration := i; i_static_data := i_static_data s; i_anchors := i_anchors s;
     i_start_times := i_start_times s; i_end_times := i_end_times s; i_runs := i_runs s;
     i_log := i_log s; i_results := i_results s; i_written := i_written s;
     i_commands := i_commands s |}.

Definition with_static_data (d : gmap string (list Z)) (s : InferState) : InferState :=
  {| i_iteration := i_iteration s; i_static_data := d; i_anchors := i_anchors s;
     i_start_times := i_start_times s; i_end_times := i_end_times s; i_runs := i_runs s;
     i_log := i_log s; i_results := i_results s; i_written := i_written s;
     i_commands := i_commands s |}.

Definition with_anchors (a : Anchors) (s : InferState) : InferState :=
  {| i_iteration := i_iteration s; i_static_data := i_static_data s; i_anchors := a;
     i_start_times := i_start_times s; i_end_times := i_end_times s; i_runs := i_runs s;
     i_log := i_log s; i_results := i_results s; i_written := i_written s;
     i_commands := i_commands s |}.

Definition with_times (st et : Timings) (s : InferState) : InferState :=
  {| i_iteration := i_iteration s; i_static_data := i_static_data s;
     i_anchors := i_anchors s; i_start_times := st; i_end_times := et;
     i_runs := i_runs s; i_log := i_log s; i_results := i_results s;
     i_written := i_written s; i_commands := i_commands s |}.

Definition add_run (d : gmap string (list Z)) (s : InferState) : InferState :=
  {| i_iteration := i_iteration s; i_static_data := i_static_data s;
     i_anchors := i_anchors s; i_start_times := i_start_times s;
     i_end_times := i_end_times s; i_runs := i_runs s ++ [d]; i_log := i_log s;
     i_results := i_results s; i_written := i_written s; i_commands := i_commands s |}.

Definition add_line (l : InferLine) (s : InferState) : InferState :=
  {| i_iteration := i_iteration s; i_static_data := i_static_data s;
     i_anchors := i_anchors s; i_start_times := i_start_times s;
     i_end_times := i_end_times s; i_runs := i_runs s; i_log := i_log s ++ [l];
     i_results := i_results s; i_written := i_written s; i_commands := i_commands s |}.

(** [dataset.add_results(data, result)]. *)
Definition add_results (d : gmap string (list Z)) (result : list (list float))
    (s : InferState) : InferState :=
  {| i_iteration := i_iteration s; i_static_data := i_static_data s;
     i_anchors := i_anchors s; i_start_times := i_start_times s;
     i_end_times := i_end_times s; i_runs := i_runs s; i_log := i_log s;
     i_results := i_results s ++ [(d, result)]; i_written := i_written s;
     i_commands := i_commands s |}.

(** [dataset.write_predictions()]. *)
Definition write_predictions (s : InferState) : InferState :=
  {| i_iteration := i_iteration s; i_static_data := i_static_data s;
     i_anchors := i_anchors s; i_start_times := i_start_times s;
     i_end_times := i_end_times s; i_runs := i_runs s; i_log := i_log s;
     i_results := i_results s; i_written := S (i_written s);
     i_commands := i_commands s |}.

(** [os.system(command)]. *)
Definition os_system (command : string) (s : InferState) : InferState :=
  {| i_iteration := i_iteration s; i_static_data := i_static_data s;
     i_anchors := i_anchors s; i_start_times := i_start_times s;
     i_end_times := i_end_times s; i_runs := i_runs s; i_log := i_log s;
     i_results := i_results s; i_written := i_written s;
     i_commands := i_commands s ++ [command] |}.

(** State and exceptions, as in the training loop. *)
Definition IM (A : Type) : Type := InferState → res A * InferState.

Definition iret {A} (a : A) : IM A := λ s, (Ok a, s).
Definition iraise {A} (e : exn) : IM A := λ s, (Raise e, s).
Definition ibind {A B} (m : IM A) (f : A → IM B) : IM B :=
  λ s, match m s with
       | (Ok a, s') => f a s'
       | (Raise e, s') => (Raise e, s')
       end.
Definition ilift {A} (r : res A) : IM A := λ s, (r, s).
Definition iget : IM InferState := λ s, (Ok s, s).
Definition imodify (f : InferState → InferState) : IM unit := λ s, (Ok tt, f s).

Notation "x <- m ;; k" := (ibind m (λ x, k))
  (at level 100, m at next level, right associativity, only parsing).

Fixpoint for_IM {X} (body : X → IM unit) (xs : list X) : IM unit :=
  match xs with
  | [] => iret tt
  | x :: xs' => _ <- body x;; for_IM body xs'
  end.

(** The callbacks built by [create_callback_stepio]: closures over the
    data dict, the anchors and the two timestamp dicts. *)
Definition input_callback (id : string) (is_prefetch : bool) (now : Q) : IM (list Z) :=
  _ <- (if is_prefetch
        then imodify (λ s, with_times (defaultdict_append (i_start_times s) id now)
                                      (i_end_times s) s)
        else iret tt);;
  s <- iget;;
  ilift (getitem (i_static_data s) id).

Definition input_complete_callback (id : string) : IM unit := iret tt.

Definition output_callback (id : string) : IM (list float) :=
  s <- iget;;
  ilift (getitem (i_anchors s) id).

Definition output_complete_callback (id : string) (now : Q) : IM unit :=
  imodify (λ s, with_times (i_start_times s)
                           (defaultdict_append (i_end_times s) id now) s).

(** The engine calling back; an exception raised by a callback ends the
    run and is raised by [session.run]. *)
Definition call_back (c : Callback) : IM unit :=
  match c with
  | InputCallback id is_prefetch now => _ <- input_callback id is_prefetch now;; iret tt
  | InputCompleteCallback id => input_complete_callback id
  | OutputCallback id => _ <- output_callback id;; iret tt
  | OutputCompleteCallback id now => output_complete_callback id now
  end.

(** [session.run(stepio)].  With [PyStepIO(data, anchors)] the engine
    reads [data]; with the callback stepio it reads the dict the callbacks
    were built on and calls them.  The anchors are filled by the run. *)
Definition infer_session_run (data : gmap string (list Z)) (callback_stepio : bool)
    (b : InferBatch) : IM unit :=
  if callback_stepio then
    s <- iget;;
    _ <- imodify (add_run (i_static_data s));;
    _ <- for_IM call_back (ib_calls b);;
    imodify (with_anchors (ib_output b))
  else
    _ <- imodify (add_run data);;
    imodify (with_anchors (ib_output b)).

(** [bert_process_infer_data]; [callback_stepio] is false when the
    [stepio] argument is [None]. *)
Definition bert_process_infer_data (args : Args) (data : gmap string (list Z))
    (b : InferBatch) (logits : list string) (callback_stepio : bool)
    : IM (list (list float)) :=
  _ <- infer_session_run data callback_stepio b;;
  let hw_cycles := if report_hw_cycle_count args then Some (ib_cycles b) else None in
  if gc_profile args then iraise SystemExit
  else
    _ <- imodify (λ s, with_iteration
                         (set_durations (deque_append (ib_duration b)
                                           (durations (i_iteration s)))
                                        (i_iteration s)) s);;
    s <- iget;;
    latency <- ilift (compute_latency args (i_start_times s) (i_end_times s));;
    let i := i_iteration s in
    r <- ilift (py_mod (count i) (it_steps_per_log i));;
    _ <- (if decide (r = 0%Z) then
            imodify (add_line
              {| l_iteration := count i;
                 l_duration := average (durations i);
                 l_throughput := np_mean (throughput i);
                 l_latency := match latency.1.1 with
                              | Some _ => Some latency
                              | None => None
                              end;
                 l_cycles := hw_cycles |})
          else iret tt);;
    _ <- imodify (λ s, with_iteration
                         (set_count (count (i_iteration s) + 1)%Z (i_iteration s)) s);;
    s <- iget;;
    ilift (comprehension (getitem (i_anchors s)) logits).

(** [enable_realtime_scheduling] and [disable_realtime_scheduling];
    [pid] is what [os.getpid()] returns. *)
Definition enable_command (pid : Z) : string := "sudo -n chrt --rr -p 99 " +:+ pretty pid.
Definition disable_command (pid : Z) : string :=
  "sudo -n chrt --other -p 0 " +:+ pretty pid.

Definition enable_realtime_scheduling (flags : InferFlags) (pid : Z) : IM unit :=
  if realtime_scheduler flags then imodify (os_system (enable_command pid)) else iret tt.

Definition disable_realtime_scheduling (flags : InferFlags) (pid : Z) : IM unit :=
  if realtime_scheduler flags then imodify (os_system (disable_command pid)) else iret tt.

(** The body of [for data in dataset] in [bert_infer_loop]. *)
Definition infer_turn (args : Args) (save_results callback_stepio : bool)
    (logits : list string) (b : InferBatch) : IM unit :=
  _ <- imodify (λ s, with_static_data (ib_data b ∪ i_static_data s) s);;
  s <- iget;;
  result <- bert_process_infer_data args (i_static_data s) b logits callback_stepio;;
  _ <- (if save_results then imodify (add_results (ib_data b) result) else iret tt);;
  imodify (with_times [] []).

(** The body of [for iteration.epoch in range(repeat_count)]. *)
Definition infer_epoch (args : Args) (save_results callback_stepio : bool)
    (dataset : Z → list InferBatch) (logits : list string) (e : Z) : IM unit :=
  _ <- imodify (λ s, with_iteration (set_epoch e (i_iteration s)) s);;
  for_IM (infer_turn args save_results callback_stepio logits) (dataset e).

(** [bert_infer_loop]; [dataset e] is what iterating the dataset yields in
    repetition [e]. *)
Definition bert_infer_loop (args : Args) (flags : InferFlags) (pid : Z)
    (dataset : Z → list InferBatch) (logits : list string) : IM unit :=
  let save_results := bool_decide (task args = SQUAD) && negb (synthetic_data flags) in
  let repeat_count := if synthetic_data flags then epochs args else 1%Z in
  _ <- imodify (with_static_data ∅);;
  _ <- imodify (with_times [] []);;
  let callback_stepio :=
    bool_decide (low_latency_inference args = true ∧ task args = SQUAD) in
  _ <- enable_realtime_scheduling flags pid;;
  _ <- for_IM (infer_epoch args save_results callback_stepio dataset logits)
         (py_range 0 repeat_count);;
  _ <- disable_realtime_scheduling flags pid;;
  if save_results then imodify write_predictions else iret tt.

(** ** Vocabulary *)

(** The timestamps that the calls make the callbacks record under the
    anchor [id]: those of the prefetching input calls, and those of the
    output completions. *)
Definition input_stamps (id : string) (calls : list Callback) : list Q :=
  omap (λ c, match c with
             | InputCallback id' true now => if decide (id' = id) then Some now else None
             | _ => None
             end) calls.

Definition output_stamps (id : string) (calls : list Callback) : list Q :=
  omap (λ c, match c with
             | OutputCompleteCallback id' now => if decide (id' = id) then Some now else None
             | _ => None
             end) calls.

(** The timestamps recorded under [k], none when [k] is absent. *)
Definition recorded (d : Timings) (k : string) : list Q :=
  match timings_getitem d k with Ok v => v | Raise _ => [] end.

(** The dicts seen by successive runs when the inputs of each batch are
    merged into one dict that is never cleared: a key keeps its last
    value. *)
Fixpoint merged_runs (d : gmap string (list Z)) (bs : list (gmap string (list Z)))
    : list (gmap string (list Z)) :=
  match bs with
  | [] => []
  | b :: bs' => (b ∪ d) :: merged_runs (b ∪ d) bs'
  end.

(** [ipost m s Q]: running [m] from [s] ends in an outcome and a state
    related by [Q]. *)
Definition ipost {A} (m : IM A) (s : InferState)
    (Q : res A → InferState → Prop) : Prop :=
  Q (m s).1 (m s).2.

(** What the inference functions leave alone in the Iteration object. *)
Definition same_windows (i i' : Iteration) : Prop :=
  same_settings i i' ∧ cycles i' = cycles i ∧ windows i' = windows i.

(** What the callbacks leave alone: everything but the timestamps. *)
Definition untouched (s s' : InferState) : Prop :=
  i_iteration s' = i_iteration s ∧ i_static_data s' = i_static_data s ∧
  i_anchors s' = i_anchors s ∧ i_runs s' = i_runs s ∧ i_log s' = i_log s ∧
  i_results s' = i_results s ∧ i_written s' = i_written s ∧
  i_commands s' = i_commands s.

(** Every anchor of the dict has at least one timestamp. *)
Definition stamps_nonempty (d : Timings) : Prop := Forall (λ kv, kv.2 ≠ []) d.

(** The results handed to the dataset for the batches [bs]: the anchors
    of the logits as the run of each batch filled them, with the inputs
    of the batch; nothing when results are not saved. *)
Definition turn_results (save_results : bool) (logits : list string)
    (bs : list InferBatch) (before after : list (gmap string (list Z) * list (list float)))
    : Prop :=
  if save_results then
    ∃ results,
      Forall2 (λ b result, comprehension (getitem (ib_output b)) logits = Ok result)
              bs results ∧
      after = before ++ zip (ib_data <$> bs) results
  else after = before.

(** The data dict after the inputs of the batches [bs] were merged in. *)
Definition merged (d : gmap string (list Z)) (bs : list InferBatch) : gmap string (list Z) :=
  foldl (λ d b, ib_data b ∪ d) d bs.

(** The effect of processing the batches [bs], in order. *)
Definition infer_progress (save : bool) (logits : list string) (bs : list InferBatch)
    (s s' : InferState) : Prop :=
  count (i_iteration s') = (count (i_iteration s) + Z.of_nat (length bs))%Z ∧
  durations (i_iteration s')
  = foldl (λ d b, deque_append (ib_duration b) d) (durations (i_iteration s)) bs ∧
  i_static_data s' = merged (i_static_data s) bs ∧
  i_runs s' = i_runs s ++ merged_runs (i_static_data s) (ib_data <$> bs) ∧
  turn_results save logits bs (i_results s) (i_results s').

End BertInfer.

(** * bert.py: further vocabulary *)

Module BertTerms.
Import Bert.

(** The anchor [k] is in the dict and its latest timestamp is [t]. *)
Definition latest (d : Timings) (k : string) (t : Q) : Prop :=
  ∃ v, (k, v) ∈ d ∧ last v = Some t.

(** The positions that an objective scores: those whose label is not the
    ignore index; the mean loss and the fraction of correct predictions
    over them. *)
Definition scored (ignore : Z) (row : list Cell) : list Cell :=
  filter (λ c, unmasked (Some ignore) c = true) row.

Definition objective_loss (ignore : Z) (row : list Cell) : float :=
  np_mean (loss <$> scored ignore row).

Definition objective_accuracy (ignore : Z) (row : list Cell) : float :=
  fdiv (of_nat (length (filter (λ c, correct (Some ignore) c = true) row)))
       (of_nat (length (scored ignore row))).

(** The batches that the training loop runs: those with some non-zero
    label. *)
Definition runs_of (labels : list string) (bs : list Batch) : list Batch :=
  filter (λ b, processed labels b = true) bs.

(** The effect of the batches [bs] on the step count and on the engine. *)
Definition advanced {OptimizerFactory Optimizer : Type} (labels : list string)
    (bs : list Batch) (s s' : State OptimizerFactory Optimizer) : Prop :=
  it_start_epoch (iteration s') = it_start_epoch (iteration s) ∧
  count (iteration s')
  = (count (iteration s) + Z.of_nat (length (runs_of labels bs)))%Z ∧
  runs s' = runs s ++ (data <$> runs_of labels bs).

End BertTerms.

(** * Concrete inputs *)

(** Small checkpoints, with integers as tensor elements and a cast that
    keeps the value. *)
Module TfLoaderExamples.
Import TfLoader.

Definition id_cast : DType → DType → Z → Z := λ _ _ x, x.

Definition cfg_small : BertConfig :=
  {| num_layers := 1; hidden_size := 2; vocab_length := 3;
     config_dtype := Float32; custom_ops := ["gather"; "attention"] |}.

Definition name_q : string := "bert/encoder/layer_0/attention/self/query/kernel".
Definition name_k : string := "bert/encoder/layer_0/attention/self/key/kernel".
Definition name_v : string := "bert/encoder/layer_0/attention/self/value/kernel".
Definition q_small : ndarray Z := Mat Float32 2 [[1; 2]; [3; 4]]%Z.
Definition k_small : ndarray Z := Mat Float32 2 [[5; 6]; [7; 8]]%Z.
Definition v_small : ndarray Z := Mat Float32 2 [[9; 10]; [11; 12]]%Z.

(** The query part in half precision, and a key part of one column. *)
Definition q_half : ndarray Z := Mat Float16 2 [[1; 2]; [3; 4]]%Z.
Definition k_column : ndarray Z := Mat Float32 1 [[5]; [7]]%Z.

Definition cfg_gather : BertConfig :=
  {| num_layers := 1; hidden_size := 3; vocab_length := 2;
     config_dtype := Float32; custom_ops := ["gather"; "attention"] |}.

Definition name_emb : string := "bert/embeddings/word_embeddings".

End TfLoaderExamples.

(** A SQuAD run of 2 epochs of 60 batches, with windows of 3 entries and
    an optimizer schedule that never updates. *)
Module BertExamples.
Import Bert.

Definition args_squad : Args :=
  {| task := SQUAD; epochs := 2; continue_training_from_epoch := 0;
     epochs_per_save := 0; steps_per_save := 50; steps_per_log := 100;
     batch_size := 1; gradient_accumulation_factor := 1; replication_factor := 1;
     batches_per_step := 1; aggregate_metrics_over_steps := Some 3%Z;
     report_hw_cycle_count := false; gc_profile := false; no_model_save := false;
     checkpoint_dir := "ckpt"; low_latency_inference := false |}%Z.

(** The same run with [--no-model-save]. *)
Definition args_no_save : Args :=
  {| task := SQUAD; epochs := 2; continue_training_from_epoch := 0;
     epochs_per_save := 0; steps_per_save := 50; steps_per_log := 100;
     batch_size := 1; gradient_accumulation_factor := 1; replication_factor := 1;
     batches_per_step := 1; aggregate_metrics_over_steps := Some 3%Z;
     report_hw_cycle_count := false; gc_profile := false; no_model_save := true;
     checkpoint_dir := "ckpt"; low_latency_inference := false |}%Z.

(** What [Iteration(args_squad, 1, 60, writer, 3)] builds. *)
Definition it_squad : Iteration :=
  {| it_start_epoch := 0; count := 0; epoch := 0; it_epochs := 2;
     it_epochs_per_save := 0; it_steps_per_log := 100; samples_per_step := 1;
     steps_per_epoch := 60; total_steps := 120; it_task := SQUAD;
     learning_rate := fzero;
     durations := {| maxlen := 3; items := [] |};
     cycles := {| maxlen := 3; items := [] |};
     windows := SingleWindows {| maxlen := 3; items := [] |} {| maxlen := 3; items := [] |};
     stats_fn := OutputStats |}%Z.

Definition st_squad : State unit unit :=
  {| iteration := it_squad; anchors := ∅; factory := tt; scalars := []; reports := [];
     runs := []; optimizers := []; saved := [] |}.

Definition no_update (f : unit) (i : Iteration) : bool := false.
Definition same_optimizer (f : unit) (i : Iteration) : unit * unit := (tt, tt).

Definition out_squad : Anchors :=
  <["loss" := [Some (1#2); Some (3#2)]%Q]> {[ "pred" := [Some 1; Some 1]%Q ]}.

Definition batch_squad : Batch :=
  {| data := {[ "start_labels" := [1; 0]%Z ]};
     engine_output := out_squad;
     duration := Some (1#10)%Q; cycle_count := 0 |}.

(** A batch whose only label field is all padding. *)
Definition batch_padding : Batch :=
  {| data := {[ "start_labels" := [0; 0]%Z ]};
     engine_output := out_squad;
     duration := Some (1#10)%Q; cycle_count := 0 |}.

Definition dataset_squad (e : Z) : list Batch := replicate 60 batch_squad.

(** Five calls of [add_stats], with durations 1 to 5. *)
Definition calls_squad : list StatsCall :=
  (λ d : Z, {| c_duration := of_Z d; c_hw_cycles := None; c_labels := [[1; 0]%Z];
               c_losses := ["loss"]; c_predictions := ["pred"] |}) <$> [1; 2; 3; 4; 5]%Z.

Definition st_outputs : State unit unit :=
  {| iteration := it_squad; anchors := out_squad; factory := tt; scalars := [];
     reports := []; runs := []; optimizers := []; saved := [] |}.

(** Five calls of [add_stats] with distinct durations, cycle counts and
    losses: call [k] lasts [k], reports [10 * k] cycles and reads the loss
    anchor that holds [k]. *)
Definition anchors_windows : Anchors :=
  <["loss1" := [Some 1%Q]]> (<["loss2" := [Some 2%Q]]> (<["loss3" := [Some 3%Q]]>
    (<["loss4" := [Some 4%Q]]> (<["loss5" := [Some 5%Q]]> {[ "pred" := [Some 1%Q] ]})))).

Definition calls_windows : list StatsCall :=
  (λ k : Z, {| c_duration := of_Z k; c_hw_cycles := Some (10 * k)%Z; c_labels := [[1%Z]];
               c_losses := ["loss" +:+ pretty k]; c_predictions := ["pred"] |})
    <$> [1; 2; 3; 4; 5]%Z.

Definition st_windows : State unit unit :=
  {| iteration := it_squad; anchors := anchors_windows; factory := tt; scalars := [];
     reports := []; runs := []; optimizers := []; saved := [] |}.

(** Two objectives over three positions, and one objective whose labels
    are all ignored. *)
Definition cell (l : Z) (p x : Q) : Cell :=
  {| label := l; prediction := Some p; loss := Some x |}.

Definition rows_mlm_nsp : list (list Cell) :=
  [ [cell 4 4 (1#2); cell 6 5 (3#2); cell 0 0 7];
    [cell 1 1 1; cell 0 1 1; cell 0 9 1] ]%Q.

Definition anchors_mlm_nsp : Anchors :=
  <["loss0" := [Some (1#2); Some (3#2); Some 7]%Q]>
    (<["loss1" := [Some 1; Some 1; Some 1]%Q]>
       (<["pred0" := [Some 4; Some 5; Some 0]%Q]>
          {[ "pred1" := [Some 1; Some 1; Some 9]%Q ]})).

Definition rows_ignored : list (list Cell) := [ [cell 0 3 1; cell 0 0 2] ]%Q.

Definition anchors_ignored : Anchors :=
  <["loss0" := [Some 1; Some 2]%Q]> {[ "pred0" := [Some 3; Some 0]%Q ]}.

(** Low-latency inference with two batches per step. *)
Definition args_latency : Args :=
  {| task := SQUAD; epochs := 1; continue_training_from_epoch := 0;
     epochs_per_save := 0; steps_per_save := 0; steps_per_log := 1;
     batch_size := 1; gradient_accumulation_factor := 1; replication_factor := 1;
     batches_per_step := 2; aggregate_metrics_over_steps := None;
     report_hw_cycle_count := false; gc_profile := false; no_model_save := true;
     checkpoint_dir := "ckpt"; low_latency_inference := true |}%Z.

Definition start_times : Timings := [("indices", [1; 3]); ("positions", [2; 4])]%Q.
Definition end_times : Timings := [("logits", [5; 8])]%Q.

End BertExamples.

(** A checkpoint with a variable that the mapping does not know, and a
    float16 configuration. *)
Module TfCheckpointExamples.
Import TfLoader TfLoaderExamples.

Definition cfg_half : BertConfig :=
  {| num_layers := 1; hidden_size := 2; vocab_length := 3;
     config_dtype := Float16; custom_ops := ["gather"; "attention"] |}.

Definition ckpt_small : list (string * ndarray Z) :=
  [ (name_emb, Mat Float32 2 [[1; 2]; [3; 4]; [5; 6]; [7; 8]]%Z);
    (name_k, k_small);
    ("bert/encoder/layer_0/attention/self/key/kernel/adam_m", k_small);
    ("global_step", Vec OtherDType [100%Z]) ].

(** What is loaded from [ckpt_small] for [cfg_small]: the embedding
    table cut to 3 rows and transposed, and the key block of the layer. *)
Definition loaded_small : gmap string (ndarray (option Z)) :=
  <[ "Layer0/Attention/QKV" :=
       Mat Float32 6 [[None; None; Some 5; Some 6; None; None];
                      [None; None; Some 7; Some 8; None; None]]%Z ]>
    {[ EMBEDDING_DICT := Mat Float32 3 [[Some 1; Some 3; Some 5]; [Some 2; Some 4; Some 6]]%Z ]}.

End TfCheckpointExamples.

(** A low-latency inference run of two batches, and a device layout. *)
Module BertInferExamples.
Import Bert BertInfer BertExamples.

Definition layout_base : ModelLayout :=
  {| m_num_layers := 12; layers_per_ipu := 2; layer_offset := 1 |}%Z.

Definition flags_realtime : InferFlags :=
  {| synthetic_data := false; realtime_scheduler := true |}.

Definition calls_two : list Callback :=
  [ InputCallback "indices" true 1; InputCallback "indices" true 3;
    OutputCallback "logits";
    OutputCompleteCallback "logits" 5; OutputCompleteCallback "logits" 8 ]%Q.

Definition infer_dataset (e : Z) : list InferBatch :=
  [ {| ib_data := {[ "indices" := [1%Z] ]}; ib_calls := calls_two;
       ib_output := {[ "logits" := [Some 1%Q] ]};
       ib_duration := Some 1%Q; ib_cycles := 7 |};
    {| ib_data := {[ "positions" := [9%Z] ]}; ib_calls := calls_two;
       ib_output := {[ "logits" := [Some 2%Q] ]};
       ib_duration := Some 2%Q; ib_cycles := 7 |} ].

Definition infer_state : InferState :=
  {| i_iteration := it_squad; i_static_data := ∅; i_anchors := {[ "logits" := [] ]};
     i_start_times := []; i_end_times := []; i_runs := []; i_log := [];
     i_results := []; i_written := 0; i_commands := [] |}.

(** The two objectives of pretraining over three positions. *)
Definition row_mlm : list Cell := [cell 4 4 (1#2); cell 6 5 (3#2); cell 0 0 7]%Q.
Definition row_nsp : list Cell := [cell 1 1 1; cell 0 1 1; cell 2 9 1]%Q.

Definition anchors_pretraining : Anchors :=
  <["loss0" := [Some (1#2); Some (3#2); Some 7]%Q]>
    (<["loss1" := [Some 1; Some 1; Some 1]%Q]>
       (<["pred0" := [Some 4; Some 5; Some 0]%Q]>
          {[ "pred1" := [Some 1; Some 1; Some 9]%Q ]})).

End BertInferExamples.

(** * Facts about the error monad *)

Lemma rbind_Ok {A B} (m : res A) (f : A → res B) a : m = Ok a → rbind m f = f a.
Proof. by intros ->. Qed.

Lemma getitem_Some {V} (d : gmap string V) k v : d !! k = Some v → getitem d k = Ok v.
Proof. unfold getitem. by intros ->. Qed.

Lemma for_each_app {S X} (body : S → X → res S) s xs ys :
  for_each body s (xs ++ ys) = rbind (for_each body s xs) (λ s', for_each body s' ys).
Proof.
  revert s. induction xs as [|x xs IH]; intros s; simpl; [done|].
  destruct (body s x); simpl; [apply IH | done].
Qed.

(** * Properties of bert_tf_loader.py *)

Module LoaderFacts.
Import TfLoader TfLoaderExamples.

Section Facts.
Context {elt : Type}.
Variable zero : elt.
Variable cast : DType → DType → elt → elt.


Lemma row_assign {A} (a b c x : list A) s w :
  length a = s → length b = w →
  take s (a ++ b ++ c) ++ x ++ drop (s + w) (a ++ b ++ c) = a ++ x ++ c.
Proof.
  intros <- <-.
  rewrite take_app_length. f_equal. f_equal.
  rewrite app_assoc, <- length_app. by rewrite drop_app_length.
Qed.

Lemma length_hstack3 {A} (a b c : list (list A)) r :
  length a = r → length b = r → length c = r → length (hstack3 a b c) = r.
Proof.
  intros. unfold hstack3. rewrite !length_zip_with. lia.
Qed.

Lemma lookup_hstack3 {A} (a b c : list (list A)) i :
  hstack3 a b c !! i =
  match a !! i, b !! i, c !! i with
  | Some x, Some y, Some z => Some (x ++ y ++ z)
  | _, _, _ => None
  end.
Proof.
  unfold hstack3. rewrite !lookup_zip_with.
  destruct (a !! i), (b !! i), (c !! i); done.
Qed.

Lemma blank_hstack3 r w :
  @blank elt r (w * 3) = hstack3 (blank r w) (blank r w) (blank r w).
Proof.
  unfold blank. induction r as [|r IH]; simpl; [done|].
  unfold hstack3 in *. simpl. rewrite <- IH. f_equal.
  rewrite <- !replicate_add. f_equal. lia.
Qed.

Lemma broadcast_exact {A} n (l : list A) : length l = n → broadcast n l = Ok l.
Proof. intros H. unfold broadcast. by rewrite decide_True. Qed.

Lemma broadcast_to_exact r w dt (X : list (list elt)) :
  length X = r → broadcast_to r w (Mat dt w X) = Ok X.
Proof.
  intros H. unfold broadcast_to.
  rewrite broadcast_exact by apply length_seq. simpl.
  rewrite broadcast_exact by done. simpl. f_equal.
  rewrite <- (list_fmap_id X) at 2. apply list_fmap_ext.
  intros i x _. by rewrite decide_True.
Qed.


Ltac block_rows i :=
  apply list_eq; intros i;
  rewrite lookup_zip_with, !lookup_hstack3; unfold known;
  rewrite list_lookup_fmap;
  repeat match goal with
  | |- context [?L !! i] =>
      let E := fresh "E" in destruct (L !! i) eqn:E; simpl
  end;
  repeat match goal with
  | H : _ !! i = None |- _ => apply lookup_ge_None in H
  | H : _ !! i = Some _ |- _ => pose proof (lookup_lt_Some _ _ _ H); revert H
  end; intros; try done; try lia;
  repeat match goal with
  | HF : Forall _ ?L, E : ?L !! _ = Some ?x |- _ =>
      let H := fresh in
      pose proof (Forall_lookup_1 _ _ _ _ HF E) as H; simpl in H; clear E
  end;
  f_equal.

Lemma assign_query dt h r (A B C : list (list (option elt))) (X : list (list elt)) :
  wf_block r h A → wf_block r h B → wf_block r h C → length X = r →
  assign_columns cast (Mat dt (h * 3) (hstack3 A B C)) 0 h (Mat dt h X)
  = Ok (Mat dt (h * 3) (hstack3 (known X) B C)).
Proof.
  intros [HA HAh] [HB HBh] [HC HCh] HX. unfold assign_columns.
  replace (0 `min` (h * 3)) with 0 by lia.
  replace (h `min` (h * 3) - 0) with h by lia.
  rewrite broadcast_to_exact by (by rewrite (length_hstack3 A B C r)). simpl.
  rewrite decide_True by done. do 2 f_equal.
  block_rows i.
  match goal with H : length ?a = h |- _ ++ drop h (?a ++ _) = _ =>
    rewrite <- H, drop_app_length end.
  done.
Qed.

Lemma assign_key dt h r (A B C : list (list (option elt))) (X : list (list elt)) :
  wf_block r h A → wf_block r h B → wf_block r h C → length X = r →
  assign_columns cast (Mat dt (h * 3) (hstack3 A B C)) h (h * 2) (Mat dt h X)
  = Ok (Mat dt (h * 3) (hstack3 A (known X) C)).
Proof.
  intros [HA HAh] [HB HBh] [HC HCh] HX. unfold assign_columns.
  replace (h `min` (h * 3)) with h by lia.
  replace ((h * 2) `min` (h * 3) - h) with h by lia.
  rewrite broadcast_to_exact by (by rewrite (length_hstack3 A B C r)). simpl.
  rewrite decide_True by done. do 2 f_equal.
  block_rows i. by apply row_assign.
Qed.

Lemma assign_value dt h r (A B C : list (list (option elt))) (X : list (list elt)) :
  wf_block r h A → wf_block r h B → wf_block r h C → length X = r →
  assign_columns cast (Mat dt (h * 3) (hstack3 A B C)) (h * 2) (h * 3) (Mat dt h X)
  = Ok (Mat dt (h * 3) (hstack3 A B (known X))).
Proof.
  intros [HA HAh] [HB HBh] [HC HCh] HX. unfold assign_columns.
  replace ((h * 2) `min` (h * 3)) with (h * 2) by lia.
  replace ((h * 3) `min` (h * 3) - h * 2) with h by lia.
  rewrite broadcast_to_exact by (by rewrite (length_hstack3 A B C r)). simpl.
  rewrite decide_True by done. do 2 f_equal.
  block_rows i.
  match goal with
  | |- take _ (?a ++ ?b ++ ?c) ++ ?x ++ _ = _ =>
      pose proof (row_assign (a ++ b) c [] x (h * 2) h) as Hrow
  end.
  rewrite !app_nil_r, <- !app_assoc in Hrow. apply Hrow; [|done].
  rewrite length_app. lia.
Qed.

Lemma range_query cfg :
  getitem (qkv_tensor_range cfg) "query" = Ok (0, hidden_size cfg).
Proof.
  unfold getitem, qkv_tensor_range, dict_update. simpl.
  rewrite lookup_insert_ne by done. rewrite lookup_insert_ne by done.
  by rewrite lookup_insert_eq.
Qed.

Lemma range_key cfg :
  getitem (qkv_tensor_range cfg) "key" = Ok (hidden_size cfg, hidden_size cfg * 2).
Proof.
  unfold getitem, qkv_tensor_range, dict_update. simpl.
  rewrite lookup_insert_ne by done. by rewrite lookup_insert_eq.
Qed.

Lemma range_value cfg :
  getitem (qkv_tensor_range cfg) "value" = Ok (hidden_size cfg * 2, hidden_size cfg * 3).
Proof.
  unfold getitem, qkv_tensor_range, dict_update. simpl.
  by rewrite lookup_insert_eq.
Qed.

Lemma has_shape_narrow cfg r c (a : ndarray elt) :
  has_shape r c a → has_shape r c (narrow cast cfg a).
Proof.
  unfold narrow. case_decide; [|done].
  destruct a as [|dt c' rows]; simpl; [done|].
  intros (-> & <- & Hall). case_decide; [done|].
  split; [done|]. split; [by rewrite length_fmap|].
  apply Forall_fmap. eapply Forall_impl; [exact Hall|].
  intros row Hrow. simpl. by rewrite length_fmap.
Qed.

Lemma dtype_narrow cfg (a b : ndarray elt) :
  dtype a = dtype b → dtype (narrow cast cfg a) = dtype (narrow cast cfg b).
Proof.
  unfold narrow. intros E. rewrite E.
  case_decide; [|done]. by destruct a, b.
Qed.


Lemma wf_block_blank r h : wf_block r h (@blank elt r h).
Proof.
  split; [apply length_replicate|].
  apply Forall_replicate. apply length_replicate.
Qed.

Lemma wf_block_known r h (a : ndarray elt) :
  has_shape r h a → wf_block r h (known (rows_of a)).
Proof.
  destruct a as [|dt c rows]; [done|]. intros (-> & <- & Hall). simpl.
  split; [apply length_fmap|]. apply Forall_fmap.
  eapply Forall_impl; [exact Hall|]. intros row Hrow. simpl. by rewrite length_fmap.
Qed.

Lemma wf_blocks_put r h p X (b : blocks elt) :
  wf_block r h X → wf_blocks r h b → wf_blocks r h (put_block p X b).
Proof. intros HX (Hq & Hk & Hv). destruct p; unfold wf_blocks; simpl; auto. Qed.

Lemma getitem_range cfg p :
  getitem (qkv_tensor_range cfg) (part_name p) = Ok (part_range (hidden_size cfg) p).
Proof. destruct p; [apply range_query | apply range_key | apply range_value]. Qed.

Lemma assign_part dt h r p (b : blocks elt) (a : ndarray elt) :
  wf_blocks r h b → has_shape r h a → dtype a = dt →
  assign_columns cast (qkv_buffer dt h b) (part_range h p).1 (part_range h p).2 a
  = Ok (qkv_buffer dt h (put_block p (known (rows_of a)) b)).
Proof.
  intros (Hq & Hk & Hv) Ha Hdt.
  destruct a as [|dt' c rows]; [done|]. destruct Ha as (-> & Hr & Hall).
  simpl in Hdt. subst dt'. unfold qkv_buffer.
  destruct p; simpl.
  - by eapply assign_query.
  - by eapply assign_key.
  - by eapply assign_value.
Qed.


Local Arguments assign_columns : simpl never.
Local Arguments qkv_buffer : simpl never.
Local Arguments part_range : simpl never.

Lemma np_empty_blank r h dt :
  np_empty (elt:=elt) r (h * 3) dt = qkv_buffer dt h (blank_blocks r h).
Proof. unfold np_empty, qkv_buffer. f_equal. apply blank_hstack3. Qed.


Lemma gi_step_part mapping cfg inits name arr target r b p :
  let a' := narrow cast cfg arr in
  mapping !! name = Some target →
  py_last3 target = "QKV" →
  py_index_neg2 (py_split "/"%char name) = Ok (part_name p) →
  has_shape r (hidden_size cfg) arr →
  qkv_state cfg inits target (dtype a') r b →
  gi_step zero cast mapping cfg inits (name, arr)
  = Ok (<[target := qkv_buffer (dtype a') (hidden_size cfg)
                      (put_block p (known (rows_of a')) b)]> inits).
Proof.
  intros a' Hmap Hqkv Hpart Hshape [Hwf Hst].
  assert (Ha' : has_shape r (hidden_size cfg) a') by by apply has_shape_narrow.
  unfold gi_step. rewrite (getitem_Some _ _ _ Hmap). simpl.
  rewrite decide_True by done. fold a'. rewrite Hpart. simpl.
  destruct Hst as [Hsome | [Hnone ->]].
  - rewrite Hsome. simpl. rewrite getitem_range. simpl.
    rewrite (getitem_Some _ _ _ Hsome). simpl.
    by rewrite (assign_part (dtype a') (hidden_size cfg) r p b a' Hwf Ha' eq_refl).
  - rewrite Hnone.
    assert (shape1 a' = Ok (hidden_size cfg) ∧ shape0 a' = r) as [-> ->].
    { destruct a' as [|? ? ?]; [done|]. by destruct Ha' as (-> & <- & _). }
    simpl. rewrite getitem_range. simpl.
    rewrite (getitem_Some _ _ _ (lookup_insert_eq _ _ _)). simpl.
    rewrite np_empty_blank.
    rewrite (assign_part (dtype a') (hidden_size cfg) r p _ a' Hwf Ha' eq_refl).
    simpl. by rewrite insert_insert_eq.
Qed.


Local Arguments gi_step : simpl never.

Lemma for_each_parts mapping cfg target dt r es : ∀ inits b,
  py_last3 target = "QKV" →
  Forall (qkv_entry_ok cast mapping cfg target dt r) es →
  qkv_state cfg inits target dt r b →
  es ≠ [] →
  for_each (gi_step zero cast mapping cfg) inits es.*2
  = Ok (<[target := qkv_buffer dt (hidden_size cfg) (foldl (store_part cast cfg) b es)]> inits).
Proof.
  induction es as [|[p [name arr]] es IH]; intros inits b Hqkv Hall Hst Hne; [done|].
  apply Forall_cons in Hall as [(Hmap & Hpart & Hshape & Hdt) Hall]. simpl in *.
  subst dt.
  rewrite (gi_step_part mapping cfg inits name arr target r b p); [|done..].
  simpl. destruct es as [|e es]; [done|].
  rewrite (IH _ (store_part cast cfg b (p, (name, arr)))); [|done|done| |done].
  - by rewrite insert_insert_eq.
  - split.
    + apply wf_blocks_put; [|apply Hst]. apply wf_block_known. by apply has_shape_narrow.
    + left. by rewrite lookup_insert_eq.
Qed.

(** *** The buffer of a layer, whatever the shapes of its parts *)

Lemma broadcast_length {A} n (l l' : list A) : broadcast n l = Ok l' → length l' = n.
Proof.
  unfold broadcast. case_decide; [by intros [= <-]|].
  destruct l as [|x [|? ?]]; try done. intros [= <-]. apply length_replicate.
Qed.

Lemma broadcast_elem {A} n (l l' : list A) x : broadcast n l = Ok l' → x ∈ l' → x ∈ l.
Proof.
  unfold broadcast. case_decide; [by intros [= <-]|].
  destruct l as [|y [|? ?]]; try done. intros [= <-] [-> _]%elem_of_replicate.
  apply list_elem_of_here.
Qed.

Lemma broadcast_to_shape r w (value : ndarray elt) vrows :
  well_shaped value → broadcast_to r w value = Ok vrows →
  length vrows = r ∧ Forall (λ row, length row = w) vrows.
Proof.
  destruct value as [dt xs|dt c rows]; simpl; intros Hws Hb.
  - destruct (broadcast w xs) as [row|] eqn:E; [|done]. injection Hb as <-.
    split; [apply length_replicate|]. apply Forall_replicate. by eapply broadcast_length.
  - destruct (broadcast w (seq 0 c)) as [cols|] eqn:Ec; [|done]. simpl in Hb.
    destruct (broadcast r rows) as [rows'|] eqn:Er; [|done]. injection Hb as <-.
    split; [rewrite length_fmap; by eapply broadcast_length|].
    apply Forall_fmap, Forall_forall. intros row Hrow. simpl.
    assert (Hlen : length row = c).
    { eapply (proj1 (Forall_forall _ _) Hws). by eapply broadcast_elem. }
    case_decide as Hc; [congruence|].
    unfold broadcast in Ec. rewrite length_seq, decide_False in Ec by done.
    destruct c as [|[|c]]; try done.
    destruct row as [|x [|? ?]]; try done. apply length_replicate.
Qed.

Lemma has_shape_well_shaped {A} r c (a : ndarray A) : has_shape r c a → well_shaped a.
Proof. destruct a as [|dt c' rows]; [done|]. by intros (-> & _ & ?). Qed.

Lemma well_shaped_narrow cfg (a : ndarray elt) :
  well_shaped a → well_shaped (narrow cast cfg a).
Proof.
  unfold narrow. case_decide; [|done].
  destruct a as [|dt c rows]; simpl; [done|]. intros Hall.
  case_decide; [done|]. apply Forall_fmap.
  eapply Forall_impl; [exact Hall|]. intros row Hrow. simpl. by rewrite length_fmap.
Qed.

(** An assignment to a column slice keeps the shape and the dtype of the
    buffer. *)
Lemma assign_columns_shape (buf buf' : ndarray (option elt)) r C start stop value :
  has_shape r C buf → well_shaped value →
  assign_columns cast buf start stop value = Ok buf' →
  has_shape r C buf' ∧ dtype buf' = dtype buf.
Proof.
  destruct buf as [|dt C' rows]; [done|]. intros (-> & Hr & Hall) Hws.
  unfold assign_columns.
  destruct (broadcast_to _ _ value) as [vrows|] eqn:Eb; [|done]. simpl.
  intros [= <-].
  destruct (broadcast_to_shape _ _ _ _ Hws Eb) as [Hvr Hvw].
  split; [|done]. split; [done|]. split; [rewrite length_zip_with; lia|].
  apply Forall_lookup. intros i row Hi.
  apply lookup_zip_with_Some in Hi as (brow & vrow & -> & Hb & Hv).
  pose proof (Forall_lookup_1 _ _ _ _ Hall Hb) as Hlb.
  pose proof (Forall_lookup_1 _ _ _ _ Hvw Hv) as Hlv. simpl in Hlb, Hlv.
  rewrite !length_app, length_take, length_fmap, length_drop. lia.
Qed.

(** It determines the columns of the slice, and no other. *)
Lemma assign_columns_effect (buf buf' : ndarray (option elt)) r C start stop value D :
  has_shape r C buf → well_shaped value → determined_columns D buf →
  assign_columns cast buf start stop value = Ok buf' →
  has_shape r C buf' ∧ dtype buf' = dtype buf ∧
  determined_columns (λ j, D j ∨ start ≤ j < stop) buf'.
Proof.
  destruct buf as [|dt C' rows]; [done|]. intros (-> & Hr & Hall) Hws HD.
  unfold assign_columns.
  destruct (broadcast_to _ _ value) as [vrows|] eqn:Eb; [|done]. simpl.
  intros [= <-].
  destruct (broadcast_to_shape _ _ _ _ Hws Eb) as [Hvr Hvw].
  set (s := start `min` C) in *. set (w := stop `min` C - s) in *.
  assert (Hrow : ∀ i row, zip_with (λ brow vrow,
                   take s brow ++ (Some ∘ (if decide (dtype value = dt) then id
                                            else cast (dtype value) dt) <$> vrow)
                   ++ drop (s + w) brow) rows vrows !! i = Some row →
            ∃ brow vrow, rows !! i = Some brow ∧ length brow = C ∧ length vrow = w ∧
              row = take s brow ++ (Some ∘ (if decide (dtype value = dt) then id
                                             else cast (dtype value) dt) <$> vrow)
                    ++ drop (s + w) brow).
  { intros i row Hi. apply lookup_zip_with_Some in Hi as (brow & vrow & -> & Hb & Hv).
    exists brow, vrow. split; [done|].
    split; [exact (Forall_lookup_1 _ _ _ _ Hall Hb)|].
    split; [exact (Forall_lookup_1 _ _ _ _ Hvw Hv) | done]. }
  split; [|split; [done|]].
  - split; [done|]. split; [rewrite length_zip_with; lia|].
    apply Forall_lookup. intros i row Hi.
    destruct (Hrow i row Hi) as (brow & vrow & _ & Hb & Hv & ->).
    rewrite !length_app, length_take, length_fmap, length_drop. subst s w. lia.
  - intros i j row cell Hi Hj. simpl in Hi.
    destruct (Hrow i row Hi) as (brow & vrow & Hbi & Hb & Hv & ->).
    pose proof (HD i j brow) as HDj. simpl in HDj.
    assert (Hs : length (take s brow) = s) by (rewrite length_take; subst s; lia).
    destruct (decide (j < s)) as [Hlt|Hge].
    { rewrite lookup_app_l in Hj by lia. apply lookup_take_Some in Hj as [Hj _].
      rewrite (HDj cell Hbi Hj). subst s w. intuition lia. }
    rewrite lookup_app_r in Hj by lia. rewrite Hs in Hj.
    destruct (decide (j - s < w)) as [Hin|Hout].
    { rewrite lookup_app_l in Hj by (rewrite length_fmap; lia).
      rewrite list_lookup_fmap in Hj.
      destruct (vrow !! (j - s)); [|done]. injection Hj as <-.
      split; [|by eexists]. intros _. right. subst s w. lia. }
    rewrite lookup_app_r in Hj by (rewrite length_fmap; lia).
    rewrite length_fmap, Hv, lookup_drop in Hj.
    replace (s + w + (j - s - w)) with j in Hj by lia.
    pose proof (lookup_lt_Some _ _ _ Hj) as Hjc.
    rewrite (HDj cell Hbi Hj). subst s w. intuition lia.
Qed.

(** A part of [r] rows of the configured width fits its slice of a
    buffer of [r] rows of three times that width. *)
Lemma assign_part_Ok h r p (buf : ndarray (option elt)) (a : ndarray elt) :
  has_shape r (h * 3) buf → has_shape r h a →
  is_Ok (assign_columns cast buf (part_range h p).1 (part_range h p).2 a).
Proof.
  destruct buf as [|dt C rows]; [done|]. intros (-> & Hr & _).
  destruct a as [|dt' c X]; [done|]. intros (-> & HX & _).
  unfold assign_columns, part_range.
  assert (Hw : ∀ s e, e `min` (h * 3) - s `min` (h * 3) = h →
            is_Ok (vrows <~ broadcast_to (length rows) (e `min` (h * 3) - s `min` (h * 3))
                              (Mat dt' h X);;
                   Ok (Mat dt (h * 3)
                         (zip_with (λ brow vrow,
                            take (s `min` (h * 3)) brow
                            ++ (Some ∘ (if decide (dtype (Mat dt' h X) = dt) then id
                                        else cast (dtype (Mat dt' h X)) dt) <$> vrow)
                            ++ drop (s `min` (h * 3) + (e `min` (h * 3) - s `min` (h * 3))) brow)
                          rows vrows)))).
  { intros s e ->. rewrite broadcast_to_exact by lia. by eexists. }
  destruct p; cbn [fst snd]; apply Hw; lia.
Qed.

Lemma determined_columns_iff {A} (D D' : nat → Prop) (buf : ndarray (option A)) :
  (∀ j, D j ↔ D' j) → determined_columns D buf → determined_columns D' buf.
Proof. intros HDD HD i j row cell Hi Hj. rewrite <- HDD. by eapply HD. Qed.

Lemma np_empty_effect r c dt :
  has_shape r c (np_empty (elt:=elt) r c dt) ∧
  determined_columns (λ _, False) (np_empty (elt:=elt) r c dt).
Proof.
  unfold np_empty. split.
  - split; [done|]. split; [apply length_replicate|].
    apply Forall_replicate, length_replicate.
  - intros i j row cell Hi Hj. simpl in Hi.
    apply lookup_replicate in Hi as [-> _]. apply lookup_replicate in Hj as [-> _].
    split; [by intros [? ?] | done].
Qed.

(** One iteration of the loop on an entry of a QKV part. *)
Lemma gi_step_qkv mapping cfg inits name arr target p :
  mapping !! name = Some target →
  py_last3 target = "QKV" →
  py_index_neg2 (py_split "/"%char name) = Ok (part_name p) →
  gi_step zero cast mapping cfg inits (name, arr)
  = (buf <~ (match inits !! target with
             | Some buf => Ok buf
             | None =>
                 c <~ shape1 (narrow cast cfg arr);;
                 Ok (np_empty (shape0 (narrow cast cfg arr)) (c * 3)
                       (dtype (narrow cast cfg arr)))
             end);;
     buf' <~ assign_columns cast buf (part_range (hidden_size cfg) p).1
               (part_range (hidden_size cfg) p).2 (narrow cast cfg arr);;
     Ok (<[target := buf']> inits)).
Proof.
  intros Hmap Hqkv Hpart. unfold gi_step. rewrite (getitem_Some _ _ _ Hmap).
  cbn [rbind]. rewrite decide_True by done. rewrite Hpart. cbn [rbind].
  destruct (inits !! target) as [buf|] eqn:E; cbn [rbind].
  - rewrite getitem_range. cbn [rbind]. by rewrite (getitem_Some _ _ _ E).
  - destruct (shape1 _) as [c|]; cbn [rbind]; [|done].
    rewrite getitem_range. cbn [rbind].
    rewrite (getitem_Some _ _ _ (lookup_insert_eq _ _ _)). cbn [rbind].
    destruct (assign_columns _ _ _ _ _); cbn [rbind]; [|done].
    by rewrite insert_insert_eq.
Qed.

Lemma in_slice_cons h p ps j :
  in_slice h (p :: ps) j ↔ (part_range h p).1 ≤ j < (part_range h p).2 ∨ in_slice h ps j.
Proof.
  unfold in_slice. split.
  - intros (p' & [->|Hin]%elem_of_cons & Hj); [by left | right; by exists p'].
  - intros [Hj|(p' & Hin & Hj)]; [exists p | exists p']; (split; [|done]).
    + apply list_elem_of_here.
    + by apply list_elem_of_further.
Qed.

(** The rest of the parts of a layer, once its buffer exists: whatever
    their shapes, the buffer keeps its shape and dtype, and the columns
    determined are those of the slices written. *)
Lemma for_each_qkv mapping cfg target es : ∀ buf r C D m,
  py_last3 target = "QKV" →
  Forall (qkv_part_entry mapping target) es →
  Forall (λ e, well_shaped e.2.2) es →
  has_shape r C buf → determined_columns D buf →
  for_each (gi_step zero cast mapping cfg) {[ target := buf ]} es.*2 = Ok m →
  ∃ buf', m = {[ target := buf' ]} ∧ has_shape r C buf' ∧ dtype buf' = dtype buf ∧
          determined_columns (λ j, D j ∨ in_slice (hidden_size cfg) es.*1 j) buf'.
Proof.
  induction es as [|[p [name arr]] es IH]; intros buf r C D m Hqkv Hent Hws Hshape HD Hrun.
  - injection Hrun as <-. exists buf. split; [done|]. split; [done|]. split; [done|].
    eapply determined_columns_iff; [|exact HD]. intros j. split; [by left|].
    by intros [?|(? & []%elem_of_nil & _)].
  - apply Forall_cons in Hent as [[Hmap Hpart] Hent].
    apply Forall_cons in Hws as [Harr Hws]. simpl in *.
    rewrite (gi_step_qkv mapping cfg _ name arr target p Hmap Hqkv Hpart) in Hrun.
    rewrite lookup_singleton_eq in Hrun. cbn [rbind] in Hrun.
    destruct (assign_columns _ _ _ _ _) as [buf1|] eqn:E; [|done]. cbn [rbind] in Hrun.
    rewrite insert_singleton_eq in Hrun.
    destruct (assign_columns_effect _ _ r C _ _ _ D Hshape
                (well_shaped_narrow cfg _ Harr) HD E) as (Hshape1 & Hdt1 & HD1).
    destruct (IH _ _ _ _ _ Hqkv Hent Hws Hshape1 HD1 Hrun) as (buf' & -> & Hs' & Hdt' & HD').
    exists buf'. split; [done|]. split; [done|]. split; [congruence|].
    eapply determined_columns_iff; [|exact HD']. intros j. simpl.
    rewrite in_slice_cons. tauto.
Qed.

(** The buffer of a layer takes its shape and its dtype from the part
    processed first. *)
Lemma qkv_buffer_of_first mapping cfg target e0 es r c m :
  py_last3 target = "QKV" →
  Forall (qkv_part_entry mapping target) (e0 :: es) →
  has_shape r c e0.2.2 →
  Forall (λ e, well_shaped e.2.2) es →
  generate_initializers zero cast mapping cfg (e0 :: es).*2.*1 (e0 :: es).*2.*2 = Ok m →
  ∃ buf, m = {[ target := buf ]} ∧
         has_shape r (c * 3) buf ∧ dtype buf = dtype (narrow cast cfg e0.2.2) ∧
         determined_columns (in_slice (hidden_size cfg) (e0 :: es).*1) buf.
Proof.
  destruct e0 as [p [name arr]]. intros Hqkv Hent Hshape Hws Hrun.
  unfold generate_initializers in Hrun. rewrite zip_fst_snd in Hrun.
  apply Forall_cons in Hent as [[Hmap Hpart] Hent]. simpl in *.
  rewrite (gi_step_qkv mapping cfg _ name arr target p Hmap Hqkv Hpart) in Hrun.
  rewrite lookup_empty in Hrun.
  pose proof (has_shape_narrow cfg _ _ _ Hshape) as Hn.
  assert (shape1 (narrow cast cfg arr) = Ok c ∧ shape0 (narrow cast cfg arr) = r) as [E1 E0].
  { destruct (narrow cast cfg arr) as [|? ? ?]; [done|]. by destruct Hn as (-> & <- & _). }
  rewrite E1, E0 in Hrun. cbn [rbind] in Hrun.
  destruct (assign_columns _ _ _ _ _) as [buf1|] eqn:E; [|done]. cbn [rbind] in Hrun.
  rewrite insert_empty in Hrun.
  destruct (np_empty_effect r (c * 3) (dtype (narrow cast cfg arr))) as [Hs0 HD0].
  destruct (assign_columns_effect _ _ _ _ _ _ _ _ Hs0
              (has_shape_well_shaped _ _ _ Hn) HD0 E) as (Hshape1 & Hdt1 & HD1).
  destruct (for_each_qkv _ _ _ _ _ _ _ _ _ Hqkv Hent Hws Hshape1 HD1 Hrun)
    as (buf' & -> & Hs' & Hdt' & HD').
  exists buf'. split; [done|]. split; [done|]. split; [by rewrite Hdt', Hdt1|].
  eapply determined_columns_iff; [|exact HD']. intros j. simpl.
  rewrite in_slice_cons. tauto.
Qed.

(** Parts of [r] rows of the configured width raise no error. *)
Lemma for_each_qkv_Ok mapping cfg target r es : ∀ buf,
  py_last3 target = "QKV" →
  Forall (qkv_part_entry mapping target) es →
  Forall (λ e, has_shape r (hidden_size cfg) e.2.2) es →
  has_shape r (hidden_size cfg * 3) buf →
  is_Ok (for_each (gi_step zero cast mapping cfg) {[ target := buf ]} es.*2).
Proof.
  induction es as [|[p [name arr]] es IH]; intros buf Hqkv Hent Hsh Hshape; [by eexists|].
  apply Forall_cons in Hent as [[Hmap Hpart] Hent].
  apply Forall_cons in Hsh as [Harr Hsh]. simpl in *.
  rewrite (gi_step_qkv mapping cfg _ name arr target p Hmap Hqkv Hpart).
  rewrite lookup_singleton_eq. cbn [rbind].
  pose proof (has_shape_narrow cfg _ _ _ Harr) as Hn.
  destruct (assign_part_Ok _ _ p _ _ Hshape Hn) as [buf1 E]. rewrite E. cbn [rbind].
  rewrite insert_singleton_eq. apply IH; try done.
  eapply assign_columns_shape; [exact Hshape | | exact E].
  by eapply has_shape_well_shaped.
Qed.

Lemma generate_qkv_Ok mapping cfg target e0 es r :
  py_last3 target = "QKV" →
  Forall (qkv_part_entry mapping target) (e0 :: es) →
  Forall (λ e, has_shape r (hidden_size cfg) e.2.2) (e0 :: es) →
  is_Ok (generate_initializers zero cast mapping cfg (e0 :: es).*2.*1 (e0 :: es).*2.*2).
Proof.
  destruct e0 as [p [name arr]]. intros Hqkv Hent Hsh.
  apply Forall_cons in Hent as [[Hmap Hpart] Hent].
  unfold generate_initializers. rewrite zip_fst_snd.
  apply Forall_cons in Hsh as [Harr Hsh]. simpl in *.
  rewrite (gi_step_qkv mapping cfg _ name arr target p Hmap Hqkv Hpart).
  rewrite lookup_empty.
  pose proof (has_shape_narrow cfg _ _ _ Harr) as Hn.
  assert (shape1 (narrow cast cfg arr) = Ok (hidden_size cfg)
          ∧ shape0 (narrow cast cfg arr) = r) as [E1 E0].
  { destruct (narrow cast cfg arr) as [|? ? ?]; [done|]. by destruct Hn as (-> & <- & _). }
  rewrite E1, E0. cbn [rbind].
  destruct (np_empty_effect r (hidden_size cfg * 3) (dtype (narrow cast cfg arr)))
    as [Hs0 HD0].
  destruct (assign_part_Ok _ _ p _ _ Hs0 Hn) as [buf1 E]. rewrite E. cbn [rbind].
  rewrite insert_empty. apply (for_each_qkv_Ok _ _ _ r); try done.
  eapply assign_columns_shape; [exact Hs0 | | exact E].
  by eapply has_shape_well_shaped.
Qed.

Lemma perm3_inv {A} (a b c : A) (l : list A) :
  l ≡ₚ [a; b; c] →
  l = [a; b; c] ∨ l = [a; c; b] ∨ l = [b; a; c] ∨
  l = [b; c; a] ∨ l = [c; a; b] ∨ l = [c; b; a].
Proof.
  intros H. apply Permutation_cons_inv_r in H as (l1 & l2 & -> & H).
  apply Permutation_length_2_inv in H as [H|H];
    destruct l1 as [|x [|y [|z l1]]]; simplify_eq/=; auto 10;
    destruct l1; simplify_eq/=.
Qed.

Ltac run_parts Hloop Hqkv Hst es :=
  let Hrun := fresh "Hrun" in
  pose proof (Hloop es ∅ _ Hqkv
    ltac:(repeat (apply Forall_cons_2; [assumption|]); apply Forall_nil_2)
    Hst ltac:(done)) as Hrun;
  rewrite insert_empty in Hrun; exact Hrun.

Ltac first_part Hfirst Hqkv es :=
  injection Hfirst as <- <-;
  let H := fresh "H" in
  intros H;
  eapply (qkv_buffer_of_first _ _ _ (hd (Query, ("", Vec OtherDType [])) es) (tl es))
    in H as (buf & -> & ? & ? & _);
  [by exists buf | exact Hqkv
  | repeat (apply Forall_cons_2; [done|]); apply Forall_nil_2
  | assumption
  | repeat (apply Forall_cons_2; [simpl; assumption|]); apply Forall_nil_2].



(** *** The word-embedding table *)


Lemma narrow_Mat cfg dt c rows :
  ∃ dt' rows', narrow cast cfg (Mat dt c rows) = Mat dt' c rows' ∧ length rows' = length rows.
Proof.
  unfold narrow. case_decide; [|by eauto]. simpl. case_decide; [by eauto|].
  eexists _, _. split; [done|]. apply length_fmap.
Qed.

Lemma pad_or_crop_Mat cfg dt c rows :
  (length rows < vocab_length cfg → c = hidden_size cfg) →
  pad_or_crop zero cfg (Mat dt c rows) = Ok (Mat dt c (resize_vocab zero (vocab_length cfg) c rows)).
Proof.
  intros Hc. unfold pad_or_crop, resize_vocab. simpl. case_decide as Hd.
  - rewrite <- Hc by lia. rewrite decide_True by done.
    rewrite take_ge by lia. do 4 f_equal. lia.
  - replace (vocab_length cfg - length rows) with 0 by lia.
    simpl. by rewrite app_nil_r.
Qed.

Lemma gi_step_embedding mapping cfg inits name dt c rows :
  mapping !! name = Some EMBEDDING_DICT →
  (length rows < vocab_length cfg → c = hidden_size cfg) →
  gi_step zero cast mapping cfg inits (name, Mat dt c rows)
  = Ok (<[EMBEDDING_DICT :=
           stored cfg EMBEDDING_DICT
             (Mat (dtype (narrow cast cfg (Mat dt c rows))) c
                (resize_vocab zero (vocab_length cfg) c
                   (rows_of (narrow cast cfg (Mat dt c rows)))))]> inits).
Proof.
  intros Hmap Hc. unfold gi_step. rewrite (getitem_Some _ _ _ Hmap). simpl.
  destruct (narrow_Mat cfg dt c rows) as (dt' & rows' & -> & Hlen).
  rewrite pad_or_crop_Mat by (by rewrite Hlen). done.
Qed.

Lemma gi_step_plain mapping cfg inits name arr target :
  mapping !! name = Some target →
  py_last3 target ≠ "QKV" → target ≠ EMBEDDING_DICT →
  gi_step zero cast mapping cfg inits (name, arr)
  = Ok (<[target := stored cfg target (narrow cast cfg arr)]> inits).
Proof.
  intros Hmap Hqkv Hemb. unfold gi_step. rewrite (getitem_Some _ _ _ Hmap). simpl.
  rewrite decide_False by done. by rewrite decide_False by done.
Qed.

Lemma length_resize_vocab T c rows : length (resize_vocab zero T c rows) = T.
Proof. unfold resize_vocab. rewrite length_app, length_take, length_replicate. lia. Qed.

Lemma resize_vocab_pad T c rows :
  length rows < T →
  take (length rows) (resize_vocab zero T c rows) = rows ∧
  ∀ i, length rows ≤ i < T → resize_vocab zero T c rows !! i = Some (replicate c zero).
Proof.
  intros Hlt. unfold resize_vocab. rewrite (take_ge rows T) by lia. split.
  - by rewrite take_app_length.
  - intros i Hi. rewrite lookup_app_r by lia. apply lookup_replicate_2. lia.
Qed.

Lemma resize_vocab_crop T c rows :
  T ≤ length rows → resize_vocab zero T c rows = take T rows.
Proof.
  intros Hle. unfold resize_vocab. replace (T - length rows) with 0 by lia.
  simpl. apply app_nil_r.
Qed.

(** An iteration only writes the entry of its own target. *)
Lemma gi_step_frame mapping cfg inits e m target k :
  gi_step zero cast mapping cfg inits e = Ok m →
  mapping !! e.1 = Some target → k ≠ target →
  m !! k = inits !! k.
Proof.
  destruct e as [name arr]. intros Hstep Hmap Hk. simpl in Hmap.
  unfold gi_step in Hstep. rewrite (getitem_Some _ _ _ Hmap) in Hstep.
  cbn [rbind] in Hstep.
  repeat match type of Hstep with
  | Ok _ = Ok _ => injection Hstep as <-
  | Raise _ = Ok _ => discriminate Hstep
  | (if ?c then _ else _) = _ => destruct c
  | rbind ?x _ = _ => destruct x eqn:?; cbn [rbind] in Hstep
  end.
  - rewrite lookup_insert_ne by done.
    destruct (inits !! target) eqn:E; simplify_eq; [done|].
    match goal with H : rbind ?x _ = _ |- _ => destruct x; simplify_eq/= end.
    by rewrite lookup_insert_ne.
  - by rewrite lookup_insert_ne.
Qed.


Lemma for_each_frame mapping cfg target post : ∀ inits m,
  for_each (gi_step zero cast mapping cfg) inits post = Ok m →
  Forall (λ e, mapping !! e.1 ≠ Some target) post →
  m !! target = inits !! target.
Proof.
  induction post as [|e post IH]; intros inits m Hrun Hall; simpl in Hrun.
  - by injection Hrun as <-.
  - apply Forall_cons in Hall as [He Hall].
    destruct (gi_step zero cast mapping cfg inits e) as [m1|] eqn:E; [|done].
    simpl in Hrun. rewrite (IH _ _ Hrun Hall).
    destruct (mapping !! e.1) as [t|] eqn:Et.
    + eapply gi_step_frame; [done..|]. congruence.
    + destruct e as [name arr]. unfold gi_step, getitem in E. simpl in Et.
      by rewrite Et in E.
Qed.

(** The last entry written for a target decides what the result holds. *)
Lemma for_each_last_write mapping cfg target pre e post inits m :
  for_each (gi_step zero cast mapping cfg) inits (pre ++ e :: post) = Ok m →
  Forall (λ e', mapping !! e'.1 ≠ Some target) post →
  ∃ inits1 m1,
    for_each (gi_step zero cast mapping cfg) inits pre = Ok inits1 ∧
    gi_step zero cast mapping cfg inits1 e = Ok m1 ∧
    m !! target = m1 !! target.
Proof.
  intros Hrun Hpost. rewrite for_each_app in Hrun.
  destruct (for_each _ inits pre) as [inits1|] eqn:E1; [|done].
  simpl in Hrun.
  destruct (gi_step zero cast mapping cfg inits1 e) as [m1|] eqn:E2; [|done].
  simpl in Hrun. exists inits1, m1. repeat split; [done|].
  by eapply for_each_frame.
Qed.

Lemma generate_initializers_single mapping cfg name arr :
  generate_initializers zero cast mapping cfg [name] [arr]
  = gi_step zero cast mapping cfg ∅ (name, arr).
Proof.
  unfold generate_initializers. simpl.
  by destruct (gi_step zero cast mapping cfg ∅ (name, arr)).
Qed.

(** C4 (amended).  For a word-embedding table of [V] rows and a configured
    vocabulary of [T] rows (the table's width being the configured hidden
    size when rows have to be added), let [out] be the dtype-narrowed table
    cut or zero-padded to [T] rows.  [out] has exactly [T] rows; when
    [V < T] its first [V] rows are the narrowed input and rows [V..T) are
    all zero; when [T <= V] it is the first [T] rows of the narrowed input.
    The table stored under [Embedding/Embedding_Dict] is [out] when
    "gather" is not one of the custom ops, and the transpose of [out]
    when it is.  This holds for a checkpoint made of that entry alone and
    for any checkpoint processed without error in which no later entry
    maps to the same target.  An entry of a tensor that is neither the
    embedding table nor a QKV part is stored as it is (narrowed, and
    transposed in the gather case of the positional table): no rows are
    added or dropped. *)
Theorem vocab_pad_or_crop
    (mapping : gmap string string) (cfg : BertConfig) (name : string)
    (dt : DType) (c : nat) (rows : list (list elt)) :
  let table := Mat dt c rows in
  let T := vocab_length cfg in
  let V := length rows in
  let out := resize_vocab zero T c (rows_of (narrow cast cfg table)) in
  let full := Mat (dtype (narrow cast cfg table)) c out in
  let kept := amap Some (if decide ("gather" ∈ custom_ops cfg) then transpose full else full) in
  mapping !! name = Some EMBEDDING_DICT →
  (V < T → c = hidden_size cfg) →
  length out = T
  ∧ (V < T → take V out = rows_of (narrow cast cfg table)
             ∧ ∀ i, V ≤ i < T → out !! i = Some (replicate c zero))
  ∧ (T ≤ V → out = take T (rows_of (narrow cast cfg table)))
  ∧ generate_initializers zero cast mapping cfg [name] [table]
    = Ok {[ EMBEDDING_DICT := kept ]}
  ∧ (∀ pre post m,
       Forall (λ e, mapping !! e.1 ≠ Some EMBEDDING_DICT) post →
       generate_initializers zero cast mapping cfg
         (pre ++ (name, table) :: post).*1 (pre ++ (name, table) :: post).*2 = Ok m →
       m !! EMBEDDING_DICT = Some kept)
  ∧ (∀ pre post m name' arr target,
       mapping !! name' = Some target →
       py_last3 target ≠ "QKV" → target ≠ EMBEDDING_DICT →
       Forall (λ e, mapping !! e.1 ≠ Some target) post →
       generate_initializers zero cast mapping cfg
         (pre ++ (name', arr) :: post).*1 (pre ++ (name', arr) :: post).*2 = Ok m →
       m !! target = Some (stored cfg target (narrow cast cfg arr))).
Proof.
  intros table T V out full kept Hmap Hc.
  destruct (narrow_Mat cfg dt c rows) as (dt' & rows' & Enarrow & Hlen).
  assert (Hstep : ∀ inits,
    gi_step zero cast mapping cfg inits (name, table) = Ok (<[EMBEDDING_DICT := kept]> inits)).
  { intros inits. subst table. rewrite gi_step_embedding by done.
    do 2 f_equal. unfold stored, kept. f_equal.
    destruct (decide ("gather" ∈ custom_ops cfg)) as [Hg|Hg].
    - rewrite decide_True; [done|]. split; [done | apply list_elem_of_here].
    - rewrite decide_False; [done|]. by intros [? _]. }
  subst out full table T V. rewrite Enarrow in *. simpl in *.
  split; [apply length_resize_vocab|].
  split; [intros Hlt; rewrite <- Hlen; apply resize_vocab_pad; lia|].
  split; [intros Hle; apply resize_vocab_crop; lia|].
  split; [by rewrite generate_initializers_single, Hstep, insert_empty|].
  split.
  - intros pre post m Hpost Hrun. unfold generate_initializers in Hrun.
    rewrite zip_fst_snd in Hrun.
    apply (for_each_last_write _ _ EMBEDDING_DICT) in Hrun
      as (inits1 & m1 & _ & Hm1 & ->); [|done].
    rewrite Hstep in Hm1. injection Hm1 as <-. by rewrite lookup_insert_eq.
  - intros pre post m name' arr target Hmap' Hqkv Hemb Hpost Hrun.
    unfold generate_initializers in Hrun. rewrite zip_fst_snd in Hrun.
    apply (for_each_last_write _ _ target) in Hrun
      as (inits1 & m1 & _ & Hm1 & ->); [|done].
    rewrite (gi_step_plain _ _ _ _ _ target) in Hm1 by done.
    injection Hm1 as <-. by rewrite lookup_insert_eq.
Qed.

End Facts.

(** *** Concrete checkpoints *)

Example qkv_small_concat :
  generate_initializers 0%Z id_cast (get_tf_mapping cfg_small) cfg_small
    [name_k; name_v; name_q] [k_small; v_small; q_small]
  = Ok {[ "Layer0/Attention/QKV" :=
          Mat Float32 6 [[Some 1; Some 2; Some 5; Some 6; Some 9; Some 10];
                         [Some 3; Some 4; Some 7; Some 8; Some 11; Some 12]]%Z ]}.
Proof. vm_compute. reflexivity. Qed.




Lemma vocab_pad_or_crop_witness :
  generate_initializers 0%Z id_cast (get_tf_mapping cfg_gather) cfg_gather
    [name_emb] [Mat Float32 3 [[1; 2; 3]]%Z]
  = Ok {[ EMBEDDING_DICT :=
          Mat Float32 2 [[Some 1; Some 0]; [Some 2; Some 0]; [Some 3; Some 0]]%Z ]}.
Proof.
  apply (vocab_pad_or_crop 0%Z id_cast (get_tf_mapping cfg_gather) cfg_gather
           name_emb Float32 3 [[1; 2; 3]]%Z).
  - vm_compute. reflexivity.
  - reflexivity.
Defined.

(** C4 as stated fails when "gather" is a custom op: one checkpoint row
    of width 3, padded to a vocabulary of 2, is stored as a table of 3
    rows and 2 columns. *)
Lemma vocab_rows_counterexample :
  ∃ out,
    generate_initializers 0%Z id_cast (get_tf_mapping cfg_gather) cfg_gather
      [name_emb] [Mat Float32 3 [[1; 2; 3]]%Z]
    = Ok {[ EMBEDDING_DICT := out ]}
    ∧ shape0 out = 3 ∧ shape0 out ≠ vocab_length cfg_gather.
Proof.
  exists (Mat Float32 2 [[Some 1; Some 0]; [Some 2; Some 0]; [Some 3; Some 0]]%Z).
  split; [vm_compute; reflexivity | split; [reflexivity | discriminate]].
Qed.

End LoaderFacts.

(** * Properties of bert.py *)

Module BertFacts.
Import Bert.

(** ** The iteration object and the training loop *)

Section BertFacts.
Context {OptimizerFactory Optimizer : Type}.
Variable should_update : OptimizerFactory → Iteration → bool.
Variable update_and_create : OptimizerFactory → Iteration → OptimizerFactory * Optimizer.
Local Abbreviation State := (State OptimizerFactory Optimizer).


Lemma window_ok_append {A} cap (x : A) d :
  window_ok cap d → window_ok cap (deque_append x d).
Proof.
  intros [Hm Hl]. unfold deque_append, window_ok. simpl. split; [done|].
  case_decide as Hlt; rewrite ?length_drop, length_app in *; simpl in *; lia.
Qed.

Lemma items_append {A} (x : A) d :
  deque_wf d → items (deque_append x d) = lastn (maxlen d) (items d ++ [x]).
Proof.
  unfold deque_wf, deque_append, lastn. simpl. intros Hwf.
  rewrite length_app. simpl. case_decide as Hlt.
  - f_equal. lia.
  - replace (length (items d) + 1 - maxlen d) with 0 by lia. done.
Qed.

Lemma lastn_app_lastn {A} n (l k : list A) :
  lastn n (lastn n l ++ k) = lastn n (l ++ k).
Proof.
  unfold lastn. rewrite !length_app, !length_drop.
  rewrite !drop_app, drop_drop, length_drop. f_equal; f_equal; lia.
Qed.

Lemma items_foldl_append {A} (xs : list A) : ∀ d,
  deque_wf d →
  deque_wf (foldl (λ d x, deque_append x d) d xs) ∧
  maxlen (foldl (λ d x, deque_append x d) d xs) = maxlen d ∧
  items (foldl (λ d x, deque_append x d) d xs) = lastn (maxlen d) (items d ++ xs).
Proof.
  induction xs as [|x xs IH]; intros d Hwf; simpl.
  - split; [done|]. split; [done|]. rewrite app_nil_r. unfold lastn.
    unfold deque_wf in Hwf. by replace (length (items d) - maxlen d) with 0 by lia.
  - assert (Hwf' : deque_wf (deque_append x d)).
    { by apply (window_ok_append (maxlen d) x d). }
    destruct (IH _ Hwf') as (H1 & H2 & H3). split; [done|]. split; [done|].
    rewrite H3. change (maxlen (deque_append x d)) with (maxlen d).
    rewrite items_append by done.
    rewrite lastn_app_lastn. by rewrite <- app_assoc.
Qed.

Local Arguments bert_output_stats : simpl never.
Local Arguments bert_pretraining_stats : simpl never.
Local Arguments deque_append : simpl never.
Local Arguments average : simpl never.
Local Arguments list_getitem : simpl never.

(** *** A weakest-precondition calculus for [M] *)


Lemma post_intro {A} (m : M _ _ A) (s : State) Q :
  (∀ r s', m s = (r, s') → Q r s') → post m s Q.
Proof. intros H. unfold post. apply H. by destruct (m s). Qed.

Lemma post_elim {A} (m : M _ _ A) (s : State) Q r s' :
  post m s Q → m s = (r, s') → Q r s'.
Proof. unfold post. intros H E. by rewrite E in H. Qed.

Lemma post_bind {A B} (m : M _ _ A) (f : A → M _ _ B) (s : State) Q :
  post m s (λ r s', match r with
                    | Ok a => post (f a) s' Q
                    | Raise e => Q (Raise e) s'
                    end) →
  post (bind _ _ m f) s Q.
Proof. unfold post, bind. by destruct (m s) as [[a|e] s']. Qed.

Lemma post_ret {A} (a : A) (s : State) (Q : res A → State → Prop) :
  Q (Ok a) s → post (ret _ _ a) s Q.
Proof. done. Qed.

Lemma post_raise {A} e (s : State) (Q : res A → State → Prop) :
  Q (Raise e) s → post (raise _ _ e) s Q.
Proof. done. Qed.

Lemma post_lift {A} (r : res A) (s : State) (Q : res A → State → Prop) :
  Q r s → post (lift _ _ r) s Q.
Proof. done. Qed.

Lemma post_get (s : State) (Q : res State → State → Prop) :
  Q (Ok s) s → post (get _ _) s Q.
Proof. done. Qed.

Lemma post_modify f (s : State) (Q : res unit → State → Prop) :
  Q (Ok tt) (f s) → post (modify _ _ f) s Q.
Proof. done. Qed.

Lemma post_modify_iteration f (s : State) (Q : res unit → State → Prop) :
  Q (Ok tt) (set_iteration (f (iteration s)) s) → post (modify_iteration _ _ f) s Q.
Proof. done. Qed.

Lemma post_mono {A} (m : M _ _ A) (s : State) (Q Q' : res A → State → Prop) :
  post m s Q → (∀ r s', Q r s' → Q' r s') → post m s Q'.
Proof. unfold post. auto. Qed.

Ltac wp_step :=
  lazymatch goal with
  | |- post (bind _ _ _ _) _ _ => apply post_bind
  | |- post (ret _ _ _) _ _ => apply post_ret
  | |- post (raise _ _ _) _ _ => apply post_raise
  | |- post (lift _ _ _) _ _ => apply post_lift
  | |- post (get _ _) _ _ => apply post_get
  | |- post (modify _ _ _) _ _ => apply post_modify
  | |- post (modify_iteration _ _ _) _ _ => apply post_modify_iteration
  | |- post (match ?x with _ => _ end) _ _ => destruct x eqn:?
  | |- match ?r with Ok _ => _ | Raise _ => _ end => destruct r eqn:?
  end.

Ltac wp := repeat wp_step.

Lemma add_stats_windows cap d hw labels losses preds (s : State) :
  windows_bounded cap (iteration s) →
  post (add_stats d hw labels losses preds) s
    (λ _ s', windows_bounded cap (iteration s')).
Proof.
  intros (Hd & Hc & Hw). unfold add_stats, call_stats_fn.
  pose proof (window_ok_append cap d _ Hd) as Hd'.
  wp; simpl in *; unfold windows_bounded; simpl.
  all: try match goal with
       | H : windows (iteration _) = _ |- _ => rewrite H in *; simpl in *
       end.
  all: intuition (auto using window_ok_append).
Qed.


Lemma same_settings_refl i : same_settings i i.
Proof. by repeat split. Qed.

Lemma same_settings_trans i j k :
  same_settings i j → same_settings j k → same_settings i k.
Proof. unfold same_settings. intuition congruence. Qed.

(** What [add_stats] leaves alone, whatever its outcome. *)
Lemma add_stats_frame d hw labels losses preds (s : State) :
  post (add_stats d hw labels losses preds) s
    (λ _ s', same_settings (iteration s) (iteration s') ∧
             count (iteration s') = count (iteration s) ∧
             factory s' = factory s ∧ reports s' = reports s ∧ runs s' = runs s ∧
             optimizers s' = optimizers s ∧ saved s' = saved s).
Proof.
  unfold add_stats, call_stats_fn. wp; simpl in *; by repeat split.
Qed.

(** On success the duration has been appended to its window. *)
Lemma add_stats_durations d hw labels losses preds (s : State) :
  post (add_stats d hw labels losses preds) s
    (λ r s', r = Ok tt →
             durations (iteration s') = deque_append d (durations (iteration s))).
Proof.
  unfold add_stats, call_stats_fn. wp; simpl in *; done.
Qed.

Lemma post_conj {A} (m : M _ _ A) (s : State) (Q Q' : res A → State → Prop) :
  post m s Q → post m s Q' → post m s (λ r s', Q r s' ∧ Q' r s').
Proof. unfold post. auto. Qed.

Lemma lastn_all {A} n (l : list A) : length l ≤ n → lastn n l = l.
Proof. intros H. unfold lastn. by replace (length l - n) with 0 by lia. Qed.

Lemma evolves_refl {A} cap (d : deque A) : window_ok cap d → evolves cap d d.
Proof. intros [_ H]. exists []. by rewrite app_nil_r, lastn_all. Qed.

Lemma evolves_append {A} cap (x : A) d : window_ok cap d → evolves cap d (deque_append x d).
Proof.
  intros [Hm Hl]. exists [x]. rewrite items_append by (unfold deque_wf; lia). by rewrite Hm.
Qed.

Lemma evolves_trans {A} cap (d1 d2 d3 : deque A) :
  evolves cap d1 d2 → evolves cap d2 d3 → evolves cap d1 d3.
Proof.
  intros [xs Hxs] [ys Hys]. exists (xs ++ ys).
  by rewrite Hys, Hxs, lastn_app_lastn, app_assoc.
Qed.

Lemma windows_evolve_refl cap w : windows_ok cap w → windows_evolve cap w w.
Proof. destruct w; simpl; intuition (auto using evolves_refl). Qed.

Lemma windows_evolve_trans cap w1 w2 w3 :
  windows_evolve cap w1 w2 → windows_evolve cap w2 w3 → windows_evolve cap w1 w3.
Proof.
  destruct w1, w2, w3; simpl; try tauto; intuition (eauto using evolves_trans).
Qed.

Lemma iteration_evolves_refl cap i : windows_bounded cap i → iteration_evolves cap i i.
Proof.
  intros (? & ? & ?). repeat split; auto using evolves_refl, windows_evolve_refl.
Qed.

Lemma iteration_evolves_trans cap i1 i2 i3 :
  iteration_evolves cap i1 i2 → iteration_evolves cap i2 i3 → iteration_evolves cap i1 i3.
Proof.
  intros (? & ? & ?) (? & ? & ?).
  repeat split; eauto using evolves_trans, windows_evolve_trans.
Qed.

(** Each window changes by appends only. *)
Lemma add_stats_evolves cap d hw labels losses preds (s : State) :
  windows_bounded cap (iteration s) →
  post (add_stats d hw labels losses preds) s
    (λ _ s', iteration_evolves cap (iteration s) (iteration s')).
Proof.
  intros (Hd & Hc & Hw). unfold add_stats, call_stats_fn.
  wp; simpl in *; unfold iteration_evolves; simpl.
  all: try match goal with
       | H : windows (iteration _) = _ |- _ => rewrite H in *; simpl in *
       end.
  all: intuition (auto using evolves_refl, evolves_append, windows_evolve_refl).
Qed.

Lemma Iteration_init_windows args bps spe rs i :
  Iteration_init args bps spe rs = Ok i →
  windows_bounded (Z.to_nat (default spe rs)) i ∧ items (durations i) = [].
Proof.
  unfold Iteration_init.
  change (match rs with Some n => n | None => spe end) with (default spe rs).
  generalize (default spe rs). intros n H. unfold deque_new in H.
  destruct (decide (n < 0)%Z); [done|]. simpl in H.
  destruct (decide (task args = PRETRAINING)); simpl in H;
    injection H as <-; repeat split; simpl; lia.
Qed.

Lemma bert_pretraining_stats_pair labels (anchors : Anchors) losses preds r :
  bert_pretraining_stats labels anchors losses preds = Ok r →
  ∃ v, (r.2.1, r.2.2) = ([v.1.1; v.1.2], [v.2.1; v.2.2]).
Proof.
  unfold bert_pretraining_stats. intros H.
  repeat match type of H with
  | rbind ?x _ = _ => destruct x; cbn [rbind] in H; [|discriminate H]
  end.
  injection H as <-. simpl. by eexists ((_, _), (_, _)).
Qed.

(** What a call of [add_stats] inserts in each window: the duration and
    the cycle count in any case, the statistics when it returns. *)
Lemma add_stats_inserts d hw labels losses preds (s : State) :
  post (add_stats d hw labels losses preds) s
    (λ r s',
       let i := iteration s in
       let i' := iteration s' in
       stats_fn i' = stats_fn i ∧
       durations i' = deque_append d (durations i) ∧
       cycles i' = match hw with
                   | Some n => if decide (n = 0%Z) then cycles i
                               else deque_append n (cycles i)
                   | None => cycles i
                   end ∧
       match r with
       | Raise _ => windows i' = windows i
       | Ok _ =>
           match windows i with
           | SingleWindows ls acs =>
               ∃ v, run_stats_fn (stats_fn i) labels (anchors s) losses preds
                    = Ok (anchors s', scalar_stats v) ∧
                    windows i' = SingleWindows (deque_append v.1 ls) (deque_append v.2 acs)
           | PretrainingWindows ml nl ma na =>
               ∃ v, run_stats_fn (stats_fn i) labels (anchors s) losses preds
                    = Ok (anchors s', pair_stats v) ∧
                    windows i' = PretrainingWindows
                                   (deque_append v.1.1 ml) (deque_append v.1.2 nl)
                                   (deque_append v.2.1 ma) (deque_append v.2.2 na)
           end
       end).
Proof.
  unfold add_stats, call_stats_fn, run_stats_fn. wp; simpl in *.
  all: rewrite ?decide_True, ?decide_False by done.
  all: repeat (split; [done|]); try done.
  all: repeat match goal with
       | H : windows _ = _ |- _ => rewrite H
       | H : stats_fn _ = _ |- _ => rewrite H
       | H : bert_output_stats _ _ _ _ _ = Ok _ |- _ => rewrite H
       end.
  all: cbn [rbind].
  all: try (match goal with a : (Anchors * (float * float))%type |- _ =>
              destruct a as [anc [l a]] end; by exists (l, a)).
  all: match goal with H : bert_pretraining_stats _ _ _ _ = Ok ?r |- _ =>
         destruct (bert_pretraining_stats_pair _ _ _ _ _ H) as [[[x0 x1] [y0 y1]] Hv];
         rewrite ?H; cbn [rbind]; destruct r as [anc [ls acs]];
         simpl in Hv; injection Hv as -> ->;
         unfold list_getitem in *; simplify_eq/=;
         eexists ((_, _), (_, _)); split; reflexivity end.
Qed.

Lemma stats_returned_cons fn (anchors anchors' : Anchors) c calls st sts :
  run_stats_fn fn (c_labels c) anchors (c_losses c) (c_predictions c) = Ok (anchors', st) →
  stats_returned fn anchors' calls = Ok sts →
  stats_returned fn anchors (c :: calls) = Ok (st :: sts).
Proof. intros H1 H2. simpl. rewrite H1. simpl. by rewrite H2. Qed.

Lemma items_append_lastn {A} cap (x : A) d xs :
  window_ok cap d →
  lastn cap (items (deque_append x d) ++ xs) = lastn cap (items d ++ x :: xs).
Proof.
  intros [Hm Hl]. rewrite items_append by (unfold deque_wf; lia).
  rewrite Hm, lastn_app_lastn. by rewrite <- app_assoc.
Qed.

Lemma items_append_only {A} cap (x : A) d :
  window_ok cap d → items (deque_append x d) = lastn cap (items d ++ [x]).
Proof. intros [Hm Hl]. rewrite items_append by (unfold deque_wf; lia). by rewrite Hm. Qed.

Lemma windows_unchanged cap w w' :
  w' = w → windows_ok cap w →
  match w, w' with
  | SingleWindows ls acs, SingleWindows ls' acs' =>
      ∃ vals : list (float * float),
        Ok [] = Ok (scalar_stats <$> vals) ∧
        items ls' = lastn cap (items ls ++ vals.*1) ∧
        items acs' = lastn cap (items acs ++ vals.*2)
  | PretrainingWindows ml nl ma na, PretrainingWindows ml' nl' ma' na' =>
      ∃ vals : list ((float * float) * (float * float)),
        Ok [] = Ok (pair_stats <$> vals) ∧
        items ml' = lastn cap (items ml ++ vals.*1.*1) ∧
        items nl' = lastn cap (items nl ++ vals.*1.*2) ∧
        items ma' = lastn cap (items ma ++ vals.*2.*1) ∧
        items na' = lastn cap (items na ++ vals.*2.*2)
  | _, _ => False
  end.
Proof.
  intros ->. destruct w; simpl; intros Hw; exists []; simpl;
    rewrite !app_nil_r, !lastn_all by apply Hw; done.
Qed.

(** C6.  For every Iteration object whose windows have capacity [cap] and
    every sequence of [add_stats] calls, whether the calls all return or
    one of them raises: every rolling window (durations, cycles, losses,
    accuracies) still has capacity [cap] and holds at most [cap] entries,
    and it holds exactly the last [cap] items of its former content
    followed by the values inserted since, in insertion order (the oldest
    entries are the ones evicted).  The values inserted are, with [k] the
    number of calls that returned: in the duration window, the durations
    of the calls entered (the [k] that returned and the one that raised,
    if any); in the cycle window, their cycle counts, those that are
    [None] or 0 left out; in each loss and accuracy window, the figure
    that the statistics function returned to each of the [k] calls. *)
Theorem rolling_windows_bounded (cap : nat) (calls : list StatsCall) (s : State) :
  windows_bounded cap (iteration s) →
  post (add_stats_calls calls) s
    (λ r s',
       let i := iteration s in
       let i' := iteration s' in
       windows_bounded cap i' ∧
       iteration_evolves cap i i' ∧
       ∃ k,
         match r with Ok _ => k = length calls | Raise _ => k < length calls end ∧
         let returned := take k calls in
         let entered := take (match r with Ok _ => k | Raise _ => S k end) calls in
         items (durations i') = lastn cap (items (durations i) ++ (c_duration <$> entered)) ∧
         items (cycles i') = lastn cap (items (cycles i) ++ omap counted_cycles entered) ∧
         match windows i, windows i' with
         | SingleWindows ls acs, SingleWindows ls' acs' =>
             ∃ vals,
               stats_returned (stats_fn i) (anchors s) returned
               = Ok (scalar_stats <$> vals) ∧
               items ls' = lastn cap (items ls ++ vals.*1) ∧
               items acs' = lastn cap (items acs ++ vals.*2)
         | PretrainingWindows ml nl ma na, PretrainingWindows ml' nl' ma' na' =>
             ∃ vals,
               stats_returned (stats_fn i) (anchors s) returned
               = Ok (pair_stats <$> vals) ∧
               items ml' = lastn cap (items ml ++ vals.*1.*1) ∧
               items nl' = lastn cap (items nl ++ vals.*1.*2) ∧
               items ma' = lastn cap (items ma ++ vals.*2.*1) ∧
               items na' = lastn cap (items na ++ vals.*2.*2)
         | _, _ => False
         end).
Proof.
  revert s. induction calls as [|c calls IH]; intros s Hs; unfold add_stats_calls; simpl.
  - apply post_ret. split; [done|]. split; [by apply iteration_evolves_refl|].
    exists 0. split; [done|]. simpl. rewrite !app_nil_r.
    destruct Hs as ([_ Hd] & [_ Hc] & Hw).
    rewrite !lastn_all by done. split; [done|]. split; [done|].
    by apply windows_unchanged.
  - apply post_bind.
    eapply post_mono.
    { apply post_conj; [apply (add_stats_windows cap); exact Hs|].
      apply post_conj; [apply (add_stats_evolves cap); exact Hs | apply add_stats_inserts]. }
    intros r s1 (Hs1 & He1 & Hfn & Hd1 & Hc1 & Hw1).
    assert (Hcyc : ∀ xs, lastn cap (items (cycles (iteration s1)) ++ xs)
                         = lastn cap (items (cycles (iteration s))
                                      ++ omap counted_cycles [c] ++ xs)).
    { intros xs. rewrite Hc1. simpl. unfold counted_cycles.
      destruct (c_hw_cycles c) as [n|]; [|done]. case_decide; [done|].
      apply items_append_lastn, Hs. }
    destruct r as [[]|e].
    + eapply post_mono; [apply (IH s1 Hs1)|].
      intros r s2 (Hs2 & He2 & k & Hk & Hd2 & Hc2 & Hw2). split; [done|].
      split; [by eapply iteration_evolves_trans|].
      exists (S k). split; [destruct r; simpl; lia|].
      assert (Hent : take (match r with Ok _ => S k | Raise _ => S (S k) end) (c :: calls)
                     = c :: take (match r with Ok _ => k | Raise _ => S k end) calls)
        by by destruct r.
      cbv zeta. rewrite Hent. clear Hent. simpl take.
      destruct Hs as (Hd & Hc & Hw).
      split; [|split].
      * rewrite Hd2, Hd1, fmap_cons. by apply items_append_lastn.
      * rewrite Hc2, Hcyc. do 2 f_equal. simpl. by destruct (counted_cycles c).
      * rewrite Hfn in Hw2. destruct (windows (iteration s)) as [ml nl ma na|ls acs];
          destruct Hw1 as (v & Hrun & Hw1); rewrite Hw1 in Hw2;
          destruct (windows (iteration s2)); try done;
          destruct Hw2 as (vals & Hret & Hw2); exists (v :: vals);
          (split; [by apply (stats_returned_cons _ _ _ _ _ _ _ Hrun)|]);
          simpl in Hw; rewrite !fmap_cons; simpl.
        -- destruct Hw2 as (-> & -> & -> & ->). destruct Hw as (? & ? & ? & ?).
           by rewrite !items_append_lastn.
        -- destruct Hw2 as (-> & ->). destruct Hw as (? & ?).
           by rewrite !items_append_lastn.
    + split; [done|]. split; [done|]. exists 0. split; [simpl; lia|].
      cbv zeta. simpl take. destruct Hs as (Hd & Hc & Hw).
      split; [|split].
      * rewrite Hd1. by apply items_append_only.
      * rewrite <- (app_nil_r (items (cycles (iteration s1)))).
        rewrite <- (lastn_all cap (items (cycles (iteration s1)) ++ [])).
        -- rewrite Hcyc. by rewrite app_nil_r.
        -- rewrite app_nil_r. apply Hs1.
      * by apply windows_unchanged.
Qed.

(** C8.  [report_stats] leaves the Iteration object, the anchors and every
    other part of the state as they were, whether it returns or raises;
    the only effect, when it returns, is one logged line, whose throughput
    is the average of [samples_per_step] divided by each recorded
    duration. *)
Theorem report_stats_no_mutation (s : State) :
  post report_stats s
    (λ r s',
       iteration s' = iteration s ∧ anchors s' = anchors s ∧ factory s' = factory s ∧
       scalars s' = scalars s ∧ runs s' = runs s ∧ optimizers s' = optimizers s ∧
       saved s' = saved s ∧
       match r with
       | Ok _ =>
           ∃ line, reports s' = reports s ++ [line] ∧
             r_throughput line
             = np_mean ((λ d, fdiv (of_Z (samples_per_step (iteration s))) d)
                          <$> items (durations (iteration s))) ∧
             r_iteration line = count (iteration s) ∧
             r_duration line = average (durations (iteration s))
       | Raise _ => s' = s
       end).
Proof.
  unfold report_stats. wp; simpl; repeat split; try done; eexists; by repeat split.
Qed.

(** What [report_stats] leaves alone, whatever its outcome. *)
Lemma report_stats_frame (s : State) :
  post report_stats s
    (λ _ s', iteration s' = iteration s ∧ factory s' = factory s ∧
             runs s' = runs s ∧ saved s' = saved s).
Proof. unfold report_stats. wp; simpl; by repeat split. Qed.

Lemma np_any_false labels_data :
  np_any labels_data = false ↔ Forall (Forall (λ l, l = 0%Z)) labels_data.
Proof.
  unfold np_any. induction labels_data as [|a ld IH]; simpl.
  - split; [constructor | done].
  - rewrite orb_false_iff, IH, Forall_cons. apply and_iff_compat_r.
    induction a as [|x a IHa]; simpl.
    + split; [constructor | done].
    + rewrite orb_false_iff, IHa, Forall_cons, negb_false_iff, Z.eqb_eq. done.
Qed.

Local Arguments add_stats : simpl never.
Local Arguments report_stats : simpl never.
Local Arguments comprehension : simpl never.
Local Arguments np_any : simpl never.

Ltac fin :=
  repeat match goal with |- _ ∧ _ => split end;
  first [ assumption | done | congruence | apply same_settings_refl
        | (simpl in *; congruence) | lia ].

(** What one call of [bert_process_data] does to the state. *)
Lemma bert_process_data_spec args labels b losses preds (s : State) :
  post (bert_process_data should_update update_and_create args labels b losses preds) s
    (λ r s',
       same_settings (iteration s) (iteration s') ∧ saved s' = saved s ∧
       match batch_labels labels b with
       | Raise e => r = Raise e ∧ s' = s
       | Ok labels_data =>
           if np_any labels_data then
             runs s' = runs s ++ [data b] ∧
             count (iteration s') =
               match r with Ok _ => (count (iteration s) + 1)%Z | Raise _ => count (iteration s) end
           else r = Ok tt ∧ s' = s
       end).
Proof.
  unfold bert_process_data, batch_labels.
  apply post_bind, post_lift.
  destruct (comprehension _ labels) as [ld|e]; [|fin].
  destruct (np_any ld) eqn:Hany; simpl; [|apply post_ret; fin].
  apply post_bind, post_modify.
  destruct (gc_profile args); [apply post_raise; fin|].
  apply post_bind. eapply post_mono; [apply add_stats_frame|].
  intros r s1 (Hset & Hcount & Hf & Hrep & Hruns & Hopt & Hsaved). simpl in *.
  destruct r as [[]|e]; [|fin].
  apply post_bind, post_get. apply post_bind, post_lift.
  destruct (py_mod _ _) as [m|e]; [|fin].
  apply post_bind.
  assert (Hrep' : post (if decide (m = 0%Z) then report_stats else ret _ _ tt) s1
            (λ r s2, iteration s2 = iteration s1 ∧ factory s2 = factory s1 ∧
                     runs s2 = runs s1 ∧ saved s2 = saved s1)).
  { case_decide; [|by apply post_ret].
    eapply post_mono; [apply report_stats_frame|].
    intros r' s2 (H1 & H3 & H5 & H7). fin. }
  eapply post_mono; [exact Hrep'|]. clear Hrep'.
  intros r s2 (Hi2 & Hf2 & Hr2 & Hs2). simpl.
  destruct r as [[]|e]; [|rewrite Hi2, Hr2, Hs2; fin].
  apply post_bind, post_get. apply post_bind.
  destruct (should_update _ _); wp; simpl; rewrite Hi2, Hr2, Hs2; fin.
Qed.

(** *** Checkpoint saves *)

Local Arguments save_path : simpl never.
Local Arguments bert_process_data : simpl never.

Lemma save_model_and_stats_spec args step ep flag (s : State) :
  post (save_model_and_stats args step ep flag) s
    (λ r s', r = Ok tt ∧ iteration s' = iteration s ∧
             saved s' = saved s ++ (if no_model_save args then []
                                    else [(save_path args step ep flag, step)])).
Proof.
  unfold save_model_and_stats. destruct (no_model_save args); wp; simpl;
    rewrite ?app_nil_r; done.
Qed.

Lemma count_after_cons c b bs :
  count_after c (b :: bs) = count_after (if b then (c + 1)%Z else c) bs.
Proof.
  unfold count_after. cbn [counts_after].
  destruct (counts_after _ bs) as [|z l] eqn:E; [done|].
  rewrite last_cons_cons.
  destruct (last_is_Some (z :: l)) as [_ [x ->]]; done.
Qed.

Lemma step_saves_cons args e c b bs :
  step_saves args e c (b :: bs)
  = save_now args e (if b then (c + 1)%Z else c)
    ++ step_saves args e (if b then (c + 1)%Z else c) bs.
Proof.
  unfold step_saves, save_now. simpl. rewrite filter_cons.
  destruct (save_due _ _) eqn:E.
  - by rewrite decide_True by done.
  - by rewrite decide_False by congruence.
Qed.

Lemma batch_turn_spec args labels preds losses b (s : State) :
  no_model_save args = false →
  post (batch_turn should_update update_and_create args labels preds losses b) s
    (λ r s',
       same_settings (iteration s) (iteration s') ∧
       (r = Ok tt →
        let c' := if processed labels b then (count (iteration s) + 1)%Z
                  else count (iteration s) in
        count (iteration s') = c' ∧
        saved s' = saved s ++ save_now args (epoch (iteration s)) c')).
Proof.
  intros Hsave. unfold batch_turn. apply post_bind.
  eapply post_mono; [apply bert_process_data_spec|].
  intros r s1 (Hset & Hsaved & Hlab). unfold processed.
  destruct r as [[]|e]; [|by split].
  assert (Hc : count (iteration s1) =
               if match batch_labels labels b with Ok ld => np_any ld | Raise _ => false end
               then (count (iteration s) + 1)%Z else count (iteration s)).
  { destruct (batch_labels labels b) as [ld|?]; [|by destruct Hlab].
    destruct (np_any ld); [by destruct Hlab | by destruct Hlab as [_ ->]]. }
  clear Hlab. apply post_bind, post_get. unfold save_now, save_due.
  destruct Hset as (? & Hep & ?).
  case_decide as Hpos.
  - apply post_bind, post_lift. unfold py_mod.
    rewrite decide_False by lia. rewrite bool_decide_eq_true_2 by done. simpl.
    case_decide as Hmod.
    + eapply post_mono; [apply save_model_and_stats_spec|].
      intros r s2 (-> & Hi & Hs). rewrite Hsave in Hs. rewrite Hi.
      split; [done|]. intros _. simpl. rewrite <- Hc.
      rewrite bool_decide_eq_true_2 by done. split; [done|]. by rewrite Hs, Hsaved, Hep.
    + apply post_ret. split; [done|]. intros _. simpl. rewrite <- Hc.
      rewrite bool_decide_eq_false_2 by done. by rewrite app_nil_r.
  - apply post_ret. split; [done|]. intros _. simpl.
    rewrite bool_decide_eq_false_2 by done. simpl. by rewrite app_nil_r.
Qed.

Lemma batches_spec args labels preds losses bs : ∀ s : State,
  no_model_save args = false →
  post (for_M _ _ (batch_turn should_update update_and_create args labels preds losses) bs) s
    (λ r s',
       same_settings (iteration s) (iteration s') ∧
       (r = Ok tt →
        count (iteration s') = count_after (count (iteration s)) (processed labels <$> bs) ∧
        saved s' = saved s ++ step_saves args (epoch (iteration s)) (count (iteration s))
                                (processed labels <$> bs))).
Proof.
  induction bs as [|b bs IH]; intros s Hsave; simpl.
  - apply post_ret. split; [apply same_settings_refl|]. intros _.
    unfold step_saves. simpl. by rewrite app_nil_r.
  - apply post_bind. eapply post_mono; [by apply batch_turn_spec|].
    intros r s1 [Hset H1]. destruct r as [[]|e]; [|by split].
    destruct (H1 eq_refl) as [Hc1 Hs1]. clear H1.
    eapply post_mono; [by apply IH|].
    intros r s2 [Hset2 H2]. split; [by eapply same_settings_trans|].
    intros Hr. destruct (H2 Hr) as [Hc2 Hs2].
    rewrite count_after_cons, step_saves_cons, Hc2, Hs2, Hs1, Hc1.
    destruct Hset as (_ & -> & _). by rewrite app_assoc.
Qed.

Lemma epoch_turn_spec args dataset labels preds losses e (s : State) :
  no_model_save args = false →
  it_epochs_per_save (iteration s) = epochs_per_save args →
  post (epoch_turn should_update update_and_create args dataset labels preds losses e) s
    (λ r s',
       it_epochs_per_save (iteration s') = it_epochs_per_save (iteration s) ∧
       (r = Ok tt →
        let bs := processed labels <$> dataset e in
        let c' := count_after (count (iteration s)) bs in
        count (iteration s') = c' ∧
        saved s' = saved s ++ step_saves args e (count (iteration s)) bs
                            ++ epoch_save args e c')).
Proof.
  intros Hsave Heps. unfold epoch_turn.
  apply post_bind, post_modify_iteration. apply post_bind.
  eapply post_mono; [by apply batches_spec|].
  intros r s1 [Hset H1]. simpl in *. destruct r as [[]|err]; [|by destruct Hset as (_&_&_&->&_)].
  destruct (H1 eq_refl) as [Hc1 Hs1]. clear H1.
  destruct Hset as (_ & Hep & _ & Heps1 & _). simpl in *.
  apply post_bind, post_get. unfold epoch_save, save_due.
  case_decide as Hpos.
  - apply post_bind, post_lift. unfold py_mod. rewrite Heps1, Heps.
    rewrite decide_False by lia. rewrite bool_decide_eq_true_2 by done. simpl.
    rewrite Hep. case_decide as Hmod.
    + eapply post_mono; [apply save_model_and_stats_spec|].
      intros r s2 (-> & Hi & Hs). rewrite Hsave in Hs. rewrite Hi.
      split; [congruence|]. intros _. simpl.
      rewrite bool_decide_eq_true_2 by done. split; [done|].
      by rewrite Hs, Hs1, Hc1, <- app_assoc.
    + apply post_ret. split; [congruence|]. intros _. simpl.
      rewrite bool_decide_eq_false_2 by done. by rewrite app_nil_r.
  - apply post_ret. split; [congruence|]. intros _. simpl.
    rewrite bool_decide_eq_false_2 by done. simpl. by rewrite app_nil_r.
Qed.

Lemma epochs_spec args dataset labels preds losses es : ∀ s : State,
  no_model_save args = false →
  it_epochs_per_save (iteration s) = epochs_per_save args →
  post (for_M _ _ (epoch_turn should_update update_and_create args dataset labels preds losses) es) s
    (λ r s',
       r = Ok tt →
       let run := periodic_saves args labels dataset (count (iteration s)) es in
       count (iteration s') = run.2 ∧ saved s' = saved s ++ run.1).
Proof.
  induction es as [|e es IH]; intros s Hsave Heps; simpl.
  - apply post_ret. intros _. by rewrite app_nil_r.
  - apply post_bind. eapply post_mono; [by apply epoch_turn_spec|].
    intros r s1 [Heps1 H1]. destruct r as [[]|err]; [|done].
    destruct (H1 eq_refl) as [Hc1 Hs1]. clear H1.
    eapply post_mono; [apply IH; [done | congruence]|].
    intros r s2 H2 Hr. destruct (H2 Hr) as [Hc2 Hs2].
    rewrite Hc2, Hs2, Hs1, Hc1. split; [done|]. by rewrite <- !app_assoc.
Qed.

(** The saves of a whole run of [bert_train_loop] that ends normally. *)
Lemma bert_train_loop_saves args dataset labels preds losses (s : State) :
  no_model_save args = false →
  it_epochs_per_save (iteration s) = epochs_per_save args →
  post (bert_train_loop should_update update_and_create args dataset labels preds losses) s
    (λ r s',
       r = Ok tt →
       let c0 := count (iteration s) in
       let run := periodic_saves args labels dataset c0
                    (py_range (it_start_epoch (iteration s)) (epochs args)) in
       count (iteration s') = run.2 ∧
       saved s' = saved s
                  ++ [(save_path args c0 (Some (epoch (iteration s))) false, c0)]
                  ++ run.1
                  ++ [(save_path args run.2 None false, run.2)]).
Proof.
  intros Hsave Heps. unfold bert_train_loop.
  apply post_bind, post_get. apply post_bind.
  eapply post_mono; [apply save_model_and_stats_spec|].
  intros r s1 (-> & Hi1 & Hs1). rewrite Hsave in Hs1.
  apply post_bind.
  change (for_M _ _ _ ?es) with
    (for_M _ _ (epoch_turn should_update update_and_create args dataset labels preds losses) es).
  eapply post_mono; [apply epochs_spec; [done | by rewrite Hi1]|].
  intros r s2 H2. destruct r as [[]|err]; [|done].
  destruct (H2 eq_refl) as [Hc2 Hs2]. clear H2.
  apply post_bind, post_get.
  eapply post_mono; [apply save_model_and_stats_spec|].
  intros r s3 (-> & Hi3 & Hs3) _. rewrite Hsave in Hs3. simpl.
  rewrite Hi3, Hs3, Hs2, Hc2, Hs1, Hi1. split; [done|]. by rewrite <- !app_assoc.
Qed.

(** With [no_model_save] nothing is saved, whatever the outcome. *)
Lemma batch_turn_no_save args labels preds losses b (s : State) :
  no_model_save args = true →
  post (batch_turn should_update update_and_create args labels preds losses b) s
    (λ _ s', saved s' = saved s).
Proof.
  intros Hsave. unfold batch_turn. apply post_bind.
  eapply post_mono; [apply bert_process_data_spec|].
  intros r s1 (_ & Hsaved & _). destruct r as [[]|e]; [|done].
  apply post_bind, post_get. case_decide; [|by apply post_ret].
  apply post_bind, post_lift. destruct (py_mod _ _) as [m|e]; [|done].
  case_decide; [|by apply post_ret].
  eapply post_mono; [apply save_model_and_stats_spec|].
  intros r s2 (_ & _ & Hs). by rewrite Hs, Hsave, app_nil_r.
Qed.

Lemma batches_no_save args labels preds losses bs : ∀ s : State,
  no_model_save args = true →
  post (for_M _ _ (batch_turn should_update update_and_create args labels preds losses) bs) s
    (λ _ s', saved s' = saved s).
Proof.
  induction bs as [|b bs IH]; intros s Hsave; simpl; [by apply post_ret|].
  apply post_bind. eapply post_mono; [by apply batch_turn_no_save|].
  intros r s1 Hs1. destruct r as [[]|e]; [|done].
  eapply post_mono; [by apply IH|]. intros r s2 Hs2. congruence.
Qed.

Lemma epoch_turn_no_save args dataset labels preds losses e (s : State) :
  no_model_save args = true →
  post (epoch_turn should_update update_and_create args dataset labels preds losses e) s
    (λ _ s', saved s' = saved s).
Proof.
  intros Hsave. unfold epoch_turn.
  apply post_bind, post_modify_iteration. apply post_bind.
  eapply post_mono; [by apply batches_no_save|].
  intros r s1 Hs1. simpl in Hs1. destruct r as [[]|err]; [|done].
  apply post_bind, post_get. case_decide; [|by apply post_ret].
  apply post_bind, post_lift. destruct (py_mod _ _) as [m|err]; [|done].
  case_decide; [|by apply post_ret].
  eapply post_mono; [apply save_model_and_stats_spec|].
  intros r s2 (_ & _ & Hs). by rewrite Hs, Hsave, app_nil_r.
Qed.

Lemma epochs_no_save args dataset labels preds losses es : ∀ s : State,
  no_model_save args = true →
  post (for_M _ _ (epoch_turn should_update update_and_create args dataset labels preds losses) es) s
    (λ _ s', saved s' = saved s).
Proof.
  induction es as [|e es IH]; intros s Hsave; simpl; [by apply post_ret|].
  apply post_bind. eapply post_mono; [by apply epoch_turn_no_save|].
  intros r s1 Hs1. destruct r as [[]|err]; [|done].
  eapply post_mono; [by apply IH|]. intros r s2 Hs2. congruence.
Qed.

(** A whole run of [bert_train_loop] with [no_model_save], whether it ends
    normally or raises. *)
Lemma bert_train_loop_no_save args dataset labels preds losses (s : State) :
  no_model_save args = true →
  post (bert_train_loop should_update update_and_create args dataset labels preds losses) s
    (λ _ s', saved s' = saved s).
Proof.
  intros Hsave. unfold bert_train_loop.
  apply post_bind, post_get. apply post_bind.
  eapply post_mono; [apply save_model_and_stats_spec|].
  intros r s1 (-> & _ & Hs1). rewrite Hsave, app_nil_r in Hs1.
  apply post_bind.
  change (for_M _ _ _ ?es) with
    (for_M _ _ (epoch_turn should_update update_and_create args dataset labels preds losses) es).
  eapply post_mono; [by apply epochs_no_save|].
  intros r s2 Hs2. destruct r as [[]|err]; [|congruence].
  apply post_bind, post_get.
  eapply post_mono; [apply save_model_and_stats_spec|].
  intros r s3 (_ & _ & Hs3). rewrite Hs3, Hsave, app_nil_r. congruence.
Qed.

Lemma counts_after_app c bs1 bs2 :
  counts_after c (bs1 ++ bs2)
  = counts_after c bs1 ++ counts_after (count_after c bs1) bs2.
Proof.
  revert c. induction bs1 as [|b bs1 IH]; intros c; [done|].
  rewrite count_after_cons. simpl. by rewrite IH.
Qed.

Lemma count_after_app c bs1 bs2 :
  count_after c (bs1 ++ bs2) = count_after (count_after c bs1) bs2.
Proof.
  revert c. induction bs1 as [|b bs1 IH]; intros c; [done|].
  rewrite <- app_comm_cons, !count_after_cons. apply IH.
Qed.

Lemma counts_after_all c bs :
  Forall (λ b, b = true) bs →
  counts_after c bs = seqZ (c + 1) (Z.of_nat (length bs)) ∧
  count_after c bs = (c + Z.of_nat (length bs))%Z.
Proof.
  revert c. induction bs as [|b bs IH]; intros c Hall.
  - split; [done|]. unfold count_after. simpl. lia.
  - apply Forall_cons in Hall as [-> Hall]. rewrite count_after_cons.
    destruct (IH (c + 1)%Z Hall) as [H1 H2]. simpl. rewrite H1, H2. split; [|lia].
    rewrite (seqZ_cons (c + 1)) by lia. f_equal. f_equal; lia.
Qed.

(** The steps of the periodic saves depend on the sequence of batches
    only, when no save is due at epoch ends. *)
Lemma periodic_saves_steps args labels dataset es : ∀ c,
  (epochs_per_save args ≤ 0)%Z →
  let bs := processed labels <$> concat (dataset <$> es) in
  (periodic_saves args labels dataset c es).1.*2
  = filter (λ c', save_due (steps_per_save args) c' = true) (counts_after c bs) ∧
  (periodic_saves args labels dataset c es).2 = count_after c bs.
Proof.
  induction es as [|e es IH]; intros c Heps; [done|].
  destruct (IH (count_after c (processed labels <$> dataset e)) Heps) as [H1 H2].
  simpl. rewrite (fmap_app (processed labels)), counts_after_app, count_after_app, filter_app.
  rewrite !fmap_app, H1, H2. split; [|done].
  unfold epoch_save, save_due. rewrite bool_decide_eq_false_2 by lia. simpl.
  f_equal. unfold step_saves. rewrite <- list_fmap_compose.
  apply list_fmap_id.
Qed.

(** C5 (amended).  When [no_model_save] is set, the loop saves nothing,
    whether it ends normally or raises.  When it is not set, the Iteration
    object was built from the same arguments and the loop ends normally,
    the weights are saved once at loop start, after each batch that leaves
    the step count at a multiple of [steps_per_save] (when
    [steps_per_save > 0]), at the end of each epoch whose index is a
    multiple of [epochs_per_save] (when [epochs_per_save > 0]), and once at
    loop end, in this order and at no other time.  In particular with
    [steps_per_save = 50] and [epochs_per_save = 0], a run from step 0 over
    120 batches that are all processed saves at steps 0, 50, 100 and 120:
    exactly 4 saves. *)
Theorem checkpoint_save_triggers
    (args : Args) (dataset : Z → list Batch) (labels preds losses : list string)
    (s : State) :
  post (bert_train_loop should_update update_and_create args dataset labels preds losses) s
    (λ r s',
       (no_model_save args = true → saved s' = saved s) ∧
       (no_model_save args = false →
        it_epochs_per_save (iteration s) = epochs_per_save args →
        r = Ok tt →
        let c0 := count (iteration s) in
        let es := py_range (it_start_epoch (iteration s)) (epochs args) in
        let run := periodic_saves args labels dataset c0 es in
        (count (iteration s') = run.2 ∧
         saved s' = saved s
                    ++ [(save_path args c0 (Some (epoch (iteration s))) false, c0)]
                    ++ run.1
                    ++ [(save_path args run.2 None false, run.2)]) ∧
        (steps_per_save args = 50%Z → epochs_per_save args = 0%Z → c0 = 0%Z →
         length (concat (dataset <$> es)) = 120 →
         Forall (λ b, processed labels b = true) (concat (dataset <$> es)) →
         (saved s').*2 = (saved s).*2 ++ [0; 50; 100; 120]%Z))).
Proof.
  apply post_intro. intros r s' Hrun. split.
  { intros Hsave. by apply (post_elim _ _ _ _ _ (bert_train_loop_no_save
      args dataset labels preds losses s Hsave) Hrun). }
  intros Hsave Heps Hr.
  destruct (post_elim _ _ _ _ _ (bert_train_loop_saves
              args dataset labels preds losses s Hsave Heps) Hrun Hr) as [Hc Hs]. simpl.
  split; [done|]. intros Hsps Heps0 Hc0 Hlen Hall.
  rewrite Hs, !fmap_app. f_equal. simpl.
  destruct (periodic_saves_steps args labels dataset
              (py_range (it_start_epoch (iteration s)) (epochs args))
              (count (iteration s)) ltac:(lia)) as [H1 H2].
  assert (Hall' : Forall (λ b, b = true)
            (processed labels <$>
               concat (dataset <$> py_range (it_start_epoch (iteration s)) (epochs args)))).
  { by apply Forall_fmap. }
  destruct (counts_after_all (count (iteration s)) _ Hall') as [H3 H4].
  rewrite length_fmap, Hlen in H3, H4.
  rewrite H1, H2, H3, H4, Hsps, Hc0. by vm_compute.
Qed.

(** C1 (amended).  A batch whose label arrays are entirely zero is skipped:
    the call returns at once and leaves the whole state as it was, so no
    metric is recorded, no scalar is emitted, the engine is not run, and
    the step counter is NOT incremented.  Any other batch is run through
    the engine, and the step counter is incremented by exactly 1 when the
    call returns normally (it is unchanged when the call raises). *)
Theorem padding_batch_skipped
    (args : Args) (labels : list string) (b : Batch) (losses preds : list string)
    (s : State) (labels_data : list (list Z)) :
  batch_labels labels b = Ok labels_data →
  post (bert_process_data should_update update_and_create args labels b losses preds) s
    (λ r s',
       (Forall (Forall (λ l, l = 0%Z)) labels_data → r = Ok tt ∧ s' = s) ∧
       (¬ Forall (Forall (λ l, l = 0%Z)) labels_data →
        runs s' = runs s ++ [data b] ∧
        (r = Ok tt → count (iteration s') = (count (iteration s) + 1)%Z) ∧
        (∀ e, r = Raise e → count (iteration s') = count (iteration s)))).
Proof.
  intros Hlab. eapply post_mono; [apply bert_process_data_spec|].
  intros r s' (_ & _ & H). rewrite Hlab in H. split.
  - intros Hzero. apply np_any_false in Hzero. by rewrite Hzero in H.
  - intros Hnz. destruct (np_any labels_data) eqn:Hany.
    + destruct H as [Hruns Hcount]. split; [done|]. split.
      * intros ->. done.
      * intros e ->. done.
    + by apply np_any_false in Hany.
Qed.
End BertFacts.

(** ** compute_latency *)

Section Latency.

Lemma last_item_Ok v : v ≠ [] → ∃ t, last_item v = Ok t.
Proof.
  intros Hv. unfold last_item.
  destruct (last_is_Some v) as [_ H]. destruct (H Hv) as [t ->]. by exists t.
Qed.

Lemma arg_best_Ok better d : ∀ best,
  Forall (λ kv : string * list Q, kv.2 ≠ []) d →
  ∃ k, arg_best better best d = Ok k ∧ k ∈ best.1 :: d.*1.
Proof.
  induction d as [|[k v] d IH]; intros best Hall; simpl.
  - exists best.1. split; [done | apply list_elem_of_here].
  - apply Forall_cons in Hall as [Hv Hall]. simpl in Hv.
    destruct (last_item_Ok v Hv) as [t ->]. simpl.
    destruct (IH (if better t best.2 then (k, t) else best) Hall) as (k' & -> & Hk').
    exists k'. split; [done|].
    destruct (better t best.2); simpl in Hk'; rewrite !elem_of_cons in *; tauto.
Qed.

Lemma timing_anchor_Ok better d :
  timings_recorded d →
  ∃ k, match d with
       | [] => Raise ValueError
       | (k, v) :: d' => t <~ last_item v;; arg_best better (k, t) d'
       end = Ok k ∧ k ∈ d.*1.
Proof.
  intros [Hne Hall]. destruct d as [|[k v] d]; [done|].
  apply Forall_cons in Hall as [Hv Hall]. simpl in Hv.
  destruct (last_item_Ok v Hv) as [t ->]. simpl.
  apply (arg_best_Ok better d (k, t) Hall).
Qed.

Lemma timings_getitem_Ok d k :
  Forall (λ kv : string * list Q, kv.2 ≠ []) d → k ∈ d.*1 →
  ∃ v, timings_getitem d k = Ok v ∧ v ≠ [].
Proof.
  induction d as [|[k' v] d IH]; intros Hall Hin; simpl in *.
  - by apply elem_of_nil in Hin.
  - apply Forall_cons in Hall as [Hv Hall]. case_decide as Hk.
    + by exists v.
    + apply IH; [done|]. apply elem_of_cons in Hin as [->|Hin]; done.
Qed.

Lemma round_trips_Ok start_times end_times :
  timings_recorded start_times → timings_recorded end_times →
  ∃ rtts, round_trips start_times end_times = Ok rtts ∧ rtts ≠ [].
Proof.
  intros Hs He. unfold round_trips, get_timing_start_anchor, get_timing_end_anchor.
  destruct (timing_anchor_Ok Qlt_bool _ Hs) as (ks & -> & Hks).
  destruct (timing_anchor_Ok (λ x y, Qlt_bool y x) _ He) as (ke & -> & Hke). simpl.
  destruct (timings_getitem_Ok _ _ (proj2 Hs) Hks) as (vs & -> & Hvs).
  destruct (timings_getitem_Ok _ _ (proj2 He) Hke) as (ve & -> & Hve). simpl.
  eexists. split; [done|]. by destruct vs, ve.
Qed.

(** [py_best] returns an element that no other element beats. *)
Lemma py_best_min l :
  l ≠ [] →
  ∃ m, py_best Qlt_bool l = Ok m ∧ m ∈ l ∧ ∀ x, x ∈ l → (m <= x)%Q.
Proof.
  destruct l as [|x0 l]; [done|]. intros _. simpl. eexists. split; [done|].
  assert (H : ∀ best seen,
    best ∈ seen → (∀ x, x ∈ seen → (best <= x)%Q) →
    let m := foldl (λ best y, if Qlt_bool y best then y else best) best l in
    m ∈ seen ++ l ∧ ∀ x, x ∈ seen ++ l → (m <= x)%Q).
  { induction l as [|y l IH]; intros best seen Hin Hle; simpl.
    - by rewrite app_nil_r.
    - replace (seen ++ y :: l) with ((seen ++ [y]) ++ l) by by rewrite <- app_assoc.
      apply IH.
      + unfold Qlt_bool. destruct (Qle_bool best y); simpl;
          rewrite elem_of_app, list_elem_of_singleton; tauto.
      + intros x Hx. apply elem_of_app in Hx as [Hx|Hx%list_elem_of_singleton].
        * unfold Qlt_bool. destruct (Qle_bool best y) eqn:E; simpl; [by apply Hle|].
          assert (y < best)%Q.
          { apply Qnot_le_lt. intros Hc. apply Qle_bool_iff in Hc. congruence. }
          eapply Qle_trans; [by apply Qlt_le_weak | by apply Hle].
        * subst x. unfold Qlt_bool. destruct (Qle_bool best y) eqn:E; simpl.
          -- by apply Qle_bool_iff.
          -- apply Qle_refl. }
  apply (H x0 [x0]).
  - apply list_elem_of_here.
  - intros x ->%list_elem_of_singleton. apply Qle_refl.
Qed.

Lemma py_best_max l :
  l ≠ [] →
  ∃ m, py_best (λ x y, Qlt_bool y x) l = Ok m ∧ m ∈ l ∧ ∀ x, x ∈ l → (x <= m)%Q.
Proof.
  destruct l as [|x0 l]; [done|]. intros _. simpl. eexists. split; [done|].
  assert (H : ∀ best seen,
    best ∈ seen → (∀ x, x ∈ seen → (x <= best)%Q) →
    let m := foldl (λ best y, if Qlt_bool best y then y else best) best l in
    m ∈ seen ++ l ∧ ∀ x, x ∈ seen ++ l → (x <= m)%Q).
  { induction l as [|y l IH]; intros best seen Hin Hle; simpl.
    - by rewrite app_nil_r.
    - replace (seen ++ y :: l) with ((seen ++ [y]) ++ l) by by rewrite <- app_assoc.
      apply IH.
      + unfold Qlt_bool. destruct (Qle_bool y best); simpl;
          rewrite elem_of_app, list_elem_of_singleton; tauto.
      + intros x Hx. apply elem_of_app in Hx as [Hx|Hx%list_elem_of_singleton].
        * unfold Qlt_bool. destruct (Qle_bool y best) eqn:E; simpl; [by apply Hle|].
          assert (best < y)%Q.
          { apply Qnot_le_lt. intros Hc. apply Qle_bool_iff in Hc. congruence. }
          eapply Qle_trans; [by apply Hle | by apply Qlt_le_weak].
        * subst x. unfold Qlt_bool. destruct (Qle_bool y best) eqn:E; simpl.
          -- by apply Qle_bool_iff.
          -- apply Qle_refl. }
  apply (H x0 [x0]).
  - apply list_elem_of_here.
  - intros x ->%list_elem_of_singleton. apply Qle_refl.
Qed.

End Latency.

(** ** bert_output_stats *)

Section StatsFacts.
Variable ignore_index : option Z.
Local Abbreviation um := (unmasked ignore_index).
Local Abbreviation div := (divisor ignore_index).
Local Abbreviation ml := (masked_loss ignore_index).

Lemma padding_mask_row (row : list Cell) :
  padding_mask ignore_index (label <$> row) = um <$> row.
Proof.
  unfold padding_mask, unmasked. destruct ignore_index; rewrite <- list_fmap_compose; done.
Qed.

Lemma divisor_snoc col x :
  div (col ++ [x]) = (div col + (if um x then 1 else 0))%Z.
Proof.
  unfold divisor. rewrite filter_app, length_app, filter_cons, filter_nil.
  case_decide as H; [rewrite H | destruct (um x); [done|]]; simpl; lia.
Qed.

Lemma length_snoc_column {A} (cols : list (list A)) row :
  length cols = length row → length (snoc_column cols row) = length row.
Proof. intros H. unfold snoc_column. rewrite length_zip_with. lia. Qed.

Lemma length_foldl_snoc {A} (rows : list (list A)) : ∀ cols n,
  length cols = n → Forall (λ row, length row = n) rows →
  length (foldl snoc_column cols rows) = n.
Proof.
  induction rows as [|row rows IH]; intros cols n Hc Hall; [done|].
  apply Forall_cons in Hall as [Hr Hall]. simpl. apply IH; [|done].
  rewrite length_snoc_column; lia.
Qed.

Lemma length_columns {A} n (rows : list (list A)) :
  Forall (λ row, length row = n) rows → length (columns n rows) = n.
Proof. intros H. apply length_foldl_snoc; [apply length_replicate | done]. Qed.

(** Adding the mask of one more objective to the per-position counts. *)
Lemma add_mask_row cols (row : list Cell) :
  length cols = length row →
  zip_with Z.add (div <$> cols) (int8 (um <$> row)) = div <$> snoc_column cols row.
Proof.
  revert row. induction cols as [|col cols IH]; intros [|x row] Hlen; try done.
  simpl in *. rewrite divisor_snoc. f_equal. apply IH. lia.
Qed.

Lemma sum_axis0_fold rows : ∀ cols,
  Forall (λ row : list Cell, length row = length cols) rows →
  for_each (λ acc m', if decide (length m' = length acc)
                      then Ok (zip_with Z.add acc (int8 m')) else Raise ValueError)
    (div <$> cols) (fmap (M:=list) um <$> rows)
  = Ok (div <$> foldl snoc_column cols rows).
Proof.
  induction rows as [|row rows IH]; intros cols Hall; [done|].
  apply Forall_cons in Hall as [Hr Hall]. simpl.
  rewrite decide_True by (by rewrite !length_fmap). simpl.
  rewrite add_mask_row by done. apply IH.
  eapply Forall_impl; [exact Hall|]. intros r Hlen. simpl in *.
  rewrite length_snoc_column; lia.
Qed.

Lemma zip_add_zero l : zip_with Z.add (replicate (length l) 0%Z) l = l.
Proof. induction l as [|x l IH]; simpl; [done | by rewrite IH]. Qed.

Lemma sum_axis0_columns n row rows :
  Forall (λ row : list Cell, length row = n) (row :: rows) →
  sum_axis0 (um <$> row) (fmap (M:=list) um <$> rows) = Ok (div <$> columns n (row :: rows)).
Proof.
  intros Hall.
  apply Forall_cons in Hall as [Hr Hall]. unfold sum_axis0, columns. simpl.
  assert (E : int8 (um <$> row) = div <$> snoc_column (replicate n []) row).
  { rewrite <- add_mask_row by (by rewrite length_replicate).
    rewrite fmap_replicate. change (div []) with 0%Z.
    rewrite <- (zip_add_zero (int8 (um <$> row))) at 1.
    do 2 f_equal. unfold int8. rewrite !length_fmap. done. }
  rewrite E. apply sum_axis0_fold.
  eapply Forall_impl; [exact Hall|]. intros r Hlen. simpl in *.
  rewrite length_snoc_column; rewrite ?length_replicate; lia.
Qed.



Lemma zero_unmasked_row (row : list Cell) :
  zero_unmasked (loss <$> row) (um <$> row) = Ok (ml <$> row).
Proof.
  unfold zero_unmasked. rewrite decide_True by (by rewrite !length_fmap). f_equal.
  rewrite zip_with_fmap_l, zip_with_fmap_r, zip_with_diag. done.
Qed.

Lemma hold_insert_notin {X} (anchors : Anchors) k v ks (rows : list X) f :
  k ∉ ks →
  Forall2 (λ key row, anchors !! key = Some (f row)) ks rows →
  Forall2 (λ key row, <[k:=v]> anchors !! key = Some (f row)) ks rows.
Proof.
  intros Hk Hall. induction Hall as [|key row ks rows Hkey Hall IH]; [constructor|].
  apply not_elem_of_cons in Hk as [Hne Hk]. constructor; [|by apply IH].
  by rewrite lookup_insert_ne.
Qed.

(** The in-place masking of the loss anchors. *)
Lemma mask_losses_Ok losses : ∀ rows (anchors : Anchors),
  Forall2 (λ key row, anchors !! key = Some (loss <$> row)) losses rows →
  NoDup losses →
  ∃ anchors' : Anchors,
    mask_losses anchors losses (fmap (M:=list) um <$> rows) = Ok anchors' ∧
    Forall2 (λ key row, anchors' !! key = Some (ml <$> row)) losses rows ∧
    ∀ key, key ∉ losses → anchors' !! key = anchors !! key.
Proof.
  induction losses as [|k ks IH]; intros rows anchors Hhold Hnd.
  - apply Forall2_nil_inv_l in Hhold as ->. exists anchors.
    split; [done|]. split; [constructor | done].
  - apply Forall2_cons_inv_l in Hhold as (row & rows' & Hk & Hhold & ->).
    apply NoDup_cons in Hnd as [Hk_notin Hnd].
    unfold mask_losses. simpl.
    rewrite (getitem_Some _ _ _ Hk). simpl. rewrite zero_unmasked_row. simpl.
    destruct (IH rows' (<[k := ml <$> row]> anchors)) as (anchors' & Hrun & Hks & Hother);
      [by apply hold_insert_notin | done |].
    exists anchors'. split; [exact Hrun|]. split.
    + constructor; [|done]. rewrite Hother by done. apply lookup_insert_eq.
    + intros key Hkey. apply not_elem_of_cons in Hkey as [Hne Hkey].
      rewrite Hother by done. by rewrite lookup_insert_ne.
Qed.

Local Abbreviation fs := (loss_sum ignore_index).

Lemma fs_snoc col x : col ≠ [] → fs (col ++ [x]) = fadd (fs col) (ml x).
Proof.
  intros Hne. destruct col as [|c col]; [done|]. unfold loss_sum. simpl.
  by rewrite fmap_app, foldl_app.
Qed.

Lemma add_loss_row cols (row : list Cell) :
  length cols = length row → Forall (λ col, col ≠ []) cols →
  zip_with fadd (fs <$> cols) (ml <$> row) = fs <$> snoc_column cols row.
Proof.
  revert row. induction cols as [|col cols IH]; intros [|x row] Hlen Hne; try done.
  apply Forall_cons in Hne as [Hc Hne]. simpl in *. rewrite fs_snoc by done.
  f_equal. apply IH; [lia | done].
Qed.

Lemma snoc_column_nonempty {A} (cols : list (list A)) row :
  Forall (λ col, col ≠ []) (snoc_column cols row).
Proof.
  unfold snoc_column. revert row. induction cols as [|col cols IH]; intros [|x row];
    simpl; try constructor; [by destruct col | apply IH].
Qed.

Lemma reduce_fold (anchors : Anchors) ks : ∀ rows cols,
  Forall2 (λ key row, anchors !! key = Some (ml <$> row)) ks rows →
  Forall (λ row : list Cell, length row = length cols) rows →
  Forall (λ col, col ≠ []) cols →
  for_each (λ acc y, y' <~ y;; broadcast2 fadd acc y')
    (fs <$> cols) ((λ k, getitem anchors k) <$> ks)
  = Ok (fs <$> foldl snoc_column cols rows).
Proof.
  induction ks as [|k ks IH]; intros rows cols Hhold Hall Hne.
  - by apply Forall2_nil_inv_l in Hhold as ->.
  - apply Forall2_cons_inv_l in Hhold as (row & rows' & Hk & Hhold & ->).
    apply Forall_cons in Hall as [Hr Hall]. simpl.
    rewrite (getitem_Some _ _ _ Hk). simpl. unfold broadcast2.
    rewrite decide_True by (by rewrite !length_fmap). simpl.
    rewrite add_loss_row by done. apply IH; [done| |apply snoc_column_nonempty].
    eapply Forall_impl; [exact Hall|]. intros r Hlen. simpl in *.
    rewrite length_snoc_column; lia.
Qed.

Lemma first_loss_row (row : list Cell) :
  ml <$> row = fs <$> snoc_column (replicate (length row) []) row.
Proof. induction row as [|c row IH]; [done|]. simpl. f_equal. exact IH. Qed.

Lemma reduce_columns (anchors : Anchors) ks n rows :
  rows ≠ [] →
  Forall2 (λ key row, anchors !! key = Some (ml <$> row)) ks rows →
  Forall (λ row : list Cell, length row = n) rows →
  reduce (broadcast2 fadd) ((λ k, getitem anchors k) <$> ks)
  = Ok (fs <$> columns n rows).
Proof.
  intros Hne Hhold Hall. destruct rows as [|row rows]; [done|].
  apply Forall2_cons_inv_r in Hhold as (k & ks' & Hk & Hhold & ->).
  apply Forall_cons in Hall as [Hr Hall]. unfold reduce, columns. simpl.
  rewrite (getitem_Some _ _ _ Hk). simpl. subst n.
  rewrite first_loss_row. apply reduce_fold; [done| |apply snoc_column_nonempty].
  eapply Forall_impl; [exact Hall|]. intros r Hlen. simpl in *.
  rewrite length_snoc_column; rewrite ?length_replicate; lia.
Qed.

Lemma filter_cons_bool {A} (f : A → bool) x (l : list A) :
  filter (λ y, f y = true) (x :: l)
  = if f x then x :: filter (λ y, f y = true) l else filter (λ y, f y = true) l.
Proof.
  rewrite filter_cons. destruct (f x) eqn:E;
    [by rewrite decide_True | by rewrite decide_False].
Qed.

Lemma select_fmap {A B} (f : A → bool) (g : A → B) (l : list A) :
  select (f <$> l) (g <$> l) = g <$> filter (λ x, f x = true) l.
Proof.
  induction l as [|x l IH]; [done|]. csimpl. rewrite filter_cons_bool.
  destruct (f x); csimpl; by rewrite IH.
Qed.

Lemma foldl_Zadd a l : foldl Z.add a l = (a + foldl Z.add 0 l)%Z.
Proof.
  revert a. induction l as [|y l IH]; intros a; cbn [foldl]; [lia|].
  rewrite (IH (a + y)%Z), (IH (0 + y)%Z). lia.
Qed.

Lemma sum_Z_cons x l : sum_Z (x :: l) = (x + sum_Z l)%Z.
Proof. unfold sum_Z. simpl. apply foldl_Zadd. Qed.

Lemma sum_Z_int8 (bs : list bool) :
  sum_Z (int8 bs) = Z.of_nat (length (filter (λ b, b = true) bs)).
Proof.
  induction bs as [|b bs IH]; [done|]. unfold int8 in *. csimpl.
  rewrite sum_Z_cons, IH, (filter_cons_bool id). destruct b; simpl; lia.
Qed.

Lemma divisor_zero col : div col = 0%Z ↔ existsb um col = false.
Proof.
  unfold divisor. induction col as [|c col IH]; [done|]. simpl.
  rewrite filter_cons_bool. destruct (um c); simpl; [|done]. split; [lia | done].
Qed.

Lemma master_mask_retained (cols : list (list Cell)) :
  (λ n, negb (n =? 0)%Z) <$> (div <$> cols) = existsb um <$> cols.
Proof.
  rewrite <- list_fmap_compose. apply list_fmap_ext. intros _ col _. simpl.
  destruct (existsb um col) eqn:E.
  - apply negb_true_iff, Z.eqb_neq. intros H%divisor_zero. congruence.
  - apply negb_false_iff, Z.eqb_eq. by apply divisor_zero.
Qed.

(** The divisor of a retained position is positive. *)
Lemma divisor_retained_pos (cols : list (list Cell)) :
  Forall (λ col, 0 < div col)%Z (retained ignore_index cols).
Proof.
  unfold retained. apply Forall_forall. intros col [Hex _]%list_elem_of_filter.
  assert (div col ≠ 0%Z) by (intros H%divisor_zero; congruence).
  unfold divisor in *. lia.
Qed.

Lemma count_row (row : list Cell) :
  sum_Z (int8 (select (um <$> row) (hit <$> row)))
  = Z.of_nat (length (filter (λ c, correct ignore_index c = true) row)).
Proof.
  rewrite select_fmap, sum_Z_int8. f_equal.
  induction row as [|c row IH]; [done|]. unfold correct in *.
  rewrite !filter_cons_bool. destruct (um c); csimpl; [|done].
  rewrite (filter_cons_bool id). unfold hit in *. 
  destruct (feq_Z (prediction c) (label c)); simpl; by rewrite IH.
Qed.

Lemma count_correct_Ok (anchors : Anchors) ks : ∀ rows total,
  Forall2 (λ key row, anchors !! key = Some (prediction <$> row)) ks rows →
  count_correct anchors ks (fmap (M:=list) label <$> rows)
    (fmap (M:=list) um <$> rows) total
  = Ok (total + Z.of_nat (length (filter (λ c, correct ignore_index c = true) (concat rows))))%Z.
Proof.
  induction ks as [|k ks IH]; intros rows total Hhold.
  - apply Forall2_nil_inv_l in Hhold as ->. simpl. f_equal. lia.
  - apply Forall2_cons_inv_l in Hhold as (row & rows' & Hk & Hhold & ->). csimpl.
    rewrite (getitem_Some _ _ _ Hk). csimpl. unfold broadcast2.
    rewrite decide_True by (by rewrite !length_fmap). csimpl.
    rewrite zip_with_fmap_l, zip_with_fmap_r, zip_with_diag.
    unfold bool_index. rewrite decide_True by (by rewrite !length_fmap). csimpl.
    change (λ x : Cell, feq_Z (prediction x) (label x)) with hit.
    rewrite (IH rows') by done. rewrite count_row, filter_app, length_app. f_equal. lia.
Qed.

Lemma concat_snoc_column {A} (cols : list (list A)) row :
  length cols = length row → concat (snoc_column cols row) ≡ₚ concat cols ++ row.
Proof.
  revert row. induction cols as [|col cols IH]; intros [|x row] Hlen; try done.
  simpl in *. rewrite IH by lia. rewrite <- !app_assoc. f_equiv.
  simpl. by rewrite Permutation_middle.
Qed.

Lemma concat_foldl_snoc {A} (rows : list (list A)) : ∀ cols,
  Forall (λ row, length row = length cols) rows →
  concat (foldl snoc_column cols rows) ≡ₚ concat cols ++ concat rows.
Proof.
  induction rows as [|row rows IH]; intros cols Hall; simpl.
  - by rewrite app_nil_r.
  - apply Forall_cons in Hall as [Hr Hall]. rewrite IH.
    + rewrite concat_snoc_column by done. by rewrite <- app_assoc.
    + eapply Forall_impl; [exact Hall|]. intros r Hlen. simpl in *.
      rewrite length_snoc_column; lia.
Qed.

Lemma concat_columns {A} n (rows : list (list A)) :
  Forall (λ row, length row = n) rows → concat (columns n rows) ≡ₚ concat rows.
Proof.
  intros Hall. unfold columns. rewrite concat_foldl_snoc.
  - assert (∀ m, concat (replicate m []) = @nil A) as ->; [|reflexivity].
    intros m. induction m; simpl; done.
  - by rewrite length_replicate.
Qed.

Lemma sum_divisors (cols : list (list Cell)) :
  sum_Z (div <$> filter (λ col, existsb um col = true) cols)
  = Z.of_nat (length (filter (λ c, um c = true) (concat cols))).
Proof.
  induction cols as [|col cols IH]; [done|]. csimpl.
  rewrite filter_cons_bool, filter_app, length_app, Nat2Z.inj_add, <- IH.
  destruct (existsb um col) eqn:E; csimpl.
  - by rewrite sum_Z_cons.
  - apply divisor_zero in E. unfold divisor in E. lia.
Qed.

Lemma labels_masks (rows : list (list Cell)) :
  padding_mask ignore_index <$> (fmap (M:=list) label <$> rows) = fmap (M:=list) um <$> rows.
Proof.
  rewrite <- list_fmap_compose. apply list_fmap_ext. intros _ row _. simpl.
  apply padding_mask_row.
Qed.

(** What [bert_output_stats] computes, position by position. *)
Lemma bert_output_stats_columns n rows (anchors : Anchors) losses predictions :
  rows ≠ [] →
  Forall (λ row : list Cell, length row = n) rows →
  anchors_hold anchors losses predictions rows →
  NoDup losses →
  (∀ key, key ∈ predictions → key ∉ losses) →
  ∃ anchors' : Anchors,
    bert_output_stats (fmap (M:=list) label <$> rows) anchors losses predictions ignore_index
    = Ok (anchors', (mean_position_loss ignore_index (columns n rows),
                     masked_accuracy ignore_index (columns n rows))).
Proof.
  intros Hne Hall [Hloss Hpred] Hnd Hdisj.
  destruct (mask_losses_Ok losses rows anchors Hloss Hnd) as (anchors' & Hmask & Hml & Hother).
  exists anchors'. unfold bert_output_stats. rewrite labels_masks.
  destruct rows as [|row rows'] eqn:Er; [done|].
  change (fmap (M:=list) (fmap (M:=list) um) (row :: rows'))
    with (fmap (M:=list) um row :: fmap (M:=list) (fmap (M:=list) um) rows') at 1.
  cbv match.
  change (fmap (M:=list) um row :: fmap (M:=list) (fmap (M:=list) um) rows')
    with (fmap (M:=list) (fmap (M:=list) um) (row :: rows')).
  rewrite (sum_axis0_columns n) by done. rewrite <- Er in *. clear Er row rows'.
  cbn [rbind].
  rewrite Hmask. cbn [rbind].
  rewrite (reduce_columns anchors' losses n rows) by done. cbn [rbind].
  rewrite master_mask_retained.
  unfold bool_index. rewrite decide_True by (by rewrite !length_fmap). cbn [rbind].
  rewrite !select_fmap. unfold broadcast2.
  rewrite decide_True by (by rewrite !length_fmap).
  cbn [rbind]. rewrite count_correct_Ok; cycle 1.
  { eapply Forall2_impl.
    - apply Forall2_same_length_lookup_2; [by eapply Forall2_length|].
      intros i key row Hi Hr. exact (conj (list_elem_of_lookup_2 _ _ _ Hi)
        (Forall2_lookup_lr _ _ _ _ _ _ Hpred Hi Hr)).
    - intros key row [Hin Hkey]. simpl in *. rewrite Hother; [done | by apply Hdisj]. }
  cbn [rbind]. do 3 f_equal.
  - unfold mean_position_loss, retained. f_equal.
    rewrite zip_with_fmap_l, zip_with_fmap_r, zip_with_fmap_r, zip_with_diag. done.
  - unfold masked_accuracy, of_nat. rewrite sum_divisors, Z.add_0_l.
    assert (length (filter (λ c, correct ignore_index c = true) (concat rows))
            = length (filter (λ c, correct ignore_index c = true) (concat (columns n rows))))
      as -> by (by rewrite (concat_columns n rows Hall)).
    done.
Qed.

(** C2.  For every set of per-position (label, prediction, loss) triples
    held by the anchors, [bert_output_stats] returns: as step loss the mean,
    over the positions where some objective's mask is true, of the summed
    masked loss divided by the number of unmasked objectives [num_losses];
    as accuracy the number of unmasked cells whose prediction equals the
    label divided by the number of unmasked cells.  The divisor is positive
    at every retained position, and a position is retained exactly when
    some objective's mask is true there. *)
Theorem masked_loss_and_accuracy
    (n : nat) (rows : list (list Cell)) (anchors : Anchors)
    (losses predictions : list string) :
  rows ≠ [] →
  Forall (λ row : list Cell, length row = n) rows →
  anchors_hold anchors losses predictions rows →
  NoDup losses →
  (∀ key, key ∈ predictions → key ∉ losses) →
  let cols := columns n rows in
  (∃ anchors' : Anchors,
     bert_output_stats (fmap (M:=list) label <$> rows) anchors losses predictions ignore_index
     = Ok (anchors', (mean_position_loss ignore_index cols,
                      masked_accuracy ignore_index cols))) ∧
  Forall (λ col, 0 < divisor ignore_index col)%Z (retained ignore_index cols) ∧
  (∀ col, col ∈ retained ignore_index cols
          ↔ col ∈ cols ∧ ∃ c, c ∈ col ∧ unmasked ignore_index c = true).
Proof.
  intros Hne Hall Hhold Hnd Hdisj cols.
  split; [by apply bert_output_stats_columns|].
  split; [apply divisor_retained_pos|].
  intros col. unfold retained. rewrite list_elem_of_filter, existsb_exists.
  split.
  - intros [(c & Hc%list_elem_of_In & Hum) Hin]. split; [done|]. by exists c.
  - intros [Hin (c & Hc & Hum)]. split; [|done]. exists c.
    split; [by apply list_elem_of_In | done].
Qed.

Lemma fdiv_of_nat_None a b : fdiv (of_nat a) (of_nat b) = None ↔ b = 0.
Proof.
  unfold fdiv, of_nat, of_Z. destruct (Qeq_bool _ 0) eqn:E.
  - apply Qeq_bool_iff in E. unfold Qeq in E. simpl in E. split; [lia | done].
  - split; [done|]. intros ->. by vm_compute in E.
Qed.

Lemma no_unmasked (l : list Cell) :
  length (filter (λ c, um c = true) l) = 0 ↔ Forall (λ c, um c = false) l.
Proof.
  induction l as [|c l IH]; [by split; [constructor|]|].
  rewrite filter_cons_bool, Forall_cons. destruct (um c); simpl; [|tauto].
  split; [lia | by intros [? _]].
Qed.

Lemma Forall_concat {A} (P : A → Prop) (ls : list (list A)) :
  Forall P (concat ls) ↔ Forall (Forall P) ls.
Proof.
  induction ls as [|l ls IH]; simpl; [by split; constructor|].
  by rewrite Forall_app, Forall_cons, IH.
Qed.

Lemma foldl_fadd_finite (l : list float) : ∀ a,
  is_Some a → Forall is_Some l → is_Some (foldl fadd a l).
Proof.
  induction l as [|x l IH]; intros a Ha Hall; [done|].
  apply Forall_cons in Hall as [[y ->] Hall]. destruct Ha as [z ->]. simpl.
  apply IH; [by eexists | done].
Qed.

Lemma np_mean_finite (l : list float) :
  l ≠ [] → Forall is_Some l → is_Some (np_mean l).
Proof.
  intros Hne Hall. unfold np_mean, np_sum.
  destruct (foldl_fadd_finite l fzero) as [q ->]; [by eexists | done |].
  unfold fdiv, of_nat, of_Z. destruct (Qeq_bool _ 0) eqn:E; [|by eexists].
  apply Qeq_bool_iff in E. unfold Qeq in E. simpl in E. destruct l; [done | simpl in E; lia].
Qed.

(** C9.  Under the same hypotheses [bert_output_stats] returns, and its
    accuracy is undefined (the unguarded division [0 / 0]) exactly when no
    position is unmasked, that is when every label equals the ignore
    value; the step loss is then undefined as well (the mean of an empty
    array), and with finite loss values it is undefined in that case
    only. *)
Theorem stats_defined_iff_unmasked
    (n : nat) (rows : list (list Cell)) (anchors : Anchors)
    (losses predictions : list string) :
  rows ≠ [] →
  Forall (λ row : list Cell, length row = n) rows →
  anchors_hold anchors losses predictions rows →
  NoDup losses →
  (∀ key, key ∈ predictions → key ∉ losses) →
  ∃ (anchors' : Anchors) (step_loss step_accuracy : float),
    bert_output_stats (fmap (M:=list) label <$> rows) anchors losses predictions ignore_index
    = Ok (anchors', (step_loss, step_accuracy)) ∧
    (step_accuracy = None
     ↔ Forall (Forall (λ c, unmasked ignore_index c = false)) rows) ∧
    (Forall (Forall (λ c, unmasked ignore_index c = false)) rows →
     step_loss = None ∧ retained ignore_index (columns n rows) = []) ∧
    (Forall (Forall (λ c, is_Some (loss c))) rows →
     (step_loss = None
      ↔ Forall (Forall (λ c, unmasked ignore_index c = false)) rows)) ∧
    (∀ i, ignore_index = Some i →
     (Forall (Forall (λ c, unmasked ignore_index c = false)) rows
      ↔ Forall (Forall (λ c, label c = i)) rows)).
Proof.
  intros Hne Hall Hhold Hnd Hdisj.
  destruct (bert_output_stats_columns n rows anchors losses predictions)
    as (anchors' & Hrun); try done.
  exists anchors', (mean_position_loss ignore_index (columns n rows)),
    (masked_accuracy ignore_index (columns n rows)).
  split; [done|].
  assert (Hperm := concat_columns n rows Hall).
  assert (Hzero : length (filter (λ c, um c = true) (concat (columns n rows))) = 0
                  ↔ Forall (Forall (λ c, um c = false)) rows).
  { rewrite Hperm, no_unmasked. apply Forall_concat. }
  assert (Hret : Forall (Forall (λ c, um c = false)) rows →
                 retained ignore_index (columns n rows) = []).
  { intros Hm. apply Hzero in Hm.
    pose proof (sum_divisors (columns n rows)) as Hsum. rewrite Hm in Hsum.
    pose proof (divisor_retained_pos (columns n rows)) as Hpos. unfold retained in *.
    destruct (filter _ (columns n rows)) as [|col R]; [done|].
    apply Forall_cons in Hpos as [Hc Hpos]. csimpl in Hsum. rewrite sum_Z_cons in Hsum.
    assert (0 <= sum_Z (div <$> R))%Z; [|lia].
    clear -Hpos. induction R as [|c R IH]; [done|]. csimpl. rewrite sum_Z_cons.
    apply Forall_cons in Hpos as [? ?]. specialize (IH ltac:(done)). lia. }
  split; [|split; [|split]].
  - unfold masked_accuracy. by rewrite fdiv_of_nat_None.
  - intros Hm. split; [|by apply Hret].
    unfold mean_position_loss. by rewrite (Hret Hm).
  - intros Hfin. split; [|intros Hm; unfold mean_position_loss; by rewrite (Hret Hm)].
    intros Hnone. apply Hzero. destruct (retained ignore_index (columns n rows)) as [|col R] eqn:ER.
    + pose proof (sum_divisors (columns n rows)) as Hsum. unfold retained in ER.
      rewrite ER in Hsum. simpl in Hsum. unfold sum_Z in Hsum. simpl in Hsum. lia.
    + exfalso. unfold mean_position_loss in Hnone. rewrite ER in Hnone.
      destruct (np_mean_finite (position_loss ignore_index <$> (col :: R))) as [q Hq];
        [done | | congruence].
      apply Forall_fmap, Forall_forall. intros c Hc. simpl.
      assert (Hin : c ∈ retained ignore_index (columns n rows)) by by rewrite ER.
      pose proof (divisor_retained_pos (columns n rows)) as Hpos.
      rewrite Forall_forall in Hpos. specialize (Hpos c Hin).
      unfold retained in Hin. apply list_elem_of_filter in Hin as [_ Hc_in].
      unfold position_loss.
      assert (Hsum : is_Some (fsum1 (ml <$> c))).
      { assert (Hcells : Forall (λ x, is_Some (loss x)) c).
        { apply Forall_concat in Hfin. rewrite <- Hperm in Hfin.
          apply Forall_concat in Hfin. by eapply Forall_forall in Hfin. }
        unfold fsum1. destruct c as [|x c]; [by eexists|]. csimpl.
        apply Forall_cons in Hcells as [Hx Hcells].
        apply foldl_fadd_finite.
        - unfold masked_loss. destruct (um x); [done | by eexists].
        - apply Forall_fmap. eapply Forall_impl; [exact Hcells|].
          intros y Hy. simpl. unfold masked_loss. destruct (um y); [done | by eexists]. }
      destruct Hsum as [q' ->]. unfold fdiv, of_Z.
      destruct (Qeq_bool _ 0) eqn:E; [|by eexists].
      apply Qeq_bool_iff in E. unfold Qeq in E. simpl in E. lia.
  - intros i ->. unfold unmasked.
    split; intros H; (eapply Forall_impl; [exact H|]); intros row Hrow; simpl in *;
      (eapply Forall_impl; [exact Hrow|]); intros c Hc; simpl in *.
    + apply negb_false_iff in Hc. by apply Z.eqb_eq.
    + apply negb_false_iff. by apply Z.eqb_eq.
Qed.
End StatsFacts.

(** ** Concrete runs *)

Import BertExamples.

Example it_squad_init :
  Iteration_init args_squad 1 60 (aggregate_metrics_over_steps args_squad) = Ok it_squad.
Proof. reflexivity. Qed.

Lemma rolling_windows_bounded_witness :
  let i' := iteration (add_stats_calls calls_windows st_windows).2 in
  items (durations i') = [of_Z 3; of_Z 4; of_Z 5] ∧
  items (cycles i') = [30; 40; 50]%Z ∧
  ∃ ls acs, windows i' = SingleWindows ls acs ∧
            items ls = [Some (3 # 1); Some (4 # 1); Some (5 # 1)]%Q.
Proof.
  assert (H : windows_bounded 3 (iteration st_windows)).
  { repeat split; simpl; lia. }
  pose proof (rolling_windows_bounded 3 calls_windows st_windows H) as Hpost.
  unfold post in Hpost. clear H.
  assert (Hr : (add_stats_calls calls_windows st_windows).1 = Ok tt)
    by (vm_compute; reflexivity).
  set (run := add_stats_calls calls_windows st_windows) in *. clearbody run.
  destruct Hpost as (_ & _ & k & Hk & Hd & Hc & Hw). rewrite Hr in Hk, Hd, Hc.
  subst k. change (take (length calls_windows) calls_windows) with calls_windows in *.
  cbv zeta. split; [exact Hd|]. split; [exact Hc|].
  change (windows (iteration st_windows))
    with (SingleWindows {| maxlen := 3; items := [] |} {| maxlen := 3; items := [] |}) in Hw.
  destruct (windows (iteration run.2)) as [|ls acs]; [destruct Hw|].
  destruct Hw as (vals & Hret & Hl & _). exists ls, acs. split; [reflexivity|].
  rewrite Hl. clear Hl Hd Hc Hr run. vm_compute in Hret. injection Hret as Hret.
  destruct vals as [|[l1 a1] vals]; [discriminate Hret|]. injection Hret as <- _ Hret.
  destruct vals as [|[l2 a2] vals]; [discriminate Hret|]. injection Hret as <- _ Hret.
  destruct vals as [|[l3 a3] vals]; [discriminate Hret|]. injection Hret as <- _ Hret.
  destruct vals as [|[l4 a4] vals]; [discriminate Hret|]. injection Hret as <- _ Hret.
  destruct vals as [|[l5 a5] vals]; [discriminate Hret|]. injection Hret as <- _ Hret.
  destruct vals; [|discriminate Hret]. reflexivity.
Defined.

Lemma padding_batch_skipped_witness :
  bert_process_data no_update same_optimizer args_squad ["start_labels"] batch_padding
    ["loss"] ["pred"] st_squad = (Ok tt, st_squad).
Proof.
  destruct (padding_batch_skipped no_update same_optimizer args_squad ["start_labels"]
              batch_padding ["loss"] ["pred"] st_squad [[0; 0]%Z] eq_refl) as [H _].
  destruct H as [H1 H2]; [repeat constructor|].
  destruct (bert_process_data _ _ _ _ _ _ _ _) as [r s']. simpl in H1, H2. by subst.
Defined.

(** C1 as stated fails on a batch whose only label field is all padding:
    the call returns normally, records nothing and runs nothing, and the
    step counter keeps its value instead of growing by 1. *)
Lemma padding_batch_counterexample :
  let run := bert_process_data no_update same_optimizer args_squad ["start_labels"]
               batch_padding ["loss"] ["pred"] st_squad in
  run.1 = Ok tt ∧ scalars run.2 = [] ∧ runs run.2 = [] ∧
  count (iteration run.2) = count (iteration st_squad) ∧
  count (iteration run.2) ≠ (count (iteration st_squad) + 1)%Z.
Proof. vm_compute. repeat split; discriminate. Qed.

Lemma checkpoint_save_triggers_witness :
  let run := bert_train_loop no_update same_optimizer args_squad dataset_squad
               ["start_labels"] ["pred"] ["loss"] st_squad in
  let quiet := bert_train_loop no_update same_optimizer args_no_save dataset_squad
                 ["start_labels"] ["pred"] ["loss"] st_squad in
  saved run.2
  = [("ckpt/model_0.onnx", 0); ("ckpt/model_0:50.onnx", 50);
     ("ckpt/model_1:100.onnx", 100); ("ckpt/model.onnx", 120)]%Z
  ∧ (saved run.2).*2 = [0; 50; 100; 120]%Z
  ∧ saved quiet.2 = [].
Proof.
  pose proof (checkpoint_save_triggers no_update same_optimizer args_squad dataset_squad
                ["start_labels"] ["pred"] ["loss"] st_squad) as H.
  pose proof (checkpoint_save_triggers no_update same_optimizer args_no_save dataset_squad
                ["start_labels"] ["pred"] ["loss"] st_squad) as Hq.
  unfold post in H, Hq. destruct H as [_ H]. destruct Hq as [Hq _].
  destruct (H eq_refl eq_refl) as [[_ H1] H2]; [by vm_compute|]. clear H.
  cbv zeta. split; [|split].
  - rewrite H1. by vm_compute.
  - apply H2; [reflexivity | reflexivity | reflexivity | vm_compute; reflexivity |].
    apply (bool_decide_unpack _). vm_compute. exact I.
  - exact (Hq eq_refl).
Defined.

(** C5 as stated fails when saving is disabled: the same run of 120
    processed batches, with [steps_per_save = 50], ends normally at step
    120 and saves nothing. *)
Lemma checkpoint_no_save_counterexample :
  let run := bert_train_loop no_update same_optimizer args_no_save dataset_squad
               ["start_labels"] ["pred"] ["loss"] st_squad in
  run.1 = Ok tt ∧ count (iteration run.2) = 120%Z ∧ saved run.2 = [].
Proof. by vm_compute. Qed.


Lemma disjoint_keys (l1 l2 : list string) :
  Forall (λ k, k ∉ l2) l1 → ∀ key, key ∈ l1 → key ∉ l2.
Proof. rewrite Forall_forall. auto. Qed.

Lemma anchors_mlm_nsp_hold :
  anchors_hold anchors_mlm_nsp ["loss0"; "loss1"] ["pred0"; "pred1"] rows_mlm_nsp.
Proof. split; by repeat constructor. Qed.

Lemma anchors_ignored_hold :
  anchors_hold anchors_ignored ["loss0"] ["pred0"] rows_ignored.
Proof. split; by repeat constructor. Qed.

Lemma masked_loss_and_accuracy_witness :
  ∃ anchors' : Anchors,
    bert_output_stats [[4; 6; 0]; [1; 0; 0]]%Z anchors_mlm_nsp
      ["loss0"; "loss1"] ["pred0"; "pred1"] (Some 0%Z)
    = Ok (anchors', (Some (18 # 16)%Q, Some (2 # 3)%Q)).
Proof.
  destruct (masked_loss_and_accuracy (Some 0%Z) 3 rows_mlm_nsp anchors_mlm_nsp
              ["loss0"; "loss1"] ["pred0"; "pred1"]) as [[anchors' H] _].
  - done.
  - by repeat constructor.
  - exact anchors_mlm_nsp_hold.
  - by apply (bool_decide_unpack _).
  - apply disjoint_keys. by apply (bool_decide_unpack _).
  - exists anchors'. exact H.
Defined.

Lemma stats_defined_iff_unmasked_witness :
  ∃ (anchors' : Anchors) (step_loss : float),
    bert_output_stats [[0; 0]]%Z anchors_ignored ["loss0"] ["pred0"] (Some 0%Z)
    = Ok (anchors', (step_loss, None)).
Proof.
  destruct (stats_defined_iff_unmasked (Some 0%Z) 2 rows_ignored anchors_ignored
              ["loss0"] ["pred0"]) as (anchors' & step_loss & acc & H & Hacc & _).
  - done.
  - by repeat constructor.
  - exact anchors_ignored_hold.
  - by apply (bool_decide_unpack _).
  - apply disjoint_keys. by apply (bool_decide_unpack _).
  - exists anchors', step_loss.
    rewrite <- (proj2 Hacc) by (by repeat constructor). exact H.
Defined.

End BertFacts.

(** * Further properties *)

Lemma comprehension_getitem_Raise {V} (d : gmap string V) ks e :
  Bert.comprehension (getitem d) ks = Raise e → e = KeyError.
Proof.
  revert e. induction ks as [|k ks IH]; intros e; [done|].
  simpl. unfold getitem at 1. destruct (d !! k); simpl; [|intros ?; congruence].
  destruct (Bert.comprehension (getitem d) ks); simpl; [done|]. intros ?. apply IH. congruence.
Qed.

(** ** get_tf_mapping *)

Module MappingFacts.
Import TfLoader TfCheckpoint.

(** *** Strings *)

Lemma string_app_cons c (a b : string) : String c a +:+ b = String c (a +:+ b).
Proof. done. Qed.

Lemma string_app_assoc (a b c : string) : (a +:+ b) +:+ c = a +:+ (b +:+ c).
Proof.
  induction a as [|x a IH]; [done|]. rewrite !string_app_cons. by rewrite IH.
Qed.

Lemma string_app_length (a b : string) :
  String.length (a +:+ b) = String.length a + String.length b.
Proof.
  induction a as [|x a IH]; [done|]. rewrite string_app_cons. simpl. by rewrite IH.
Qed.

Lemma substring_app_r (a b : string) n m :
  String.substring (String.length a + n) m (a +:+ b) = String.substring n m b.
Proof. induction a as [|x a IH]; [done|]. rewrite string_app_cons. simpl. apply IH. Qed.

Lemma py_last3_app (a b : string) :
  3 ≤ String.length b → py_last3 (a +:+ b) = py_last3 b.
Proof.
  intros Hb. unfold py_last3. rewrite string_app_length.
  replace (String.length a + String.length b - 3)
    with (String.length a + (String.length b - 3)) by lia.
  apply substring_app_r.
Qed.

Lemma py_split_nonempty sep s : py_split sep s ≠ [].
Proof.
  destruct s as [|c s]; [done|]. simpl. case_decide; [done|].
  by destruct (py_split sep s).
Qed.

Lemma py_split_app sep (a b : string) :
  py_split sep (a +:+ String sep b) = py_split sep a ++ py_split sep b.
Proof.
  induction a as [|c a IH]; [by simpl; rewrite decide_True|].
  rewrite string_app_cons. simpl.
  - case_decide; [by rewrite IH|].
    rewrite IH. pose proof (py_split_nonempty sep a) as Hne.
    by destruct (py_split sep a).
Qed.

Lemma py_index_neg2_app {A} (l : list A) x y : py_index_neg2 (l ++ [x; y]) = Ok x.
Proof.
  unfold py_index_neg2. rewrite length_app. simpl.
  replace (length l + 2 - 2) with (length l + 0) by lia.
  rewrite lookup_app_r by lia.
  replace (length l + 0 - length l) with 0 by lia. simpl.
  rewrite decide_True by lia. done.
Qed.

(** *** The attention kernels *)

Lemma kernel_name_part i p :
  py_index_neg2 (py_split "/"%char (kernel_name i p)) = Ok (part_name p).
Proof.
  unfold kernel_name.
  assert (E : ∀ a : string,
    py_split "/"%char (a +:+ ("/attention/self/" +:+ part_name p +:+ "/kernel"))
    = py_split "/"%char (a +:+ "/attention/self") ++ [part_name p; "kernel"]).
  { intros a.
    replace (a +:+ ("/attention/self/" +:+ part_name p +:+ "/kernel"))
      with ((a +:+ "/attention/self") +:+ String "/"%char (part_name p +:+ "/kernel"))
      by (by rewrite string_app_assoc).
    rewrite py_split_app. f_equal. by destruct p. }
  rewrite E. apply py_index_neg2_app.
Qed.

Lemma qkv_target_last3 i : py_last3 (qkv_target i) = "QKV".
Proof.
  unfold qkv_target. by rewrite py_last3_app by (simpl; lia).
Qed.


(** *** Decimal numerals contain no slash *)

Lemma pretty_N_go_no_slash x : ∀ s,
  occurs "/"%char s = false → occurs "/"%char (pretty_N_go x s) = false.
Proof.
  induction (N.lt_wf_0 x) as [x _ IH]; intros s Hs.
  assert (x = 0 ∨ 0 < x)%N as [->|Hx] by lia; [by rewrite pretty_N_go_0|].
  rewrite pretty_N_go_step by done. apply IH; [by apply N.div_lt|].
  simpl. rewrite Hs, orb_false_r. apply bool_decide_eq_false.
  unfold pretty_N_char. by repeat case_match.
Qed.

Lemma pretty_nat_no_slash (i : nat) : occurs "/"%char (pretty i) = false.
Proof.
  unfold pretty, pretty_nat, pretty, pretty_N. case_decide; [done|].
  by apply pretty_N_go_no_slash.
Qed.

Lemma split_at_slash (a a' r r' : string) :
  occurs "/"%char a = false → occurs "/"%char a' = false →
  a +:+ String "/"%char r = a' +:+ String "/"%char r' → a = a' ∧ r = r'.
Proof.
  revert a'. induction a as [|c a IH]; intros [|c' a'] Ha Ha' E.
  - by injection E.
  - rewrite string_app_cons in E. injection E as <- _. by simpl in Ha'.
  - rewrite string_app_cons in E. injection E as -> _. by simpl in Ha.
  - rewrite !string_app_cons in E. injection E as -> E. simpl in Ha, Ha'.
    apply orb_false_elim in Ha as [_ Ha]. apply orb_false_elim in Ha' as [_ Ha'].
    destruct (IH a' Ha Ha' E) as [-> ->]. done.
Qed.

(** *** The entries of the mapping *)

Lemma layer_mapping_suffixes i :
  layer_mapping i
  = (λ sd, (layer_src i +:+ sd.1, layer_dst i +:+ sd.2)) <$> layer_suffixes.
Proof. done. Qed.

Lemma layer_key_inj i j (a b r r' : string) :
  layer_src i +:+ String "/"%char r = layer_src j +:+ String "/"%char r' →
  i = j ∧ r = r'.
Proof.
  unfold layer_src. rewrite !string_app_assoc. intros E%(inj _).
  apply split_at_slash in E as [E ->]; [|apply pretty_nat_no_slash..].
  split; [|done]. by apply (inj pretty).
Qed.


Lemma suffix_slash sd : sd ∈ layer_suffixes → ∃ r, sd.1 = String "/"%char r.
Proof.
  unfold layer_suffixes. intros H.
  repeat (apply elem_of_cons in H as [->|H]; [by eexists|]).
  by apply elem_of_nil in H.
Qed.

Lemma elem_of_concat {A} (x : A) (ls : list (list A)) :
  x ∈ concat ls ↔ ∃ l, x ∈ l ∧ l ∈ ls.
Proof.
  induction ls as [|l ls IH]; simpl.
  - split; [by intros ?%elem_of_nil | by intros (? & _ & ?%elem_of_nil)].
  - rewrite elem_of_app, IH. split.
    + intros [H|(l' & H1 & H2)]; [exists l | exists l']; split; try done.
      * apply list_elem_of_here.
      * by apply list_elem_of_further.
    + intros (l' & H1 & [->|H2]%elem_of_cons); [by left | right; by exists l'].
Qed.

Lemma concat_singleton {A B} (f : A → list B) x : concat (f <$> [x]) = f x.
Proof. simpl. apply app_nil_r. Qed.

Lemma layer_entries_elem n x :
  x ∈ concat (layer_mapping <$> seq 0 n) ↔
  ∃ i sd, i < n ∧ sd ∈ layer_suffixes ∧
          x = (layer_src i +:+ sd.1, layer_dst i +:+ sd.2).
Proof.
  rewrite elem_of_concat. split.
  - intros (l & Hx & Hl). apply list_elem_of_fmap in Hl as (i & -> & Hi).
    apply elem_of_seq in Hi. rewrite layer_mapping_suffixes in Hx.
    apply list_elem_of_fmap in Hx as (sd & -> & Hsd). exists i, sd. split; [lia | done].
  - intros (i & sd & Hi & Hsd & ->). exists (layer_mapping i). split.
    + rewrite layer_mapping_suffixes. apply list_elem_of_fmap. by exists sd.
    + apply list_elem_of_fmap. exists i. split; [done|]. apply elem_of_seq. lia.
Qed.

Lemma layer_keys_NoDup n : NoDup (concat (layer_mapping <$> seq 0 n)).*1.
Proof.
  induction n as [|n IH]; [constructor|].
  rewrite seq_S, fmap_app, concat_app, fmap_app, concat_singleton.
  apply NoDup_app. split; [done|]. split.
  - intros k Hk Hk'.
    apply list_elem_of_fmap in Hk as (x & -> & Hx).
    apply layer_entries_elem in Hx as (i & sd & Hi & Hsd & ->).
    apply list_elem_of_fmap in Hk' as (y & Hy & Hy').
    rewrite layer_mapping_suffixes in Hy'.
    apply list_elem_of_fmap in Hy' as (sd' & -> & Hsd'). simpl in Hy.
    destruct (suffix_slash _ Hsd) as [r Hr], (suffix_slash _ Hsd') as [r' Hr'].
    rewrite Hr, Hr' in Hy. apply layer_key_inj in Hy as [-> _]; [lia | done..].
  - rewrite layer_mapping_suffixes, <- list_fmap_compose.
    apply (NoDup_fmap_2_strong _).
    + intros sd sd' Hsd Hsd' E. simpl in E. apply (inj _) in E.
      revert sd sd' Hsd Hsd' E. unfold layer_suffixes. intros sd sd' Hsd Hsd' E.
      repeat (apply elem_of_cons in Hsd as [->|Hsd]);
        try (by apply elem_of_nil in Hsd);
        repeat (apply elem_of_cons in Hsd' as [->|Hsd']);
        try (by apply elem_of_nil in Hsd'); done.
    + unfold layer_suffixes. apply (bool_decide_unpack _). by vm_compute.
Qed.


Lemma mapping_keys_NoDup n : NoDup (mapping_entries n).*1.
Proof.
  unfold mapping_entries. rewrite fmap_app. apply NoDup_app.
  split; [apply (bool_decide_unpack _); by vm_compute|].
  split; [|apply layer_keys_NoDup].
  intros k Hk Hk'. apply list_elem_of_fmap in Hk' as (x & -> & Hx).
  apply layer_entries_elem in Hx as (i & sd & _ & _ & ->). simpl in Hk.
  unfold layer_src in Hk. rewrite string_app_assoc in Hk.
  generalize dependent (pretty i +:+ sd.1). intros rest Hk.
  unfold embedding_mapping in Hk. cbn [fmap list_fmap fst] in Hk.
  repeat (apply elem_of_cons in Hk as [Hk|Hk]; [by injection Hk|]).
  by apply elem_of_nil in Hk.
Qed.

Lemma dict_update_app {V} (m : gmap string V) l1 l2 :
  dict_update m (l1 ++ l2) = dict_update (dict_update m l1) l2.
Proof. unfold dict_update. apply foldl_app. Qed.

Lemma dict_update_layers {V} (f : nat → list (string * V)) ns : ∀ m,
  foldl (λ m i, dict_update m (f i)) m ns = dict_update m (concat (f <$> ns)).
Proof.
  induction ns as [|i ns IH]; intros m; [done|].
  simpl. by rewrite IH, dict_update_app.
Qed.

Lemma get_tf_mapping_entries cfg :
  get_tf_mapping cfg = dict_update ∅ (mapping_entries (num_layers cfg)).
Proof.
  unfold get_tf_mapping, mapping_entries. by rewrite dict_update_layers, dict_update_app.
Qed.

Lemma dict_update_NoDup {V} (l : list (string * V)) : ∀ m,
  NoDup l.*1 → (∀ k, k ∈ l.*1 → m !! k = None) →
  (∀ k v, dict_update m l !! k = Some v ↔ (k, v) ∈ l ∨ m !! k = Some v) ∧
  size (dict_update m l) = size m + length l.
Proof.
  induction l as [|[k0 v0] l IH]; intros m Hnd Hfresh.
  - split; [|simpl; lia]. intros k v. simpl. rewrite elem_of_nil. tauto.
  - rewrite fmap_cons in Hnd. apply NoDup_cons in Hnd as [Hk0 Hnd].
    assert (Hm : m !! k0 = None) by (apply Hfresh; rewrite fmap_cons; apply list_elem_of_here).
    destruct (IH (<[k0 := v0]> m) Hnd) as [Hlook Hsize].
    { intros k Hk. rewrite lookup_insert_ne by (intros ->; done).
      apply Hfresh. rewrite fmap_cons. by apply list_elem_of_further. }
    split.
    + intros k v. change (dict_update m ((k0, v0) :: l)) with (dict_update (<[k0 := v0]> m) l).
      rewrite Hlook, elem_of_cons. destruct (decide (k = k0)) as [->|Hne].
      * rewrite lookup_insert_eq, Hm. split.
        -- intros [Hin|[= ->]]; [|by left; left].
           exfalso. apply Hk0. apply list_elem_of_fmap. by exists (k0, v).
        -- intros [[[= ->]|Hin]|?]; [by right | by left | done].
      * rewrite lookup_insert_ne by done. split.
        -- intros [?|?]; [left; by right | by right].
        -- intros [[[= -> _]|?]|?]; [done | by left | by right].
    + change (dict_update m ((k0, v0) :: l)) with (dict_update (<[k0 := v0]> m) l).
      rewrite Hsize, map_size_insert_None by done. simpl. lia.
Qed.

Lemma get_tf_mapping_lookup (cfg : BertConfig) name target :
  get_tf_mapping cfg !! name = Some target
  ↔ (name, target) ∈ embedding_mapping ∨
    ∃ i, i < num_layers cfg ∧ (name, target) ∈ layer_mapping i.
Proof.
  rewrite get_tf_mapping_entries.
  destruct (dict_update_NoDup (mapping_entries (num_layers cfg)) ∅
              (mapping_keys_NoDup _) (λ k _, lookup_empty k)) as [Hlook _].
  rewrite Hlook, lookup_empty. unfold mapping_entries.
  rewrite elem_of_app, elem_of_concat. split.
  - intros [[?|(l & Hin & Hl)]|?]; [by left | | done]. right.
    apply list_elem_of_fmap in Hl as (i & -> & Hi). exists i. split; [|done].
    apply elem_of_seq in Hi. lia.
  - intros [?|(i & Hi & Hin)]; [left; by left|]. left. right.
    exists (layer_mapping i). split; [done|]. apply list_elem_of_fmap.
    exists i. split; [done|]. apply elem_of_seq. lia.
Qed.

(** [get_tf_mapping] holds exactly the nine embedding and classifier
    entries and the twelve entries of each layer below [num_layers]: no
    two entries share a checkpoint name, so none is overwritten, and the
    mapping has [9 + 12 * num_layers] entries. *)
Theorem get_tf_mapping_complete (cfg : BertConfig) :
  (∀ name target,
     get_tf_mapping cfg !! name = Some target
     ↔ (name, target) ∈ embedding_mapping ∨
       ∃ i, i < num_layers cfg ∧ (name, target) ∈ layer_mapping i) ∧
  size (get_tf_mapping cfg) = 9 + 12 * num_layers cfg.
Proof.
  split; [apply get_tf_mapping_lookup|].
  rewrite get_tf_mapping_entries.
  destruct (dict_update_NoDup (mapping_entries (num_layers cfg)) ∅
              (mapping_keys_NoDup _) (λ k _, lookup_empty k)) as [_ Hsize].
  - rewrite Hsize, map_size_empty. unfold mapping_entries. rewrite length_app.
    assert (H : ∀ n, length (concat (layer_mapping <$> seq 0 n)) = 12 * n).
    { intros n. induction n as [|n IH]; [done|].
      rewrite seq_S, fmap_app, concat_app, length_app, IH, concat_singleton.
      rewrite layer_mapping_suffixes, length_fmap. simpl. lia. }
    rewrite H. simpl. lia.
Qed.


Lemma embedding_targets name target :
  (name, target) ∈ embedding_mapping → py_last3 target ≠ "QKV".
Proof.
  unfold embedding_mapping. intros H.
  repeat (apply elem_of_cons in H as [[= -> ->]|H]; [done|]).
  by apply elem_of_nil in H.
Qed.

Lemma layer_targets i name target :
  (name, target) ∈ layer_mapping i → py_last3 target = "QKV" →
  ∃ p, name = kernel_name i p ∧ target = qkv_target i.
Proof.
  rewrite layer_mapping_suffixes. intros (sd & [= -> ->] & Hsd)%list_elem_of_fmap.
  unfold layer_suffixes in Hsd.
  repeat (apply elem_of_cons in Hsd as [->|Hsd]); [..|by apply elem_of_nil in Hsd];
    cbn [fst snd]; intros Hq.
  1: by exists Query. 1: by exists Key. 1: by exists Value.
  all: rewrite py_last3_app in Hq by (simpl; lia); done.
Qed.

Lemma kernel_in_layer i p : (kernel_name i p, qkv_target i) ∈ layer_mapping i.
Proof.
  unfold layer_mapping. destruct p.
  - apply list_elem_of_here.
  - apply list_elem_of_further, list_elem_of_here.
  - do 2 apply list_elem_of_further. apply list_elem_of_here.
Qed.

Lemma qkv_kernel (cfg : BertConfig) name target :
  get_tf_mapping cfg !! name = Some target → py_last3 target = "QKV" →
  ∃ i p, i < num_layers cfg ∧ name = kernel_name i p ∧ target = qkv_target i.
Proof.
  intros [Hin|(i & Hi & Hin)]%get_tf_mapping_lookup Hq.
  - by destruct (embedding_targets _ _ Hin).
  - destruct (layer_targets _ _ _ Hin Hq) as (p & -> & ->). by exists i, p.
Qed.

Lemma kernel_part_range (cfg : BertConfig) i p :
  py_index_neg2 (py_split "/"%char (kernel_name i p)) = Ok (part_name p) ∧
  getitem (qkv_tensor_range cfg) (part_name p) = Ok (part_range (hidden_size cfg) p).
Proof. split; [apply kernel_name_part|]. by destruct p. Qed.

(** The names that [get_tf_mapping] sends to a target ending in "QKV" are
    exactly the query, key and value kernels of the layers below
    [num_layers], the three kernels of a layer sharing one target; for
    each of them the last-but-one component of the name, which
    [generate_initializers] uses as the part, is a key of
    [qkv_tensor_range], and selects the column range of that part. *)
Theorem qkv_names_consistent (cfg : BertConfig) :
  (∀ name target,
     get_tf_mapping cfg !! name = Some target ∧ py_last3 target = "QKV"
     ↔ ∃ i p, i < num_layers cfg ∧ name = kernel_name i p ∧ target = qkv_target i) ∧
  (∀ i p,
     py_index_neg2 (py_split "/"%char (kernel_name i p)) = Ok (part_name p) ∧
     getitem (qkv_tensor_range cfg) (part_name p)
     = Ok (part_range (hidden_size cfg) p)).
Proof.
  split.
  - intros name target. split.
    + intros [Hmap Hq]. by apply (qkv_kernel cfg).
    + intros (i & p & Hi & -> & ->). split; [|apply qkv_target_last3].
      apply get_tf_mapping_lookup. right. exists i. split; [done | apply kernel_in_layer].
  - apply kernel_part_range.
Qed.

End MappingFacts.

(** ** generate_initializers and load_initializers_from_tf *)

Module LoadFacts.
Import TfLoader TfCheckpoint LoaderFacts MappingFacts.

Section Load.
Context {elt : Type}.
Variable zero : elt.
Variable cast : DType → DType → elt → elt.

Lemma NoDup_fst_unique {A B} (l : list (A * B)) x y1 y2 :
  NoDup l.*1 → (x, y1) ∈ l → (x, y2) ∈ l → y1 = y2.
Proof.
  induction l as [|[a b] l IH]; intros Hnd H1 H2; [by apply elem_of_nil in H1|].
  rewrite fmap_cons in Hnd. apply NoDup_cons in Hnd as [Ha Hnd].
  apply elem_of_cons in H1 as [H1|H1]; apply elem_of_cons in H2 as [H2|H2].
  - congruence.
  - injection H1 as -> ->. destruct Ha. apply list_elem_of_fmap. by exists (a, y2).
  - injection H2 as -> ->. destruct Ha. apply list_elem_of_fmap. by exists (a, y1).
  - by apply IH.
Qed.

Lemma load_variable_Ok (ckpt : list (string * ndarray elt)) name :
  name ∈ ckpt.*1 → ∃ a, load_variable ckpt name = Ok a ∧ (name, a) ∈ ckpt.
Proof.
  induction ckpt as [|[n a] ckpt IH]; intros Hin; [by apply elem_of_nil in Hin|].
  simpl. case_decide as Hn.
  - subst. exists a. split; [done | apply list_elem_of_here].
  - rewrite fmap_cons in Hin. apply elem_of_cons in Hin as [->|Hin]; [done|].
    destruct (IH Hin) as (a' & -> & Hin'). exists a'. split; [done|].
    by apply list_elem_of_further.
Qed.

Lemma comprehension_Ok {X Y} (f : X → res Y) xs :
  Forall (λ x, ∃ y, f x = Ok y) xs →
  ∃ ys, Bert.comprehension f xs = Ok ys ∧ Forall2 (λ x y, f x = Ok y) xs ys.
Proof.
  induction 1 as [|x xs [y Hy] _ (ys & IH & Hall)]; simpl.
  - exists []. split; [done | constructor].
  - rewrite Hy, IH. simpl. exists (y :: ys). split; [done | by constructor].
Qed.

(** What [load_tf_ckpt_data] returns. *)
Lemma load_tf_ckpt_data_Ok (ckpt : list (string * ndarray elt)) mapping :
  ∃ data,
    load_tf_ckpt_data ckpt mapping
    = Ok (filter (λ name, is_Some (mapping !! name)) ckpt.*1, data) ∧
    Forall2 (λ name a, (name, a) ∈ ckpt)
            (filter (λ name, is_Some (mapping !! name)) ckpt.*1) data.
Proof.
  unfold load_tf_ckpt_data.
  destruct (comprehension_Ok (load_variable ckpt)
              (filter (λ name, is_Some (mapping !! name)) ckpt.*1)) as (ys & -> & Hall).
  { apply Forall_forall. intros name [_ Hin]%list_elem_of_filter.
    destruct (load_variable_Ok ckpt name Hin) as (a & -> & _). by exists a. }
  exists ys. split; [done|]. eapply Forall2_impl; [exact Hall|].
  intros name a Hload. simpl in Hload.
  assert (Hn : name ∈ ckpt.*1 ∨ name ∉ ckpt.*1) by (destruct (decide (name ∈ ckpt.*1)); auto).
  destruct Hn as [Hin|Hout].
  - destruct (load_variable_Ok ckpt name Hin) as (a' & Ha' & Hin'). congruence.
  - exfalso. clear -Hload Hout. induction ckpt as [|[n b] ckpt IH]; [done|].
    simpl in Hload. rewrite fmap_cons, not_elem_of_cons in Hout. destruct Hout as [Hne Hout].
    simpl in Hne. rewrite decide_False in Hload by done. by apply IH.
Qed.

Lemma for_each_never {S X} (body : S → X → res S) (e : exn) xs : ∀ s,
  (∀ s x, x ∈ xs → body s x ≠ Raise e) → for_each body s xs ≠ Raise e.
Proof.
  induction xs as [|x xs IH]; intros s Hbody; [done|].
  simpl. destruct (body s x) as [s'|e'] eqn:E; simpl.
  - apply IH. intros s0 x0 Hx0. apply Hbody. by apply list_elem_of_further.
  - intros [= ->]. by apply (Hbody s x (list_elem_of_here _ _)).
Qed.

Local Arguments assign_columns : simpl never.
Local Arguments pad_or_crop : simpl never.
Local Arguments narrow : simpl never.
Local Arguments py_split : simpl never.
Local Arguments py_last3 : simpl never.
Local Arguments qkv_tensor_range : simpl never.

Lemma assign_columns_Raise (buf : ndarray (option elt)) a b v e :
  assign_columns cast buf a b v = Raise e → e ≠ KeyError.
Proof.
  unfold assign_columns. destruct buf as [|dt c rows]; [by intros [= <-]|].
  unfold broadcast_to, broadcast. destruct v as [dv xs|dv c' rows'].
  - case_decide; simpl; [done|]. destruct xs as [|? [|? ?]]; simpl; try done;
      by intros [= <-].
  - repeat (case_decide || case_match); simpl; try done; by intros [= <-].
Qed.

Lemma pad_or_crop_Raise cfg (a : ndarray elt) e :
  pad_or_crop zero cfg a = Raise e → e ≠ KeyError.
Proof.
  unfold pad_or_crop, concatenate0, crop_rows, np_zeros.
  repeat (case_decide || case_match); simpl; try done; by intros [= <-].
Qed.

Lemma gi_step_no_KeyError cfg inits (name : string) (a : ndarray elt) :
  is_Some (get_tf_mapping cfg !! name) →
  gi_step zero cast (get_tf_mapping cfg) cfg inits (name, a) ≠ Raise KeyError.
Proof.
  intros [target Htarget]. unfold gi_step. rewrite (getitem_Some _ _ _ Htarget).
  cbn [rbind]. case_decide as Hq.
  - destruct (qkv_kernel cfg name target Htarget Hq) as (i & p & _ & -> & ->).
    destruct (kernel_part_range cfg i p) as [-> Hrange]. cbn [rbind].
    destruct (inits !! qkv_target i) as [buf|] eqn:Hbuf; cbn [rbind].
    + rewrite Hrange. cbn [rbind]. rewrite (getitem_Some _ _ _ Hbuf). cbn [rbind].
      destruct (assign_columns _ _ _ _ _) eqn:E; [done|]. cbn [rbind].
      intros [= ->]. by apply assign_columns_Raise in E.
    + destruct (shape1 _) as [c|e] eqn:Es; cbn [rbind].
      * rewrite Hrange. cbn [rbind].
        rewrite (getitem_Some _ _ _ (lookup_insert_eq _ _ _)). cbn [rbind].
        destruct (assign_columns _ _ _ _ _) eqn:E; [done|]. cbn [rbind].
        intros [= ->]. by apply assign_columns_Raise in E.
      * unfold shape1 in Es. destruct (narrow _ _ _); [|done]. by injection Es as <-.
  - case_decide.
    + destruct (pad_or_crop _ _ _) eqn:E; [done|]. cbn [rbind].
      intros [= ->]. by apply pad_or_crop_Raise in E.
    + done.
Qed.

(** [load_initializers_from_tf] never raises [KeyError], whatever the
    file holds: variables that the mapping does not know are left out
    before [generate_initializers] looks names up, and the part of every
    kernel mapped to a QKV buffer is one of query, key and value. *)
Theorem load_never_KeyError (file : list (string * ndarray elt)) (is_checkpoint : bool)
    (cfg : BertConfig) :
  load_initializers_from_tf zero cast file is_checkpoint cfg ≠ Raise KeyError.
Proof.
  unfold load_initializers_from_tf.
  assert (Hgen : ∀ names (data : list (ndarray elt)),
    Forall (λ name, is_Some (get_tf_mapping cfg !! name)) names →
    generate_initializers zero cast (get_tf_mapping cfg) cfg names data ≠ Raise KeyError).
  { intros names data Hnames. unfold generate_initializers. apply for_each_never.
    intros s [name a] Hin. apply gi_step_no_KeyError.
    apply elem_of_zip_l in Hin. by eapply (proj1 (Forall_forall _ _) Hnames). }
  assert (Hfil : ∀ l : list string,
    Forall (λ name, is_Some (get_tf_mapping cfg !! name))
           (filter (λ name, is_Some (get_tf_mapping cfg !! name)) l)).
  { intros l. apply Forall_forall. by intros name [? _]%list_elem_of_filter. }
  destruct is_checkpoint.
  - destruct (load_tf_ckpt_data_Ok file (get_tf_mapping cfg)) as (data & -> & _).
    cbn [rbind fst snd]. apply Hgen, Hfil.
  - cbn [rbind]. unfold load_tf_frozen_data. cbn [fst snd]. apply Hgen, Hfil.
Qed.


(** *** The keys and the dtypes of the result *)

Lemma assign_columns_dtype (buf buf' : ndarray (option elt)) a b v :
  assign_columns cast buf a b v = Ok buf' → dtype buf' = dtype buf.
Proof.
  unfold assign_columns. destruct buf as [|dt c rows]; [done|].
  destruct (broadcast_to _ _ _); simpl; [|done]. by intros [= <-].
Qed.

Lemma pad_or_crop_dtype cfg (a a' : ndarray elt) :
  pad_or_crop zero cfg a = Ok a' → dtype a' = dtype a.
Proof.
  unfold pad_or_crop, concatenate0, crop_rows, np_zeros.
  repeat (case_decide || case_match); simpl; try done; by intros [= <-].
Qed.

Lemma dtype_transpose {A} (a : ndarray A) : dtype (transpose a) = dtype a.
Proof. by destruct a. Qed.

Lemma dtype_amap {A B} (f : A → B) (a : ndarray A) : dtype (amap f a) = dtype a.
Proof. by destruct a. Qed.

(** One step of the loop: the entry's name is mapped, its target is the
    one key that may be new, and the tensor stored under it has the dtype
    of the buffer that was there, if this is a QKV buffer, and of the
    narrowed entry otherwise. *)
Lemma gi_step_Ok mapping cfg inits inits' name (a : ndarray elt) :
  gi_step zero cast mapping cfg inits (name, a) = Ok inits' →
  ∃ target stored,
    mapping !! name = Some target ∧ inits' = <[target := stored]> inits ∧
    (dtype stored = dtype (narrow cast cfg a) ∨
     ∃ old, inits !! target = Some old ∧ dtype stored = dtype old).
Proof.
  unfold gi_step, getitem. destruct (mapping !! name) as [target|]; [|done].
  cbn [rbind]. intros H. exists target. case_decide as Hq.
  - destruct (py_index_neg2 _); [|done]. cbn [rbind] in H.
    destruct (inits !! target) as [buf|] eqn:Hbuf; cbn [rbind] in H.
    + destruct (qkv_tensor_range cfg !! _); [|done]. cbn [rbind] in H.
      rewrite Hbuf in H. cbn [rbind] in H.
      destruct (assign_columns _ _ _ _ _) as [buf'|] eqn:E; [|done].
      injection H as <-. exists buf'. split; [done|]. split; [done|]. right.
      exists buf. split; [done|]. by eapply assign_columns_dtype.
    + destruct (shape1 _) as [c|]; [|done]. cbn [rbind] in H.
      destruct (qkv_tensor_range cfg !! _); [|done]. cbn [rbind] in H.
      rewrite lookup_insert_eq in H. cbn [rbind] in H.
      destruct (assign_columns _ _ _ _ _) as [buf'|] eqn:E; [|done].
      injection H as <-. exists buf'. split; [done|].
      split; [by rewrite insert_insert_eq|]. left.
      by rewrite (assign_columns_dtype _ _ _ _ _ E).
  - destruct (if decide (target = EMBEDDING_DICT)
              then pad_or_crop zero cfg (narrow cast cfg a)
              else Ok (narrow cast cfg a)) as [a'|] eqn:E; [|done].
    cbn [rbind] in H. injection H as <-. eexists. split; [done|]. split; [done|]. left.
    assert (Hd : dtype a' = dtype (narrow cast cfg a)).
    { case_decide; [by eapply pad_or_crop_dtype | congruence]. }
    rewrite dtype_amap. clear E.
    case_decide; rewrite ?dtype_transpose; done.
Qed.

Local Arguments gi_step : simpl never.

(** When [generate_initializers] returns, the keys of the result are
    exactly the targets of the names it was given (as many names as
    there are arrays): there is no entry for a tensor that the
    checkpoint lacks, and none without a source. *)
Theorem generate_initializers_keys (mapping : gmap string string) (cfg : BertConfig)
    (map_names : list string) (load_data : list (ndarray elt))
    (m : gmap string (ndarray (option elt))) :
  generate_initializers zero cast mapping cfg map_names load_data = Ok m →
  ∀ target,
    is_Some (m !! target)
    ↔ ∃ name, name ∈ (zip map_names load_data).*1 ∧ mapping !! name = Some target.
Proof.
  unfold generate_initializers.
  assert (H : ∀ l (inits m : gmap string (ndarray (option elt))),
    for_each (gi_step zero cast mapping cfg) inits l = Ok m →
    ∀ target, is_Some (m !! target)
      ↔ is_Some (inits !! target) ∨ ∃ name, name ∈ l.*1 ∧ mapping !! name = Some target).
  { induction l as [|[name a] l IH]; intros inits m' Hrun target.
    - injection Hrun as <-. split; [by left|]. intros [?|(? & ?%elem_of_nil & _)]; done.
    - simpl in Hrun. destruct (gi_step _ _ _ _ _ _) as [inits1|] eqn:E; [|done].
      cbn [rbind] in Hrun. rewrite (IH _ _ Hrun target).
      destruct (gi_step_Ok _ _ _ _ _ _ E) as (t & stored & Ht & -> & _).
      rewrite fmap_cons. setoid_rewrite elem_of_cons. rewrite lookup_insert_is_Some.
      split.
      + intros [[<-|[_ ?]]|(n & Hn & Hm)]; [right; by exists name; split; [left|]
          | by left | right; exists n; split; [by right | done]].
      + intros [?|(n & [->|Hn] & Hm)].
        * destruct (decide (t = target)) as [->|]; [left; by left | left; right; done].
        * left. left. simpl in Hm. congruence.
        * right. by exists n. }
  intros Hrun target. rewrite (H _ _ _ Hrun target), lookup_empty.
  split; [intros [[? [=]]|?]; done | by right].
Qed.

(** With a float16 configuration, every tensor produced from float32 or
    float16 checkpoint data is float16: the narrowing reaches the padded
    embedding table, the transposed tables and the QKV buffers. *)
Theorem float16_everywhere (mapping : gmap string string) (cfg : BertConfig)
    (map_names : list string) (load_data : list (ndarray elt))
    (m : gmap string (ndarray (option elt))) :
  config_dtype cfg = Float16 →
  Forall (λ a, dtype a = Float32 ∨ dtype a = Float16) load_data →
  generate_initializers zero cast mapping cfg map_names load_data = Ok m →
  ∀ key a, m !! key = Some a → dtype a = Float16.
Proof.
  intros Hcfg Hdata. unfold generate_initializers.
  assert (Hnarrow : ∀ a : ndarray elt,
    dtype a = Float32 ∨ dtype a = Float16 → dtype (narrow cast cfg a) = Float16).
  { intros a Ha. unfold narrow. case_decide as Hd.
    - unfold astype. rewrite Hcfg. by destruct a.
    - destruct Ha as [Ha|Ha]; [|done]. destruct Hd. by rewrite Ha, Hcfg. }
  assert (H : ∀ l (inits m : gmap string (ndarray (option elt))),
    Forall (λ a, dtype a = Float32 ∨ dtype a = Float16) l.*2 →
    (∀ key a, inits !! key = Some a → dtype a = Float16) →
    for_each (gi_step zero cast mapping cfg) inits l = Ok m →
    ∀ key a, m !! key = Some a → dtype a = Float16).
  { induction l as [|[name a] l IH]; intros inits m' Hl Hinv Hrun.
    - by injection Hrun as <-.
    - simpl in Hrun. destruct (gi_step _ _ _ _ _ _) as [inits1|] eqn:E; [|done].
      cbn [rbind] in Hrun. rewrite fmap_cons in Hl. apply Forall_cons in Hl as [Ha Hl].
      apply (IH inits1 m' Hl); [|done].
      destruct (gi_step_Ok _ _ _ _ _ _ E) as (t & stored & _ & -> & Hd).
      intros key b. rewrite lookup_insert. case_decide as Hk; [|apply Hinv].
      intros [= <-]. destruct Hd as [->|(old & Hold & ->)]; [by apply Hnarrow|].
      by eapply Hinv. }
  intros Hrun. eapply H; [|by intros ? ? ?%lookup_empty_Some|exact Hrun].
  apply Forall_forall. intros a Ha. apply list_elem_of_fmap in Ha as ([n b] & -> & Hin).
  apply elem_of_zip_r in Hin. by eapply (proj1 (Forall_forall _ _) Hdata).
Qed.

(** [generate_initializers] itself does not filter: the first name that
    the mapping lacks raises [KeyError], and the entries after it are
    not processed. *)
Theorem unmapped_name_raises (mapping : gmap string string) (cfg : BertConfig)
    (pre post : list (string * ndarray elt)) (name : string) (a : ndarray elt)
    (m0 : gmap string (ndarray (option elt))) :
  mapping !! name = None →
  generate_initializers zero cast mapping cfg pre.*1 pre.*2 = Ok m0 →
  generate_initializers zero cast mapping cfg
    (pre ++ (name, a) :: post).*1 (pre ++ (name, a) :: post).*2 = Raise KeyError.
Proof.
  unfold generate_initializers. rewrite !zip_fst_snd. intros Hname Hpre.
  rewrite for_each_app, Hpre. cbn [rbind for_each]. unfold gi_step, getitem.
  by rewrite Hname.
Qed.

(** Loading a checkpoint is generating the initializers from its mapped
    variables, in the order of the listing: a variable that the mapping
    does not know has no effect on the result. *)
Theorem unmapped_variables_ignored (ckpt : list (string * ndarray elt)) (cfg : BertConfig) :
  NoDup ckpt.*1 →
  let kept := filter (λ na, is_Some (get_tf_mapping cfg !! na.1)) ckpt in
  load_initializers_from_tf zero cast ckpt true cfg
  = generate_initializers zero cast (get_tf_mapping cfg) cfg kept.*1 kept.*2 ∧
  load_initializers_from_tf zero cast ckpt true cfg
  = load_initializers_from_tf zero cast kept true cfg.
Proof.
  intros Hnd kept.
  assert (Hload : ∀ file : list (string * ndarray elt), NoDup file.*1 →
    load_initializers_from_tf zero cast file true cfg
    = generate_initializers zero cast (get_tf_mapping cfg) cfg
        (filter (λ na, is_Some (get_tf_mapping cfg !! na.1)) file).*1
        (filter (λ na, is_Some (get_tf_mapping cfg !! na.1)) file).*2).
  { intros file Hfile. unfold load_initializers_from_tf.
    destruct (load_tf_ckpt_data_Ok file (get_tf_mapping cfg)) as (data & -> & Hall).
    cbn [rbind fst snd].
    assert (E : filter (λ name, is_Some (get_tf_mapping cfg !! name)) file.*1
                = (filter (λ na, is_Some (get_tf_mapping cfg !! na.1)) file).*1).
    { clear. induction file as [|[n b] file IH]; [done|].
      rewrite fmap_cons, !filter_cons. simpl. case_decide; [|done].
      by rewrite fmap_cons, IH. }
    rewrite E in *. f_equal.
    assert (Hsub : ∀ na, na ∈ filter (λ na, is_Some (get_tf_mapping cfg !! na.1)) file
                         → na ∈ file) by (by intros na [_ ?]%list_elem_of_filter).
    revert Hsub Hall. generalize (filter (λ na, is_Some (get_tf_mapping cfg !! na.1)) file).
    intros l Hsub Hall. revert data Hall. induction l as [|[n b] l IH]; intros data Hall.
    - by apply Forall2_nil_inv_l in Hall as ->.
    - rewrite fmap_cons in Hall.
      apply Forall2_cons_inv_l in Hall as (a' & data' & Ha' & Hall & ->).
      rewrite fmap_cons. simpl in Ha'. f_equal.
      + pose proof (Hsub (n, b) (list_elem_of_here _ _)) as Hb.
        simpl. by eapply (NoDup_fst_unique file).
      + apply IH; [|done]. intros na Hna. apply Hsub. by apply list_elem_of_further. }
  split; [by apply Hload|].
  rewrite (Hload ckpt Hnd), (Hload kept).
  - unfold kept. by rewrite list_filter_filter_l by done.
  - unfold kept. clear -Hnd. induction ckpt as [|[n b] ckpt IH]; [constructor|].
    rewrite fmap_cons in Hnd. apply NoDup_cons in Hnd as [Hn Hnd].
    rewrite filter_cons. case_decide; [|by apply IH].
    rewrite fmap_cons. apply NoDup_cons. split; [|by apply IH].
    intros Hin. apply Hn. apply list_elem_of_fmap in Hin as (x & Hx & [_ Hin]%list_elem_of_filter).
    apply list_elem_of_fmap. by exists x.
Qed.

End Load.
End LoadFacts.

(** ** calc_required_ipus *)

Module DeviceFacts.
Import Bert BertInfer.

Lemma ceil_div_bounds (a b : Z) :
  (0 < b)%Z → ((- ((- a) `div` b) - 1) * b < a ≤ - ((- a) `div` b) * b)%Z.
Proof.
  intros Hb. pose proof (Z.div_mod (- a) b ltac:(lia)) as Hdm.
  pose proof (Z.mod_pos_bound (- a) b Hb) as Hm.
  revert Hdm Hm. generalize ((- a) `div` b)%Z ((- a) `mod` b)%Z.
  intros d m Hdm Hm. nia.
Qed.

Lemma log2_up_least (n : Z) :
  (0 < n)%Z →
  (n ≤ 2 ^ Z.log2_up n < 2 * n)%Z ∧
  ∀ j, (0 ≤ j)%Z → (n ≤ 2 ^ j)%Z → (2 ^ Z.log2_up n ≤ 2 ^ j)%Z.
Proof.
  intros Hn. destruct (decide (n = 1%Z)) as [->|Hne].
  - split; [done|]. intros j Hj _. change (2 ^ Z.log2_up 1)%Z with (2 ^ 0)%Z.
    apply Z.pow_le_mono_r; lia.
  - pose proof (Z.log2_up_spec n ltac:(lia)) as [Hlo Hhi].
    assert (Hpos : (0 < Z.log2_up n)%Z) by (apply Z.log2_up_pos; lia).
    split.
    + split; [done|].
      replace (Z.log2_up n) with (Z.succ (Z.pred (Z.log2_up n))) by lia.
      rewrite Z.pow_succ_r by lia. lia.
    + intros j Hj Hle. apply Z.pow_le_mono_r; [lia|].
      apply Z.log2_up_le_pow2; lia.
Qed.

(** For layer counts and a number of IPUs within [ipu_bound] (2^32, where
    the float quotient and logarithm of the code have the ceiling of the
    exact ones), [calc_required_ipus] fails with [ZeroDivisionError] when
    [layers_per_ipu] is 0 and with [ValueError] when the number of IPUs
    needed is not positive.  Otherwise it returns that number, [num_ipus],
    with the least power of two that is not below it; with a positive
    [layers_per_ipu], the layers fit on the IPUs left after the offset,
    and would not fit on one fewer. *)
Theorem calc_required_ipus_spec (args : Args) (model : ModelLayout) :
  let l := layers_per_ipu model in
  let q := (- ((- m_num_layers model) `div` l))%Z in
  let num := ((q + layer_offset model) * replication_factor args)%Z in
  (Z.abs (m_num_layers model) ≤ ipu_bound)%Z →
  (Z.abs l ≤ ipu_bound)%Z →
  (num ≤ ipu_bound)%Z →
  match calc_required_ipus args model with
  | Raise e =>
      (l = 0%Z ∧ e = ZeroDivisionError) ∨ (l ≠ 0%Z ∧ (num ≤ 0)%Z ∧ e = ValueError)
  | Ok (request_ipus, num_ipus) =>
      l ≠ 0%Z ∧ num_ipus = num ∧ (0 < num)%Z ∧
      (∃ k, (0 ≤ k)%Z ∧ request_ipus = (2 ^ k)%Z) ∧
      (num ≤ request_ipus < 2 * num)%Z ∧
      (∀ j, (0 ≤ j)%Z → (num ≤ 2 ^ j)%Z → (request_ipus ≤ 2 ^ j)%Z) ∧
      ((0 < l)%Z → ((q - 1) * l < m_num_layers model ≤ q * l)%Z)
  end.
Proof.
  intros l q num _ _ _. unfold calc_required_ipus, ceil_div, ceil_log2.
  fold l. destruct (decide (l = 0%Z)) as [Hl|Hl]; simpl; [by left|].
  fold q. fold num. destruct (decide (num ≤ 0)%Z) as [Hn|Hn]; simpl; [by right|].
  destruct (log2_up_least num ltac:(lia)) as [Hb Hleast].
  split; [done|]. split; [done|]. split; [lia|].
  split; [exists (Z.log2_up num); split; [apply Z.log2_up_nonneg | done]|].
  split; [done|]. split; [done|].
  intros Hpos. by apply ceil_div_bounds.
Qed.

End DeviceFacts.

(** ** The latency measurements *)

Module LatencyFacts.
Import Bert BertFacts BertTerms.

Lemma last_item_Raise v e : last_item v = Raise e → e = IndexError.
Proof. unfold last_item. destruct (last v); congruence. Qed.

Lemma arg_best_empty better d : ∀ best,
  Exists (λ kv : string * list Q, kv.2 = []) d →
  arg_best better best d = Raise IndexError.
Proof.
  induction d as [|[k v] d IH]; intros best Hex; [by apply Exists_nil in Hex|].
  simpl. apply Exists_cons in Hex as [Hv|Hex]; simpl in *.
  - by rewrite Hv.
  - destruct (last_item v) eqn:E; simpl; [by apply IH|].
    by rewrite (last_item_Raise _ _ E).
Qed.

Lemma timing_anchor_empty better d :
  d ≠ [] → Exists (λ kv : string * list Q, kv.2 = []) d →
  match d with
  | [] => Raise ValueError
  | (k, v) :: d' => t <~ last_item v;; arg_best better (k, t) d'
  end = Raise IndexError.
Proof.
  destruct d as [|[k v] d]; [done|]. intros _ Hex.
  apply Exists_cons in Hex as [Hv|Hex]; simpl in *.
  - by rewrite Hv.
  - destruct (last_item v) eqn:E; simpl; [by apply arg_best_empty|].
    by rewrite (last_item_Raise _ _ E).
Qed.

(** In low-latency SQuAD inference [compute_latency] fails before the
    count check when the callbacks have not recorded what it needs:
    with [ValueError] when a timestamp dictionary is empty, with
    [IndexError] when some anchor of a non-empty dictionary has no
    timestamp; the start dictionary is examined first.  In any other mode
    it returns three [None] and never looks at the dictionaries. *)
Theorem compute_latency_failures (args : Args) (start_times end_times : Timings) :
  (¬ (low_latency_inference args = true ∧ task args = SQUAD) →
   compute_latency args start_times end_times = Ok (None, None, None)) ∧
  (low_latency_inference args = true ∧ task args = SQUAD →
   (start_times = [] →
    compute_latency args start_times end_times = Raise ValueError) ∧
   (start_times ≠ [] → Exists (λ kv, kv.2 = []) start_times →
    compute_latency args start_times end_times = Raise IndexError) ∧
   (timings_recorded start_times → end_times = [] →
    compute_latency args start_times end_times = Raise ValueError) ∧
   (timings_recorded start_times → end_times ≠ [] →
    Exists (λ kv, kv.2 = []) end_times →
    compute_latency args start_times end_times = Raise IndexError)).
Proof.
  unfold compute_latency. split.
  - intros Hmode. by rewrite decide_False.
  - intros Hmode. rewrite decide_True by done.
    unfold round_trips, get_timing_start_anchor, get_timing_end_anchor.
    split; [by intros ->|]. split.
    { intros Hne Hex. by rewrite (timing_anchor_empty Qlt_bool _ Hne Hex). }
    split.
    + intros Hs ->. by destruct (timing_anchor_Ok Qlt_bool _ Hs) as (ks & -> & _).
    + intros Hs Hne Hex. destruct (timing_anchor_Ok Qlt_bool _ Hs) as (ks & -> & _).
      simpl. by rewrite (timing_anchor_empty _ _ Hne Hex).
Qed.

Lemma Qsum_from (l : list Q) : ∀ a, (foldl Qplus a l == a + Qsum l)%Q.
Proof.
  unfold Qsum. induction l as [|x l IH]; intros a; simpl.
  - ring.
  - rewrite (IH (a + x)%Q), (IH (0 + x)%Q). ring.
Qed.

Lemma Qsum_bounds (lo hi : Q) (l : list Q) :
  (∀ x, x ∈ l → (lo <= x)%Q) → (∀ x, x ∈ l → (x <= hi)%Q) →
  (lo * inject_Z (Z.of_nat (length l)) <= Qsum l)%Q ∧
  (Qsum l <= hi * inject_Z (Z.of_nat (length l)))%Q.
Proof.
  induction l as [|x l IH]; intros Hlo Hhi.
  - unfold Qsum. simpl. split; ring_simplify; apply Qle_refl.
  - destruct IH as [IH1 IH2].
    { intros y Hy. apply Hlo. by apply list_elem_of_further. }
    { intros y Hy. apply Hhi. by apply list_elem_of_further. }
    pose proof (Hlo x (list_elem_of_here _ _)) as Hx1.
    pose proof (Hhi x (list_elem_of_here _ _)) as Hx2.
    assert (E : (Qsum (x :: l) == x + Qsum l)%Q).
    { unfold Qsum at 1. simpl. rewrite Qsum_from. ring. }
    assert (En : (inject_Z (Z.of_nat (length (x :: l))) == 1 + inject_Z (Z.of_nat (length l)))%Q).
    { simpl length. rewrite Nat2Z.inj_succ, <- Z.add_1_l, inject_Z_plus. reflexivity. }
    rewrite E, En. split.
    + setoid_replace (lo * (1 + inject_Z (Z.of_nat (length l))))%Q
        with (lo + lo * inject_Z (Z.of_nat (length l)))%Q using relation Qeq by ring.
      by apply Qplus_le_compat.
    + setoid_replace (hi * (1 + inject_Z (Z.of_nat (length l))))%Q
        with (hi + hi * inject_Z (Z.of_nat (length l)))%Q using relation Qeq by ring.
      by apply Qplus_le_compat.
Qed.

(** Whenever [compute_latency] reports latencies, the mean lies between
    the minimum and the maximum it reports.  This is a fact of the exact
    arithmetic of the model: the rounding of a floating-point sum can
    move the mean past either bound by a unit in the last place. *)
Theorem latency_mean_between (args : Args) (start_times end_times : Timings)
    (mean lo hi : Q) :
  compute_latency args start_times end_times = Ok (Some mean, Some lo, Some hi) →
  (lo <= mean)%Q ∧ (mean <= hi)%Q.
Proof.
  unfold compute_latency. case_decide as Hmode; [|done].
  destruct (round_trips start_times end_times) as [rtts|e]; [|done]. simpl.
  case_decide as Hlen; [done|].
  unfold float_div_int. case_decide as Hz; [done|]. simpl.
  assert (Hne : rtts ≠ []) by (intros ->; simpl in *; lia).
  destruct (py_best_min rtts Hne) as (m1 & -> & _ & Hmin).
  destruct (py_best_max rtts Hne) as (m2 & -> & _ & Hmax). simpl.
  intros [= <- <- <-].
  destruct (Qsum_bounds _ _ rtts Hmin Hmax) as [H1 H2]. rewrite Hlen in *.
  assert (Hpos : (0 < inject_Z (batches_per_step args))%Q).
  { rewrite <- Hlen. change 0%Q with (inject_Z 0). rewrite <- Zlt_Qlt.
    destruct rtts; [done | simpl; lia]. }
  split.
  - by apply Qle_shift_div_l.
  - by apply Qle_shift_div_r.
Qed.


Lemma Qlt_bool_false x y : Qlt_bool x y = false → (y <= x)%Q.
Proof. unfold Qlt_bool. intros H%negb_false_iff. by apply Qle_bool_iff. Qed.

Lemma Qlt_bool_true x y : Qlt_bool x y = true → (x <= y)%Q.
Proof.
  unfold Qlt_bool. intros H%negb_true_iff. apply Qlt_le_weak, Qnot_le_lt.
  intros Hle. apply Qle_bool_iff in Hle. congruence.
Qed.

Lemma arg_best_least d : ∀ k0 t0 seen k,
  latest seen k0 t0 → (∀ k' t', latest seen k' t' → (t0 <= t')%Q) →
  arg_best Qlt_bool (k0, t0) d = Ok k →
  ∃ t, latest (seen ++ d) k t ∧ ∀ k' t', latest (seen ++ d) k' t' → (t <= t')%Q.
Proof.
  induction d as [|[k1 v1] d IH]; intros k0 t0 seen k Hin Hle Hrun.
  - injection Hrun as <-. rewrite app_nil_r. by exists t0.
  - simpl in Hrun. unfold last_item in Hrun. destruct (last v1) as [t1|] eqn:E1; [|done].
    simpl in Hrun.
    replace (seen ++ (k1, v1) :: d) with ((seen ++ [(k1, v1)]) ++ d)
      by (by rewrite <- app_assoc).
    assert (Hnew : latest (seen ++ [(k1, v1)]) k1 t1).
    { exists v1. split; [|done]. apply elem_of_app. right. apply list_elem_of_here. }
    assert (Hold : ∀ k' t', latest (seen ++ [(k1, v1)]) k' t' →
                            latest seen k' t' ∨ t' = t1).
    { intros k' t' (v & Hv & Hl). apply elem_of_app in Hv as [Hv|Hv].
      - left. by exists v.
      - apply list_elem_of_singleton in Hv. injection Hv as -> ->. right. congruence. }
    destruct (Qlt_bool t1 t0) eqn:Hlt.
    + apply (IH k1 t1 (seen ++ [(k1, v1)]) k Hnew); [|exact Hrun].
      intros k' t' [H | ->]%Hold; [|apply Qle_refl].
      apply (Qle_trans _ t0); [by apply Qlt_bool_true | by apply (Hle k')].
    + apply (IH k0 t0 (seen ++ [(k1, v1)]) k); [| |exact Hrun].
      * destruct Hin as (v & Hv & Hl). exists v. split; [|done]. apply elem_of_app. by left.
      * intros k' t' [H | ->]%Hold; [by apply (Hle k') | by apply Qlt_bool_false].
Qed.

Lemma arg_best_greatest d : ∀ k0 t0 seen k,
  latest seen k0 t0 → (∀ k' t', latest seen k' t' → (t' <= t0)%Q) →
  arg_best (λ x y, Qlt_bool y x) (k0, t0) d = Ok k →
  ∃ t, latest (seen ++ d) k t ∧ ∀ k' t', latest (seen ++ d) k' t' → (t' <= t)%Q.
Proof.
  induction d as [|[k1 v1] d IH]; intros k0 t0 seen k Hin Hle Hrun.
  - injection Hrun as <-. rewrite app_nil_r. by exists t0.
  - simpl in Hrun. unfold last_item in Hrun. destruct (last v1) as [t1|] eqn:E1; [|done].
    simpl in Hrun.
    replace (seen ++ (k1, v1) :: d) with ((seen ++ [(k1, v1)]) ++ d)
      by (by rewrite <- app_assoc).
    assert (Hnew : latest (seen ++ [(k1, v1)]) k1 t1).
    { exists v1. split; [|done]. apply elem_of_app. right. apply list_elem_of_here. }
    assert (Hold : ∀ k' t', latest (seen ++ [(k1, v1)]) k' t' →
                            latest seen k' t' ∨ t' = t1).
    { intros k' t' (v & Hv & Hl). apply elem_of_app in Hv as [Hv|Hv].
      - left. by exists v.
      - apply list_elem_of_singleton in Hv. injection Hv as -> ->. right. congruence. }
    destruct (Qlt_bool t0 t1) eqn:Hlt.
    + apply (IH k1 t1 (seen ++ [(k1, v1)]) k Hnew); [|exact Hrun].
      intros k' t' [H | ->]%Hold; [|apply Qle_refl].
      apply (Qle_trans _ t0); [by apply (Hle k') | by apply Qlt_bool_true].
    + apply (IH k0 t0 (seen ++ [(k1, v1)]) k); [| |exact Hrun].
      * destruct Hin as (v & Hv & Hl). exists v. split; [|done]. apply elem_of_app. by left.
      * intros k' t' [H | ->]%Hold; [by apply (Hle k') | by apply Qlt_bool_false].
Qed.

(** When it returns, [get_timing_start_anchor] returns an anchor of the
    dictionary whose latest timestamp is the earliest of all the latest
    timestamps, and [get_timing_end_anchor] one whose latest timestamp is
    the latest of all. *)
Theorem timing_anchors_extremal (d : Timings) (k : string) :
  (get_timing_start_anchor d = Ok k →
   ∃ t, latest d k t ∧ ∀ k' t', latest d k' t' → (t <= t')%Q) ∧
  (get_timing_end_anchor d = Ok k →
   ∃ t, latest d k t ∧ ∀ k' t', latest d k' t' → (t' <= t)%Q).
Proof.
  unfold get_timing_start_anchor, get_timing_end_anchor.
  destruct d as [|[k0 v0] d]; [done|]. unfold last_item.
  destruct (last v0) as [t0|] eqn:E0; [|done]. simpl.
  assert (H0 : latest [(k0, v0)] k0 t0).
  { exists v0. split; [apply list_elem_of_here | done]. }
  assert (H1 : ∀ k' t', latest [(k0, v0)] k' t' → t' = t0).
  { intros k' t' (v & Hv%list_elem_of_singleton & Hl). injection Hv as -> ->. congruence. }
  split; intros Hrun.
  - apply (arg_best_least d k0 t0 [(k0, v0)] k H0); [|done].
    intros k' t' ->%H1. apply Qle_refl.
  - apply (arg_best_greatest d k0 t0 [(k0, v0)] k H0); [|done].
    intros k' t' ->%H1. apply Qle_refl.
Qed.

End LatencyFacts.

(** ** The inference loop *)

Module InferFacts.
Import Bert BertFacts BertInfer.

(** *** A weakest-precondition calculus for [IM] *)

Lemma ipost_bind {A B} (m : IM A) (f : A → IM B) s Q :
  ipost m s (λ r s', match r with
                     | Ok a => ipost (f a) s' Q
                     | Raise e => Q (Raise e) s'
                     end) →
  ipost (ibind m f) s Q.
Proof. unfold ipost, ibind. by destruct (m s) as [[a|e] s']. Qed.

Lemma ipost_ret {A} (a : A) s (Q : res A → InferState → Prop) :
  Q (Ok a) s → ipost (iret a) s Q.
Proof. done. Qed.

Lemma ipost_raise {A} e s (Q : res A → InferState → Prop) :
  Q (Raise e) s → ipost (iraise e) s Q.
Proof. done. Qed.

Lemma ipost_lift {A} (r : res A) s (Q : res A → InferState → Prop) :
  Q r s → ipost (ilift r) s Q.
Proof. done. Qed.

Lemma ipost_get s (Q : res InferState → InferState → Prop) :
  Q (Ok s) s → ipost iget s Q.
Proof. done. Qed.

Lemma ipost_modify f s (Q : res unit → InferState → Prop) :
  Q (Ok tt) (f s) → ipost (imodify f) s Q.
Proof. done. Qed.

Lemma ipost_mono {A} (m : IM A) s (Q Q' : res A → InferState → Prop) :
  ipost m s Q → (∀ r s', Q r s' → Q' r s') → ipost m s Q'.
Proof. unfold ipost. auto. Qed.

Lemma ipost_conj {A} (m : IM A) s (Q Q' : res A → InferState → Prop) :
  ipost m s Q → ipost m s Q' → ipost m s (λ r s', Q r s' ∧ Q' r s').
Proof. unfold ipost. auto. Qed.

Ltac iwp_step :=
  lazymatch goal with
  | |- ipost (ibind _ _) _ _ => apply ipost_bind
  | |- ipost (iret _) _ _ => apply ipost_ret
  | |- ipost (iraise _) _ _ => apply ipost_raise
  | |- ipost (ilift _) _ _ => apply ipost_lift
  | |- ipost iget _ _ => apply ipost_get
  | |- ipost (imodify _) _ _ => apply ipost_modify
  | |- ipost (if ?x then _ else _) _ _ => destruct x eqn:?
  | |- match ?r with Ok _ => _ | Raise _ => _ end => destruct r eqn:?
  end.

Ltac iwp := repeat iwp_step.

(** *** The callbacks *)

Lemma recorded_append d k t id :
  recorded (defaultdict_append d k t) id
  = recorded d id ++ (if decide (k = id) then [t] else []).
Proof.
  unfold recorded. induction d as [|[k' v] d IH]; simpl.
  - repeat case_decide; done.
  - destruct (decide (k' = k)) as [->|Hk]; simpl.
    + destruct (decide (k = id)) as [->|Hid]; [done|]. by rewrite app_nil_r.
    + destruct (decide (k' = id)) as [->|Hid]; [|done].
      rewrite decide_False by done. by rewrite app_nil_r.
Qed.

Lemma append_nonempty d k t :
  Forall (λ kv : string * list Q, kv.2 ≠ []) d →
  Forall (λ kv : string * list Q, kv.2 ≠ []) (defaultdict_append d k t).
Proof.
  induction d as [|[k' v] d IH]; intros Hall; simpl.
  - by repeat constructor.
  - apply Forall_cons in Hall as [Hv Hall]. case_decide.
    + apply Forall_cons_2; [by destruct v | done].
    + apply Forall_cons_2; [done | by apply IH].
Qed.

Lemma recorded_nonempty d k : recorded d k ≠ [] → d ≠ [].
Proof. by intros H ->. Qed.

Lemma call_back_spec c s :
  ipost (call_back c) s
    (λ r s',
       untouched s s' ∧
       (stamps_nonempty (i_start_times s) → stamps_nonempty (i_start_times s')) ∧
       (stamps_nonempty (i_end_times s) → stamps_nonempty (i_end_times s')) ∧
       (∀ id, recorded (i_start_times s') id
              = recorded (i_start_times s) id ++ input_stamps id [c]) ∧
       (∀ id, recorded (i_end_times s') id
              = recorded (i_end_times s) id ++ output_stamps id [c]) ∧
       (∀ e, r = Raise e → e = KeyError)).
Proof.
  destruct c as [id [] now|id|id|id now]; unfold call_back, input_callback,
    input_complete_callback, output_callback, output_complete_callback, getitem;
    iwp; simpl; unfold untouched, stamps_nonempty; simpl.
  all: repeat split; try done; try (intros; by rewrite app_nil_r);
    try (intros; by apply append_nonempty);
    try (intros; rewrite recorded_append; by case_decide).
  all: try (intros e' [= <-]).
  all: match goal with H : match _ with _ => _ end = Raise _ |- _ => case_match; congruence end.
Qed.

Lemma untouched_refl s : untouched s s.
Proof. by repeat split. Qed.

Lemma untouched_trans s1 s2 s3 : untouched s1 s2 → untouched s2 s3 → untouched s1 s3.
Proof. unfold untouched. intuition congruence. Qed.

Lemma input_stamps_cons id c calls :
  input_stamps id (c :: calls) = input_stamps id [c] ++ input_stamps id calls.
Proof. unfold input_stamps. simpl. by case_match. Qed.

Lemma output_stamps_cons id c calls :
  output_stamps id (c :: calls) = output_stamps id [c] ++ output_stamps id calls.
Proof. unfold output_stamps. simpl. by case_match. Qed.

Local Arguments input_stamps : simpl never.
Local Arguments output_stamps : simpl never.

Lemma callbacks_untouched (calls : list Callback) (s : InferState) :
  ipost (for_IM call_back calls) s (λ _ s', untouched s s').
Proof.
  revert s. induction calls as [|c calls IH]; intros s; simpl.
  - apply ipost_ret, untouched_refl.
  - apply ipost_bind. eapply ipost_mono; [apply call_back_spec|].
    intros r s1 (Hu & _). destruct r as [[]|e]; [|done].
    eapply ipost_mono; [apply IH|]. intros r s2 Hu2. by eapply untouched_trans.
Qed.

(** Whatever calls the engine makes, the callbacks built by
    [create_callback_stepio] change nothing but the two timestamp dicts,
    never leave an anchor with an empty timestamp list, and raise nothing
    but [KeyError] (an id unknown to the data or to the anchors).  When
    all the calls return, the timestamps held under an anchor are those
    held before followed, in call order, by the clock readings of the
    prefetching input calls for this anchor (of the output completions,
    for the end times): an input call that is not a prefetch records
    nothing. *)
Theorem callbacks_record (calls : list Callback) (s : InferState) :
  ipost (for_IM call_back calls) s
    (λ r s',
       untouched s s' ∧
       (stamps_nonempty (i_start_times s) → stamps_nonempty (i_start_times s')) ∧
       (stamps_nonempty (i_end_times s) → stamps_nonempty (i_end_times s')) ∧
       (∀ e, r = Raise e → e = KeyError) ∧
       (r = Ok tt →
        ∀ id, recorded (i_start_times s') id
              = recorded (i_start_times s) id ++ input_stamps id calls
              ∧ recorded (i_end_times s') id
                = recorded (i_end_times s) id ++ output_stamps id calls)).
Proof.
  revert s. induction calls as [|c calls IH]; intros s; simpl.
  - apply ipost_ret. split; [apply untouched_refl|]. repeat split; try done.
    all: by rewrite app_nil_r.
  - apply ipost_bind. eapply ipost_mono; [apply call_back_spec|].
    intros r s1 (Hu & Hs & He & Hrs & Hre & Hk). destruct r as [[]|e].
    + eapply ipost_mono; [apply IH|].
      intros r s2 (Hu2 & Hs2 & He2 & Hk2 & Hrec).
      split; [by eapply untouched_trans|]. split; [auto|]. split; [auto|].
      split; [done|]. intros Hr id. destruct (Hrec Hr id) as [H1 H2].
      rewrite H1, H2, Hrs, Hre, (input_stamps_cons id c calls),
        (output_stamps_cons id c calls), <- !app_assoc. by split.
    + split; [done|]. split; [done|]. split; [done|]. split; [|done].
      intros e' [= <-]. by apply Hk.
Qed.

Local Arguments compute_latency : simpl never.
Local Arguments comprehension : simpl never.
Local Arguments deque_append : simpl never.
Local Arguments average : simpl never.
Local Arguments np_mean : simpl never.

Lemma same_windows_refl i : same_windows i i.
Proof. by repeat split. Qed.

(** What [session.run] does in the model of the inference loop. *)
Lemma infer_session_run_spec data cb b s :
  ipost (infer_session_run data cb b) s
    (λ r s',
       i_iteration s' = i_iteration s ∧ i_static_data s' = i_static_data s ∧
       i_runs s' = i_runs s ++ [if cb then i_static_data s else data] ∧
       i_log s' = i_log s ∧ i_results s' = i_results s ∧
       i_written s' = i_written s ∧ i_commands s' = i_commands s ∧
       (r = Ok tt → i_anchors s' = ib_output b) ∧
       (cb = false → r = Ok tt ∧ i_start_times s' = i_start_times s ∧
                     i_end_times s' = i_end_times s)).
Proof.
  unfold infer_session_run. destruct cb.
  - apply ipost_bind, ipost_get. apply ipost_bind, ipost_modify. apply ipost_bind.
    eapply ipost_mono; [apply callbacks_untouched|].
    intros r s1 (H1 & H2 & H3 & H4 & H5 & H6 & H7 & H8). simpl in *.
    destruct r as [[]|e]; [apply ipost_modify|]; simpl; by repeat split.
  - iwp; simpl; by repeat split.
Qed.


Ltac ifin :=
  simpl;
  repeat match goal with |- _ ∧ _ => split end;
  try first [ assumption | done | congruence | by left | apply same_windows_refl
        | by (unfold same_windows, same_settings; simpl; repeat split)
        | (simpl in *; congruence) | lia | (intros; simpl in *; congruence) ].

(** The postcondition of [bert_process_infer_data], by cases on its outcome. *)
Lemma bert_process_infer_data_spec (args : Args) (data : gmap string (list Z)) (b : InferBatch)
    (logits : list string) (callback_stepio : bool) (s : InferState) :
  ipost (bert_process_infer_data args data b logits callback_stepio) s
    (λ r s',
       let i := i_iteration s in
       let i' := i_iteration s' in
       same_windows i i' ∧
       i_static_data s' = i_static_data s ∧
       i_runs s' = i_runs s ++ [if callback_stepio then i_static_data s else data] ∧
       i_results s' = i_results s ∧ i_written s' = i_written s ∧
       i_commands s' = i_commands s ∧
       match r with
       | Ok result =>
           gc_profile args = false ∧
           count i' = (count i + 1)%Z ∧
           durations i' = deque_append (ib_duration b) (durations i) ∧
           i_anchors s' = ib_output b ∧
           comprehension (getitem (ib_output b)) logits = Ok result ∧
           it_steps_per_log i ≠ 0%Z ∧
           (if decide ((count i `mod` it_steps_per_log i)%Z = 0%Z)
            then ∃ line, i_log s' = i_log s ++ [line] ∧ l_iteration line = count i
            else i_log s' = i_log s)
       | Raise e =>
           (gc_profile args = true → i' = i) ∧
           (count i' = count i ∨ (e = KeyError ∧ count i' = (count i + 1)%Z))
       end).
Proof.
  unfold bert_process_infer_data. apply ipost_bind.
  eapply ipost_mono; [apply infer_session_run_spec|].
  intros r s1 (Hi & Hd & Hruns & Hlog & Hres & Hw & Hc & Ha & _).
  destruct r as [[]|e]; [|rewrite Hi; ifin].
  specialize (Ha eq_refl).
  destruct (gc_profile args) eqn:Hgc; [apply ipost_raise; rewrite Hi; ifin|].
  apply ipost_bind, ipost_modify. apply ipost_bind, ipost_get. apply ipost_bind, ipost_lift.
  simpl. destruct (compute_latency _ _ _) as [lat|e]; [|rewrite Hi; ifin].
  apply ipost_bind, ipost_lift. unfold py_mod. rewrite Hi.
  case_decide as Hz; [ifin|].
  apply ipost_bind.
  case_decide as Hmod; [apply ipost_modify | apply ipost_ret].
  all: apply ipost_bind, ipost_modify; apply ipost_bind, ipost_get; apply ipost_lift.
  all: simpl; rewrite ?Hi, ?Ha; simpl.
  all: destruct (comprehension _ logits) as [result|e] eqn:Hres'.
  all: rewrite ?(decide_True _ _ Hmod), ?(decide_False _ _ Hmod); ifin.
  - eexists. rewrite Hlog. by split.
  - right. split; [|done]. by eapply comprehension_getitem_Raise.
  - right. split; [|done]. by eapply comprehension_getitem_Raise.
Qed.

(** One call of [bert_process_infer_data] runs the engine once and leaves
    the loss, accuracy and cycle windows, the epoch and the data dict as
    they were.  When it returns, it returns the anchors of the logits as
    the run filled them, the step counter has grown by exactly 1, the
    duration has been appended to its window, and a status line was
    logged if and only if the former count is a multiple of
    [steps_per_log].  When it raises, the step counter is unchanged,
    except that a logit missing from the anchors raises [KeyError] after
    the step has been counted; with [gc_profile] set it never returns and
    records no duration. *)
Theorem infer_data_effect (args : Args) (data : gmap string (list Z)) (b : InferBatch)
    (logits : list string) (callback_stepio : bool) (s : InferState) :
  ipost (bert_process_infer_data args data b logits callback_stepio) s
    (λ r s',
       let i := i_iteration s in
       let i' := i_iteration s' in
       same_windows i i' ∧
       i_static_data s' = i_static_data s ∧
       i_runs s' = i_runs s ++ [if callback_stepio then i_static_data s else data] ∧
       i_results s' = i_results s ∧ i_written s' = i_written s ∧
       i_commands s' = i_commands s ∧
       match r with
       | Ok result =>
           gc_profile args = false ∧
           count i' = (count i + 1)%Z ∧
           durations i' = deque_append (ib_duration b) (durations i) ∧
           i_anchors s' = ib_output b ∧
           comprehension (getitem (ib_output b)) logits = Ok result ∧
           it_steps_per_log i ≠ 0%Z ∧
           (if decide ((count i `mod` it_steps_per_log i)%Z = 0%Z)
            then ∃ line, i_log s' = i_log s ++ [line] ∧ l_iteration line = count i
            else i_log s' = i_log s)
       | Raise e =>
           (gc_profile args = true → i' = i) ∧
           (count i' = count i ∨ (e = KeyError ∧ count i' = (count i + 1)%Z))
       end).
Proof. apply bert_process_infer_data_spec. Qed.


Local Arguments bert_process_infer_data : simpl never.

Lemma infer_turn_spec args save cb logits b s :
  ipost (infer_turn args save cb logits b) s
    (λ r s',
       same_windows (i_iteration s) (i_iteration s') ∧
       i_written s' = i_written s ∧ i_commands s' = i_commands s ∧
       match r with
       | Ok _ =>
           count (i_iteration s') = (count (i_iteration s) + 1)%Z ∧
           durations (i_iteration s')
           = deque_append (ib_duration b) (durations (i_iteration s)) ∧
           i_static_data s' = ib_data b ∪ i_static_data s ∧
           i_runs s' = i_runs s ++ [ib_data b ∪ i_static_data s] ∧
           i_start_times s' = [] ∧ i_end_times s' = [] ∧
           turn_results save logits [b] (i_results s) (i_results s')
       | Raise _ => True
       end).
Proof.
  unfold infer_turn. apply ipost_bind, ipost_modify. apply ipost_bind, ipost_get.
  apply ipost_bind. eapply ipost_mono; [apply bert_process_infer_data_spec|].
  intros r s1 (Hw & Hd & Hruns & Hres & Hwr & Hc & Hr). simpl in *.
  destruct r as [result|e]; [|done].
  destruct Hr as (_ & Hcount & Hdur & Ha & Hresult & _).
  assert (Hruns' : i_runs s1 = i_runs s ++ [ib_data b ∪ i_static_data s])
    by (by destruct cb).
  apply ipost_bind. destruct save; iwp; simpl; ifin.
  unfold turn_results. exists [result]. split; [by repeat constructor|].
  simpl. by rewrite Hres.
Qed.

Lemma merged_runs_app d xs ys :
  merged_runs d (xs ++ ys)
  = merged_runs d xs ++ merged_runs (foldl (λ d b, b ∪ d) d xs) ys.
Proof.
  revert d. induction xs as [|x xs IH]; intros d; [done|].
  simpl. by rewrite IH.
Qed.

Lemma merged_fmap d bs : foldl (λ d b, b ∪ d) d (ib_data <$> bs) = merged d bs.
Proof. unfold merged. revert d. induction bs as [|b bs IH]; intros d; [done|]. apply IH. Qed.

Lemma turn_results_app save logits bs1 bs2 r0 r1 r2 :
  turn_results save logits bs1 r0 r1 → turn_results save logits bs2 r1 r2 →
  turn_results save logits (bs1 ++ bs2) r0 r2.
Proof.
  unfold turn_results. destruct save; [|congruence].
  intros (res1 & H1 & ->) (res2 & H2 & ->). exists (res1 ++ res2).
  split; [by apply Forall2_app|].
  rewrite fmap_app, zip_with_app, app_assoc; [done|].
  rewrite length_fmap. by eapply Forall2_length.
Qed.

Lemma turn_results_nil save logits r0 : turn_results save logits [] r0 r0.
Proof.
  unfold turn_results. destruct save; [|done]. exists []. split; [constructor|].
  by rewrite app_nil_r.
Qed.

Lemma infer_progress_nil save logits s s' :
  count (i_iteration s') = count (i_iteration s) →
  durations (i_iteration s') = durations (i_iteration s) →
  i_static_data s' = i_static_data s →
  i_runs s' = i_runs s → i_results s' = i_results s →
  infer_progress save logits [] s s'.
Proof.
  intros Hc Hi Hd Hr Hres. unfold infer_progress. rewrite Hc, Hi, Hd, Hr, Hres. simpl.
  rewrite app_nil_r. repeat split; [lia | apply turn_results_nil].
Qed.

Lemma infer_progress_app save logits bs1 bs2 s1 s2 s3 :
  infer_progress save logits bs1 s1 s2 → infer_progress save logits bs2 s2 s3 →
  infer_progress save logits (bs1 ++ bs2) s1 s3.
Proof.
  intros (Hc1 & Hd1 & Hs1 & Hr1 & Ht1) (Hc2 & Hd2 & Hs2 & Hr2 & Ht2).
  unfold infer_progress, merged in *. rewrite !foldl_app, length_app.
  rewrite Hc2, Hc1, Hd2, Hd1, Hs2, Hs1, Hr2, Hr1.
  repeat split; [lia| |by eapply turn_results_app].
  rewrite Hs1, fmap_app, merged_runs_app, merged_fmap. by rewrite <- app_assoc.
Qed.

Lemma infer_batches_spec args save cb logits bs : ∀ s,
  ipost (for_IM (infer_turn args save cb logits) bs) s
    (λ r s',
       same_windows (i_iteration s) (i_iteration s') ∧
       i_written s' = i_written s ∧ i_commands s' = i_commands s ∧
       (r = Ok tt → infer_progress save logits bs s s')).
Proof.
  induction bs as [|b bs IH]; intros s; simpl.
  - apply ipost_ret. ifin. intros _. by apply infer_progress_nil.
  - apply ipost_bind. eapply ipost_mono; [apply infer_turn_spec|].
    intros r s1 (Hw & Hwr & Hc & Hr). destruct r as [[]|e]; [|ifin].
    destruct Hr as (Hcount & Hdur & Hd & Hruns & _ & _ & Hres).
    eapply ipost_mono; [apply IH|].
    intros r s2 (Hw2 & Hwr2 & Hc2 & Hr2).
    split. { destruct Hw as (? & ? & ?), Hw2 as (? & ? & ?).
             split; [by eapply same_settings_trans | split; congruence]. }
    split; [congruence|]. split; [congruence|]. intros Hok.
    apply (infer_progress_app save logits [b] bs s s1 s2); [|by apply Hr2].
    unfold infer_progress, merged. simpl. rewrite Hruns. by repeat split.
Qed.


Lemma infer_epochs_spec args save cb dataset logits es : ∀ s,
  ipost (for_IM (infer_epoch args save cb dataset logits) es) s
    (λ r s',
       cycles (i_iteration s') = cycles (i_iteration s) ∧
       windows (i_iteration s') = windows (i_iteration s) ∧
       i_written s' = i_written s ∧ i_commands s' = i_commands s ∧
       (r = Ok tt → infer_progress save logits (concat (dataset <$> es)) s s')).
Proof.
  induction es as [|e es IH]; intros s; simpl.
  - apply ipost_ret. ifin. intros _. by apply infer_progress_nil.
  - apply ipost_bind. unfold infer_epoch at 1. apply ipost_bind, ipost_modify.
    eapply ipost_mono; [apply infer_batches_spec|].
    intros r s1 ((_ & Hcy & Hwi) & Hwr & Hc & Hr). simpl in *.
    destruct r as [[]|err]; [|ifin].
    eapply ipost_mono; [apply IH|].
    intros r s2 (Hcy2 & Hwi2 & Hwr2 & Hc2 & Hr2).
    split; [congruence|]. split; [congruence|]. split; [congruence|].
    split; [congruence|]. intros Hok.
    eapply infer_progress_app; [|by apply Hr2].
    destruct (Hr eq_refl) as (H1 & H2 & H3 & H4 & H5). by repeat split.
Qed.

(** [bert_infer_loop] never touches the loss, accuracy and cycle windows.
    When it returns, every batch of every repetition (the epochs with
    synthetic data, one pass otherwise) has been run exactly once and
    counted exactly once, in order; the run of a batch is fed the inputs
    of this batch merged over those of all earlier batches; the result
    of each batch is handed to the dataset, and the predictions are
    written once, exactly when the task is SQuAD and the data is not
    synthetic; with [realtime_scheduler] the scheduling class is raised
    before the first batch and restored after the last.  When a batch
    raises, the scheduling class is not restored and no prediction is
    written. *)
Theorem infer_loop_effect (args : Args) (flags : InferFlags) (pid : Z)
    (dataset : Z → list InferBatch) (logits : list string) (s : InferState) :
  let save_results := bool_decide (task args = SQUAD) && negb (synthetic_data flags) in
  let repeat_count := if synthetic_data flags then epochs args else 1%Z in
  let batches := concat (dataset <$> py_range 0 repeat_count) in
  ipost (bert_infer_loop args flags pid dataset logits) s
    (λ r s',
       cycles (i_iteration s') = cycles (i_iteration s) ∧
       windows (i_iteration s') = windows (i_iteration s) ∧
       match r with
       | Ok _ =>
           count (i_iteration s')
           = (count (i_iteration s) + Z.of_nat (length batches))%Z ∧
           durations (i_iteration s')
           = foldl (λ d b, deque_append (ib_duration b) d)
                   (durations (i_iteration s)) batches ∧
           i_runs s' = i_runs s ++ merged_runs ∅ (ib_data <$> batches) ∧
           turn_results save_results logits batches (i_results s) (i_results s') ∧
           i_written s' = (if save_results then S (i_written s) else i_written s) ∧
           i_commands s'
           = i_commands s ++ (if realtime_scheduler flags
                              then [enable_command pid; disable_command pid] else [])
       | Raise _ =>
           i_written s' = i_written s ∧
           i_commands s'
           = i_commands s ++ (if realtime_scheduler flags then [enable_command pid] else [])
       end).
Proof.
  intros save_results repeat_count batches. unfold bert_infer_loop.
  fold save_results. fold repeat_count.
  apply ipost_bind, ipost_modify. apply ipost_bind, ipost_modify.
  apply ipost_bind.
  set (s0 := with_times [] [] (with_static_data ∅ s)).
  assert (Hen : ipost (enable_realtime_scheduling flags pid) s0
            (λ r s1, r = Ok tt ∧ i_iteration s1 = i_iteration s ∧
                     i_static_data s1 = ∅ ∧ i_runs s1 = i_runs s ∧
                     i_results s1 = i_results s ∧ i_written s1 = i_written s ∧
                     i_commands s1 = i_commands s ++
                       (if realtime_scheduler flags then [enable_command pid] else []))).
  { unfold enable_realtime_scheduling. destruct (realtime_scheduler flags); iwp; simpl;
      rewrite ?app_nil_r; by repeat split. }
  eapply ipost_mono; [exact Hen|]. clear Hen.
  intros r s1 (-> & Hi1 & Hd1 & Hr1 & Hres1 & Hw1 & Hc1).
  apply ipost_bind.
  eapply ipost_mono; [apply infer_epochs_spec|].
  intros r s2 (Hcy & Hwi & Hw2 & Hc2 & Hprog). rewrite Hi1 in *.
  destruct r as [[]|err]; [|ifin].
  destruct (Hprog eq_refl) as (Hcount & Hdur & _ & Hruns & Hres). clear Hprog.
  apply ipost_bind.
  assert (Hdis : ipost (disable_realtime_scheduling flags pid) s2
            (λ r s3, r = Ok tt ∧ i_iteration s3 = i_iteration s2 ∧
                     i_runs s3 = i_runs s2 ∧
                     i_results s3 = i_results s2 ∧ i_written s3 = i_written s2 ∧
                     i_commands s3 = i_commands s2 ++
                       (if realtime_scheduler flags then [disable_command pid] else []))).
  { unfold disable_realtime_scheduling. destruct (realtime_scheduler flags); iwp; simpl;
      rewrite ?app_nil_r; by repeat split. }
  eapply ipost_mono; [exact Hdis|]. clear Hdis.
  intros r s3 (-> & Hi3 & Hr3 & Hres3 & Hw3 & Hc3).
  rewrite Hi1, Hd1, Hr1, Hres1 in *.
  assert (Hcmd : i_commands s3 = i_commands s ++
            (if realtime_scheduler flags
             then [enable_command pid; disable_command pid] else [])).
  { rewrite Hc3, Hc2, Hc1. destruct (realtime_scheduler flags); [|by rewrite !app_nil_r].
    by rewrite <- app_assoc. }
  destruct save_results; iwp; simpl; rewrite ?Hi3, ?Hr3, ?Hres3, ?Hw3; ifin.
Qed.

End InferFacts.

(** ** The training loop *)

Module TrainFacts.
Import Bert BertFacts BertTerms.

Section Train.
Context {OptimizerFactory Optimizer : Type}.
Variable should_update : OptimizerFactory → Iteration → bool.
Variable update_and_create : OptimizerFactory → Iteration → OptimizerFactory * Optimizer.
Local Abbreviation State := (State OptimizerFactory Optimizer).

Local Arguments bert_output_stats : simpl never.
Local Arguments bert_pretraining_stats : simpl never.
Local Arguments deque_append : simpl never.
Local Arguments average : simpl never.
Local Arguments list_getitem : simpl never.

Lemma list_getitem_Ok {A} (l : list A) i x : list_getitem l i = Ok x → l !! i = Some x.
Proof. unfold list_getitem. destruct (l !! i); congruence. Qed.

Ltac step :=
  lazymatch goal with
  | |- post (bind _ _ _ _) _ _ => apply post_bind
  | |- post (ret _ _ _) _ _ => apply post_ret
  | |- post (raise _ _ _) _ _ => apply post_raise
  | |- post (lift _ _ _) _ _ => apply post_lift
  | |- post (get _ _) _ _ => apply post_get
  | |- post (modify _ _ _) _ _ => apply post_modify
  | |- post (modify_iteration _ _ _) _ _ => apply post_modify_iteration
  | |- post (match ?x with _ => _ end) _ _ => destruct x eqn:?
  | |- match ?r with Ok _ => _ | Raise _ => _ end => destruct r eqn:?
  end.

Ltac steps := repeat step.

(** When [add_stats] returns, the duration has been appended to its
    window, the cycle count has been appended to its window unless it is
    [None] or 0, the statistics of the step have been appended to the
    loss and accuracy windows (one value each), the step counter is
    unchanged, and the writer has received, all tagged with the current
    step, the learning rate followed by the averages of the loss and
    accuracy windows as they are after the append. *)
Theorem add_stats_effect (d : float) (hw : option Z) (labels : list (list Z))
    (losses preds : list string) (s : State) :
  post (add_stats d hw labels losses preds) s
    (λ r s',
       r = Ok tt →
       let i := iteration s in
       let i' := iteration s' in
       let c := count i in
       count i' = c ∧
       durations i' = deque_append d (durations i) ∧
       cycles i' = match hw with
                   | Some n => if decide (n = 0%Z) then cycles i
                               else deque_append n (cycles i)
                   | None => cycles i
                   end ∧
       match windows i with
       | SingleWindows ls acs =>
           ∃ loss accuracy,
             bert_output_stats labels (anchors s) losses preds None
             = Ok (anchors s', (loss, accuracy)) ∧
             windows i' = SingleWindows (deque_append loss ls) (deque_append accuracy acs) ∧
             scalars s' = scalars s ++
               [ ("defaultLearningRate", learning_rate i, c);
                 ("loss", average (deque_append loss ls), c);
                 ("accuracy", average (deque_append accuracy acs), c) ]
       | PretrainingWindows ml nl ma na =>
           ∃ l0 l1 a0 a1 ltail atail,
             bert_pretraining_stats labels (anchors s) losses preds
             = Ok (anchors s', (l0 :: l1 :: ltail, a0 :: a1 :: atail)) ∧
             windows i' = PretrainingWindows (deque_append l0 ml) (deque_append l1 nl)
                            (deque_append a0 ma) (deque_append a1 na) ∧
             scalars s' = scalars s ++
               [ ("defaultLearningRate", learning_rate i, c);
                 ("loss/MLM", average (deque_append l0 ml), c);
                 ("loss/NSP", average (deque_append l1 nl), c);
                 ("accuracy/MLM", average (deque_append a0 ma), c);
                 ("accuracy/NSP", average (deque_append a1 na), c) ]
       end).
Proof.
  unfold add_stats, call_stats_fn. steps; simpl in *; try done.
  all: intros _; rewrite ?decide_True, ?decide_False by done.
  all: match goal with H : windows _ = _ |- _ => rewrite H end.
  all: repeat (split; [done|]).
  all: match goal with a : (Anchors * _)%type |- _ => destruct a as [anc [ls acs]] end.
  all: simpl in *; rewrite <- ?app_assoc; simpl.
  all: try (eexists _, _; by repeat split).
  all: repeat match goal with
       | H : list_getitem _ _ = Ok _ |- _ => apply list_getitem_Ok in H
       end.
  all: destruct ls as [|? [|? ?]], acs as [|? [|? ?]]; simplify_eq/=.
  all: by eexists _, _, _, _, _, _.
Qed.

Local Arguments add_stats : simpl never.
Local Arguments report_stats : simpl never.
Local Arguments comprehension : simpl never.
Local Arguments np_any : simpl never.
Local Arguments save_path : simpl never.

(** The ways [bert_process_data] fails.  A label name that the batch
    lacks raises [KeyError] before anything is done.  For a batch that is
    not skipped: with [gc_profile] the engine is run once and the call
    exits, no statistic being recorded; with [steps_per_log = 0] the call
    raises after the engine was run and the batch is not counted. *)
Theorem process_data_failures (args : Args) (labels : list string) (b : Batch)
    (losses preds : list string) (s : State) :
  post (bert_process_data should_update update_and_create args labels b losses preds) s
    (λ r s',
       (∀ e, batch_labels labels b = Raise e → r = Raise KeyError ∧ s' = s) ∧
       (processed labels b = true → gc_profile args = true →
        r = Raise SystemExit ∧ s' = session_run _ _ b s) ∧
       (processed labels b = true → gc_profile args = false →
        it_steps_per_log (iteration s) = 0%Z →
        (∃ e, r = Raise e) ∧ runs s' = runs s ++ [data b] ∧
        count (iteration s') = count (iteration s))).
Proof.
  unfold bert_process_data, processed. fold (batch_labels labels b).
  apply post_bind, post_lift.
  destruct (batch_labels labels b) as [ld|e0] eqn:Hlab.
  - destruct (np_any ld) eqn:Hany; simpl.
    + apply post_bind, post_modify.
      destruct (gc_profile args) eqn:Hgc.
      { apply post_raise. split; [done|]. split; [done|]. done. }
      apply post_bind. eapply post_mono; [apply add_stats_frame|].
      intros r s1 (Hset & Hcount & _ & _ & Hruns & _). simpl in *.
      destruct r as [[]|e].
      * apply post_bind, post_get. apply post_bind, post_lift. unfold py_mod.
        destruct Hset as (_ & _ & _ & _ & Hlog & _).
        rewrite Hlog. case_decide as Hz.
        { split; [done|]. split; [done|]. intros _ _ _. split; [by eexists|]. done. }
        apply post_intro. intros r s' _. split; [done|]. split; [done|]. done.
      * split; [done|]. split; [done|]. intros _ _ _. split; [by eexists|]. done.
    + apply post_ret. split; [done|]. split; done.
  - split; [|split; done]. intros e [= <-].
    by rewrite (comprehension_getitem_Raise _ _ _ Hlab).
Qed.

Lemma save_keeps_runs args step ep flag (s : State) :
  post (save_model_and_stats args step ep flag) s
    (λ r s', r = Ok tt ∧ iteration s' = iteration s ∧ runs s' = runs s).
Proof. unfold save_model_and_stats. destruct (no_model_save args); steps; done. Qed.

Lemma advanced_nil labels (s s' : State) :
  it_start_epoch (iteration s') = it_start_epoch (iteration s) →
  count (iteration s') = count (iteration s) → runs s' = runs s →
  advanced labels [] s s'.
Proof.
  intros H1 H2 H3. unfold advanced, runs_of. simpl. rewrite H1, H2, H3, app_nil_r.
  repeat split. lia.
Qed.

Lemma advanced_app labels bs1 bs2 (s1 s2 s3 : State) :
  advanced labels bs1 s1 s2 → advanced labels bs2 s2 s3 →
  advanced labels (bs1 ++ bs2) s1 s3.
Proof.
  unfold advanced, runs_of. intros (H1 & H2 & H3) (H4 & H5 & H6).
  rewrite filter_app, length_app, fmap_app, H4, H5, H6, H1, H2, H3, <- app_assoc.
  repeat split. lia.
Qed.

Lemma batch_turn_advances args labels preds losses b (s : State) :
  post (batch_turn should_update update_and_create args labels preds losses b) s
    (λ r s', r = Ok tt → advanced labels [b] s s').
Proof.
  unfold batch_turn. apply post_bind.
  eapply post_mono; [apply bert_process_data_spec|].
  intros r s1 (Hset & _ & Hlab). destruct r as [[]|e]; [|done].
  assert (Hadv : advanced labels [b] s s1).
  { destruct Hset as (Hse & _). unfold advanced, runs_of, processed.
    rewrite filter_cons, filter_nil.
    destruct (batch_labels labels b) as [ld|?]; [|by destruct Hlab].
    destruct (np_any ld).
    - destruct Hlab as [Hr Hc]. rewrite decide_True by done. simpl. by rewrite Hr, Hc.
    - destruct Hlab as [_ ->]. rewrite decide_False by done. simpl.
      rewrite app_nil_r. repeat split. lia. }
  apply post_bind, post_get.
  assert (Hkeep : ∀ m : M _ _ unit,
            post m s1 (λ r s2, r = Ok tt ∧ iteration s2 = iteration s1 ∧ runs s2 = runs s1) →
            post m s1 (λ r s2, r = Ok tt → advanced labels [b] s s2)).
  { intros m Hm. eapply post_mono; [exact Hm|]. intros r s2 (_ & Hi & Hr) _.
    destruct Hadv as (H1 & H2 & H3). unfold advanced. by rewrite Hi, Hr. }
  case_decide; [|by apply post_ret].
  apply post_bind, post_lift. destruct (py_mod _ _) as [m|e]; [|done].
  case_decide; [|by apply post_ret].
  apply Hkeep, save_keeps_runs.
Qed.

Lemma batches_advance args labels preds losses bs : ∀ s : State,
  post (for_M _ _ (batch_turn should_update update_and_create args labels preds losses) bs) s
    (λ r s', r = Ok tt → advanced labels bs s s').
Proof.
  induction bs as [|b bs IH]; intros s; simpl.
  - apply post_ret. intros _. by apply advanced_nil.
  - apply post_bind. eapply post_mono; [apply batch_turn_advances|].
    intros r s1 H1. destruct r as [[]|e]; [|done].
    eapply post_mono; [apply IH|]. intros r s2 H2 Hr.
    apply (advanced_app labels [b] bs s s1 s2); auto.
Qed.

Lemma epoch_turn_advances args dataset labels preds losses e (s : State) :
  post (epoch_turn should_update update_and_create args dataset labels preds losses e) s
    (λ r s', r = Ok tt → advanced labels (dataset e) s s').
Proof.
  unfold epoch_turn. apply post_bind, post_modify_iteration. apply post_bind.
  eapply post_mono; [apply batches_advance|].
  intros r s1 H1. destruct r as [[]|err]; [|done]. specialize (H1 eq_refl).
  assert (Hadv : advanced labels (dataset e) s s1).
  { destruct H1 as (Ha & Hb & Hc). by repeat split. }
  apply post_bind, post_get.
  case_decide; [|by apply post_ret].
  apply post_bind, post_lift. destruct (py_mod _ _) as [m|e']; [|done].
  case_decide; [|by apply post_ret].
  eapply post_mono; [apply save_keeps_runs|]. intros r s2 (_ & Hi & Hr) _.
  destruct Hadv as (H2 & H3 & H4). unfold advanced. by rewrite Hi, Hr.
Qed.

Lemma epochs_advance args dataset labels preds losses es : ∀ s : State,
  post (for_M _ _ (epoch_turn should_update update_and_create args dataset labels preds losses) es) s
    (λ r s', r = Ok tt → advanced labels (concat (dataset <$> es)) s s').
Proof.
  induction es as [|e es IH]; intros s; simpl.
  - apply post_ret. intros _. by apply advanced_nil.
  - apply post_bind. eapply post_mono; [apply epoch_turn_advances|].
    intros r s1 H1. destruct r as [[]|err]; [|done].
    eapply post_mono; [apply IH|]. intros r s2 H2 Hr.
    apply (advanced_app labels (dataset e) _ s s1 s2); auto.
Qed.

(** When [bert_train_loop] returns, the engine has been run exactly on
    the batches that have some non-zero label, once each and in order,
    over the epochs from [start_epoch] to [epochs]; the step counter has
    grown by the number of these batches: skipped batches are not
    counted.  This holds whether or not model saving is enabled. *)
Theorem train_loop_steps (args : Args) (dataset : Z → list Batch)
    (labels preds losses : list string) (s : State) :
  post (bert_train_loop should_update update_and_create args dataset labels preds losses) s
    (λ r s',
       r = Ok tt →
       let batches := concat (dataset <$> py_range (it_start_epoch (iteration s))
                                                   (epochs args)) in
       let run := filter (λ b, processed labels b = true) batches in
       count (iteration s') = (count (iteration s) + Z.of_nat (length run))%Z ∧
       runs s' = runs s ++ (data <$> run)).
Proof.
  unfold bert_train_loop. apply post_bind, post_get. apply post_bind.
  eapply post_mono; [apply save_keeps_runs|]. intros r s1 (-> & Hi1 & Hr1).
  apply post_bind. eapply post_mono; [apply epochs_advance|].
  intros r s2 H2. destruct r as [[]|err]; [|done].
  destruct (H2 eq_refl) as (_ & Hc & Hr). apply post_bind, post_get.
  eapply post_mono; [apply save_keeps_runs|]. intros r s3 (_ & Hi3 & Hr3) _.
  simpl. rewrite Hi3, Hr3, Hc, Hr, Hi1, Hr1. done.
Qed.

End Train.
End TrainFacts.

(** ** bert_pretraining_stats *)

Module PretrainingFacts.
Import Bert BertFacts BertTerms.

Lemma columns_single {A} (row : list A) :
  columns (length row) [row] = (λ c, [c]) <$> row.
Proof.
  unfold columns. simpl. unfold snoc_column.
  induction row as [|c row IH]; [done|]. simpl. by rewrite IH.
Qed.

Lemma fdiv_one (x : float) : fdiv x (of_Z 1) = x.
Proof.
  destruct x as [[n d]|]; [|done]. unfold fdiv, of_Z. simpl.
  f_equal. unfold Qdiv, Qmult, Qinv. simpl. f_equal; lia.
Qed.

Lemma retained_single ig (row : list Cell) :
  retained ig ((λ c, [c]) <$> row)
  = (λ c, [c]) <$> filter (λ c, unmasked ig c = true) row.
Proof.
  unfold retained. induction row as [|c row IH]; [done|].
  rewrite fmap_cons, !filter_cons, IH. simpl. rewrite orb_false_r.
  destruct (unmasked ig c) eqn:E.
  - by rewrite !decide_True by done.
  - by rewrite !decide_False by done.
Qed.

Lemma position_loss_single ig (c : Cell) :
  unmasked ig c = true → position_loss ig [c] = loss c.
Proof.
  intros Hc. unfold position_loss, divisor, masked_loss. simpl.
  rewrite filter_cons, decide_True by done. rewrite Hc. simpl. apply fdiv_one.
Qed.

Lemma single_objective ig (row : list Cell) :
  mean_position_loss (Some ig) (columns (length row) [row]) = objective_loss ig row ∧
  masked_accuracy (Some ig) (columns (length row) [row]) = objective_accuracy ig row.
Proof.
  rewrite columns_single. split.
  - unfold mean_position_loss, objective_loss, scored. rewrite retained_single. f_equal.
    rewrite <- list_fmap_compose. apply Forall_fmap_ext_1, Forall_forall.
    intros c [Hc _]%list_elem_of_filter. by apply position_loss_single.
  - unfold masked_accuracy, objective_accuracy, scored.
    assert (E : concat ((λ c : Cell, [c]) <$> row) = row).
    { induction row as [|c r IH]; [done|]. csimpl. by f_equal. }
    by rewrite E.
Qed.

Lemma bert_output_stats_masks ig labels (anchors : Anchors) losses preds a x :
  bert_output_stats labels anchors losses preds ig = Ok (a, x) →
  mask_losses anchors losses (padding_mask ig <$> labels) = Ok a.
Proof.
  unfold bert_output_stats.
  destruct (padding_mask ig <$> labels) as [|mask masks] eqn:Em.
  { destruct (reduce _ _); [|done]. cbn [rbind]. case_decide; [|done].
    destruct (count_correct _ _ _ _ _); [|done]. cbn [rbind]. intros [= <- _].
    unfold mask_losses. by destruct losses. }
  rewrite <- Em.
  destruct (sum_axis0 _ _); [|done]. cbn [rbind].
  destruct (mask_losses _ _ _) as [a'|]; [|done]. cbn [rbind].
  destruct (reduce _ _); [|done]. cbn [rbind].
  destruct (bool_index _ _); [|done]. cbn [rbind].
  destruct (broadcast2 _ _ _); [|done]. cbn [rbind].
  destruct (count_correct _ _ _ _ _); [|done]. cbn [rbind]. congruence.
Qed.

(** [bert_pretraining_stats] scores the two objectives independently:
    the MLM figures are the mean loss and the fraction of correct
    predictions over the positions whose MLM label is not 0, the NSP
    figures are the same over the positions whose NSP label is not 2,
    each computed from the arrays the anchors held before the call (the
    in-place masking of the MLM loss does not reach the NSP arrays),
    provided the anchors of the two losses differ and no prediction
    anchor is the anchor of a loss that is masked before it is read. *)
Theorem pretraining_stats_split (mlm nsp : list Cell) (anchors : Anchors)
    (s0 s1 p0 p1 : string) :
  anchors !! s0 = Some (loss <$> mlm) → anchors !! p0 = Some (prediction <$> mlm) →
  anchors !! s1 = Some (loss <$> nsp) → anchors !! p1 = Some (prediction <$> nsp) →
  s0 ≠ s1 → p0 ≠ s0 → p1 ≠ s0 → p1 ≠ s1 →
  ∃ anchors' : Anchors,
    bert_pretraining_stats [label <$> mlm; label <$> nsp] anchors [s0; s1] [p0; p1]
    = Ok (anchors', ([objective_loss 0 mlm; objective_loss 2 nsp],
                     [objective_accuracy 0 mlm; objective_accuracy 2 nsp])).
Proof.
  intros Hs0 Hp0 Hs1 Hp1 Hs Hp0s Hp1s0 Hp1s1.
  unfold bert_pretraining_stats, list_getitem. simpl.
  destruct (bert_output_stats_columns (Some 0%Z) (length mlm) [mlm] anchors [s0] [p0])
    as [a0 Hmlm].
  { done. } { by repeat constructor. } { split; by repeat constructor. }
  { apply NoDup_singleton. } { intros key ->%list_elem_of_singleton.
    by intros ?%list_elem_of_singleton. }
  simpl in Hmlm. rewrite Hmlm. simpl.
  pose proof (bert_output_stats_masks _ _ _ _ _ _ _ Hmlm) as Hmask.
  assert (Hframe : ∀ key, key ≠ s0 → a0 !! key = anchors !! key).
  { destruct (mask_losses_Ok (Some 0%Z) [s0] [mlm] anchors) as (a' & Ha' & _ & Hother).
    { by repeat constructor. } { apply NoDup_singleton. }
    rewrite <- (labels_masks (Some 0%Z) [mlm]) in Ha'. simpl in Ha', Hmask.
    rewrite Hmask in Ha'. injection Ha' as <-.
    intros key Hkey. apply Hother. by intros ?%list_elem_of_singleton. }
  destruct (bert_output_stats_columns (Some 2%Z) (length nsp) [nsp] a0 [s1] [p1])
    as [a1 Hnsp].
  { done. } { by repeat constructor. }
  { split; repeat constructor; rewrite Hframe; done. }
  { apply NoDup_singleton. } { intros key ->%list_elem_of_singleton.
    by intros ?%list_elem_of_singleton. }
  simpl in Hnsp. rewrite Hnsp. simpl. exists a1.
  destruct (single_objective 0 mlm) as [-> ->].
  destruct (single_objective 2 nsp) as [-> ->]. done.
Qed.

End PretrainingFacts.

(** ** Concrete runs *)

Module FurtherRuns.
Import TfLoader TfCheckpoint TfLoaderExamples TfCheckpointExamples.
Import Bert BertInfer BertTerms BertExamples BertInferExamples.
Import LoadFacts LatencyFacts PretrainingFacts.

Example load_small :
  load_initializers_from_tf 0%Z id_cast ckpt_small true cfg_small = Ok loaded_small.
Proof. vm_compute. reflexivity. Qed.

Example mapping_small_size : size (get_tf_mapping cfg_small) = 21.
Proof. vm_compute. reflexivity. Qed.

Example required_ipus_base : calc_required_ipus args_squad layout_base = Ok (8, 7)%Z.
Proof. reflexivity. Qed.

Lemma calc_required_ipus_spec_witness :
  ∃ request_ipus num_ipus,
    calc_required_ipus args_squad layout_base = Ok (request_ipus, num_ipus) ∧
    num_ipus = 7%Z ∧ (num_ipus ≤ request_ipus < 2 * num_ipus)%Z.
Proof.
  pose proof (DeviceFacts.calc_required_ipus_spec args_squad layout_base) as H.
  cbv zeta in H.
  specialize (H ltac:(vm_compute; discriminate) ltac:(vm_compute; discriminate)
                ltac:(vm_compute; discriminate)).
  destruct (calc_required_ipus args_squad layout_base) as [[request_ipus num_ipus]|e];
    [|by destruct H as [[Hl _] | (_ & Hn & _)]].
  destruct H as (_ & Hn & _ & _ & Hb & _).
  exists request_ipus, num_ipus. split; [done|]. split; [by rewrite Hn|].
  by rewrite Hn.
Defined.

Example infer_loop_run :
  let run := bert_infer_loop args_latency flags_realtime 42 infer_dataset ["logits"]
               infer_state in
  run.1 = Ok tt ∧ count (i_iteration run.2) = 2%Z ∧
  map_to_list <$> i_runs run.2
  = [[("indices", [1%Z])]; [("indices", [1%Z]); ("positions", [9%Z])]] ∧
  (i_results run.2).*2 = [[[Some 1%Q]]; [[Some 2%Q]]] ∧
  i_written run.2 = 1 ∧
  i_commands run.2 = ["sudo -n chrt --rr -p 99 42"; "sudo -n chrt --other -p 0 42"].
Proof. vm_compute. by repeat split. Qed.

Example train_loop_run :
  let run := bert_train_loop no_update same_optimizer args_squad
               (λ e, [batch_squad; batch_padding; batch_squad])
               ["start_labels"] ["pred"] ["loss"] st_squad in
  run.1 = Ok tt ∧ count (iteration run.2) = 4%Z ∧
  runs run.2 = replicate 4 (data batch_squad).
Proof. vm_compute. by repeat split. Qed.

Example add_stats_run :
  let run := add_stats (of_Z 3) None [[1; 0]%Z] ["loss"] ["pred"] st_outputs in
  run.1 = Ok tt ∧
  scalars run.2 = [("defaultLearningRate", fzero, 0%Z); ("loss", Some (8 # 8)%Q, 0%Z);
                   ("accuracy", Some (1 # 2)%Q, 0%Z)].
Proof. vm_compute. by repeat split. Qed.

Lemma generate_initializers_keys_witness :
  is_Some (loaded_small !! "Layer0/Attention/QKV") ∧
  (is_Some (loaded_small !! "Layer0/Attention/Out") → False).
Proof.
  pose proof (generate_initializers_keys 0%Z id_cast (get_tf_mapping cfg_small) cfg_small
                [name_emb; name_k]
                [Mat Float32 2 [[1; 2]; [3; 4]; [5; 6]; [7; 8]]%Z; k_small] loaded_small) as H.
  split.
  - apply H; [vm_compute; reflexivity|].
    exists name_k. split; [|vm_compute; reflexivity].
    apply list_elem_of_further, list_elem_of_here.
  - intros Hs. apply H in Hs as (name & Hin & Hmap); [|vm_compute; reflexivity].
    simpl in Hin. apply elem_of_cons in Hin as [-> | Hin]; [vm_compute in Hmap; discriminate|].
    apply elem_of_cons in Hin as [-> | Hin]; [vm_compute in Hmap; discriminate|].
    by apply elem_of_nil in Hin.
Defined.

Lemma float16_everywhere_witness :
  generate_initializers 0%Z id_cast (get_tf_mapping cfg_half) cfg_half [name_k] [k_small]
  = Ok {[ "Layer0/Attention/QKV" :=
            Mat Float16 6 [[None; None; Some 5; Some 6; None; None];
                           [None; None; Some 7; Some 8; None; None]]%Z ]} ∧
  dtype (Mat Float16 6 [[None; None; Some 5; Some 6; None; None];
                        [None; None; Some 7; Some 8; None; None]]%Z) = Float16.
Proof.
  assert (Hrun : generate_initializers 0%Z id_cast (get_tf_mapping cfg_half) cfg_half
                   [name_k] [k_small]
                 = Ok {[ "Layer0/Attention/QKV" :=
                           Mat Float16 6 [[None; None; Some 5; Some 6; None; None];
                                          [None; None; Some 7; Some 8; None; None]]%Z ]}).
  { vm_compute. reflexivity. }
  split; [exact Hrun|].
  assert (Hdata : Forall (λ a : ndarray Z, dtype a = Float32 ∨ dtype a = Float16) [k_small]).
  { repeat constructor. }
  apply (float16_everywhere 0%Z id_cast (get_tf_mapping cfg_half) cfg_half
           [name_k] [k_small] _ eq_refl Hdata Hrun "Layer0/Attention/QKV").
  vm_compute. reflexivity.
Defined.

Lemma unmapped_name_raises_witness :
  generate_initializers 0%Z id_cast (get_tf_mapping cfg_small) cfg_small
    [name_k; "global_step"; name_q] [k_small; Vec OtherDType [100%Z]; q_small]
  = Raise KeyError.
Proof.
  apply (unmapped_name_raises 0%Z id_cast (get_tf_mapping cfg_small) cfg_small
           [(name_k, k_small)] [(name_q, q_small)] "global_step" (Vec OtherDType [100%Z])
           {[ "Layer0/Attention/QKV" :=
                Mat Float32 6 [[None; None; Some 5; Some 6; None; None];
                               [None; None; Some 7; Some 8; None; None]]%Z ]}).
  - vm_compute. reflexivity.
  - vm_compute. reflexivity.
Defined.

Lemma unmapped_variables_ignored_witness :
  load_initializers_from_tf 0%Z id_cast ckpt_small true cfg_small
  = load_initializers_from_tf 0%Z id_cast
      (filter (λ na, is_Some (get_tf_mapping cfg_small !! na.1)) ckpt_small) true cfg_small.
Proof.
  apply (unmapped_variables_ignored 0%Z id_cast ckpt_small cfg_small).
  apply (bool_decide_unpack _). vm_compute. exact I.
Defined.

Lemma latency_mean_between_witness : (4 <= 9 # 2)%Q ∧ (9 # 2 <= 5)%Q.
Proof.
  apply (latency_mean_between args_latency start_times end_times).
  vm_compute. reflexivity.
Defined.

Lemma pretraining_stats_split_witness :
  ∃ anchors' : Anchors,
    bert_pretraining_stats [label <$> row_mlm; label <$> row_nsp] anchors_pretraining
      ["loss0"; "loss1"] ["pred0"; "pred1"]
    = Ok (anchors', ([objective_loss 0 row_mlm; objective_loss 2 row_nsp],
                     [objective_accuracy 0 row_mlm; objective_accuracy 2 row_nsp])).
Proof.
  apply (pretraining_stats_split row_mlm row_nsp anchors_pretraining
           "loss0" "loss1" "pred0" "pred1"); done.
Defined.

End FurtherRuns.
